(** * The AD tape of infergo (package [ad]): a shallow embedding

    The development follows [ad/tape.go] and the elemental registry of the
    same package.  The tape is one global object; every recorder primitive is
    a computation over a [state] that holds the tape, the registry of
    elemental gradients and the memory that lives outside the tape (the
    caller's parameter slice, local variables).  A panic does not roll the tape
    back, so a panicking computation still returns the state it left. *)

From Stdlib Require Import ZArith QArith Qcanon Floats Field Lia.
From stdpp Require Import base option list gmap.


(** ** Arithmetic on [float64]

    The tape only ever combines numbers with the five arithmetic operations
    and moves them around, so the embedding is parametric in the number type.
    Two instances are used: binary64 floats (what the Go code runs on) for
    concrete runs, and the rationals for statements that need exact
    arithmetic. *)

Class Float64 (F : Type) := {
  fzero : F;            (* 0. *)
  fone : F;             (* 1. *)
  fhalf : F;            (* 0.5 *)
  fneg : F → F;
  fadd : F → F → F;
  fsub : F → F → F;
  fmul : F → F → F;
  fdiv : F → F → F
}.

#[global] Instance float_Float64 : Float64 float := {|
  fzero := 0%float; fone := 1%float; fhalf := 0.5%float;
  fneg := PrimFloat.opp; fadd := PrimFloat.add; fsub := PrimFloat.sub;
  fmul := PrimFloat.mul; fdiv := PrimFloat.div
|}.

#[global] Instance Qc_Float64 : Float64 Qc := {|
  fzero := 0%Qc; fone := 1%Qc; fhalf := Q2Qc (1 # 2);
  fneg := Qcopp; fadd := Qcplus; fsub := Qcminus;
  fmul := Qcmult; fdiv := Qcdiv
|}.

(** Exact arithmetic: the operations form a field.  [finv] is only there to
    state the laws. *)
Definition exact_arithmetic {F} `{Float64 F} (finv : F → F) : Prop :=
  field_theory fzero fone fadd fmul fsub fneg fdiv finv (@eq F).

(** ** Places

    A [*float64] handed to the tape points either into [tape.values] (the
    cells made by [Value]) or to memory outside the tape. Cells of the value
    store are only ever reached through the pointer [Value] returned and saved
    values only through their index, so [&tape.values[i]] is identified with
    index [i] of the store. *)

Inductive loc :=
  | LVal (i : nat)    (* &tape.values[i] *)
  | LExt (i : nat).   (* a cell outside the tape *)

#[global] Instance loc_eq_dec : EqDecision loc.
Proof. solve_decision. Defined.

#[global] Instance loc_countable : Countable loc :=
  inj_countable'
    (λ l, match l with LVal i => inl i | LExt i => inr i end)
    (λ x, match x with inl i => LVal i | inr i => LExt i end)
    (λ l, match l with LVal _ => eq_refl | LExt _ => eq_refl end).

(** A [[]float64] is given by the places of its elements. *)
Definition float_slice := list loc.

(** ** Records, counters, panics *)

Inductive rtyp :=
  | typDummy        (* placeholder *)
  | typAssignment   (* assignment statement *)
  | typArithmetic   (* unary or binary *)
  | typElemental    (* call to an elemental function *)
  | typCall.        (* last on the tape before a method call *)

#[global] Instance rtyp_eq_dec : EqDecision rtyp.
Proof. solve_decision. Defined.

Definition OpNeg : Z := 0.
Definition OpAdd : Z := 1.
Definition OpSub : Z := 2.
Definition OpMul : Z := 3.
Definition OpDiv : Z := 4.

Record record := {
  typ : rtyp;   (* record type *)
  op : Z;       (* opcode; index of gradient; number of values *)
  p : nat;      (* index of the first place *)
  v : nat       (* index of the first value *)
}.

Record counters := {
  c_n : nat;   (* independents *)
  c_r : nat;   (* records *)
  c_p : nat;   (* places *)
  c_v : nat;   (* values *)
  c_e : nat    (* elementals *)
}.

Inductive panic :=
  | NotAnElemental            (* panic("not an elemental") *)
  | BadOpcode (o : Z)         (* panic("bad opcode ...") *)
  | BadType (t : rtyp)        (* panic("bad type ...") *)
  | RuntimeError.             (* index out of range, invalid dereference *)

Inductive outcome (S A : Type) :=
  | Ok (a : A) (s : S)
  | Panicked (e : panic) (s : S).
Arguments Ok {S A} a s.
Arguments Panicked {S A} e s.

Section Tape.
Context {F : Type} `{Float64 F}.

(** [ElementalGradientFunc]: a Go function, so it may panic ([None]). *)
Definition ElementalGradientFunc := F → list F → option (list F).

Record elemental := {
  e_n : nat;                    (* number of arguments *)
  e_g : ElementalGradientFunc   (* gradient *)
}.

(** Identity of a function value, the key of the registry ([fkey]). *)
Inductive fident :=
  | math_Sqrt | math_Exp | math_Log | math_Pow
  | math_Sin | math_Cos | math_Tan
  | user_fun (n : nat).

#[global] Instance fident_eq_dec : EqDecision fident.
Proof. solve_decision. Defined.

(** The dynamic type of the [interface{}] passed to [Elemental]. *)
Inductive fimpl :=
  | Fun1 (f : F → F)                  (* func(float64) float64 *)
  | Fun2 (f : F → F → F)              (* func(float64, float64) float64 *)
  | FunN (f : list F → option F).     (* anything else, through reflection *)

Record efun := { fkey : fident; fcode : fimpl }.

Record state := {
  records : list record;         (* tape.records *)
  places : list loc;             (* tape.places *)
  values : list F;               (* tape.values *)
  elementals : list elemental;   (* tape.elementals *)
  cstack : list counters;        (* tape.cstack *)
  adj : list nat;                (* tape.adj *)
  adv : list F;                  (* tape.adv *)
  registry : list (fident * ElementalGradientFunc);   (* var elementals *)
  heap : list F                  (* memory outside the tape *)
}.

Definition set_records (f : list record → list record) (s : state) : state :=
  {| records := f (records s); places := places s; values := values s;
     elementals := elementals s; cstack := cstack s; adj := adj s;
     adv := adv s; registry := registry s; heap := heap s |}.
Definition set_places (f : list loc → list loc) (s : state) : state :=
  {| records := records s; places := f (places s); values := values s;
     elementals := elementals s; cstack := cstack s; adj := adj s;
     adv := adv s; registry := registry s; heap := heap s |}.
Definition set_values (f : list F → list F) (s : state) : state :=
  {| records := records s; places := places s; values := f (values s);
     elementals := elementals s; cstack := cstack s; adj := adj s;
     adv := adv s; registry := registry s; heap := heap s |}.
Definition set_elementals (f : list elemental → list elemental) (s : state)
  : state :=
  {| records := records s; places := places s; values := values s;
     elementals := f (elementals s); cstack := cstack s; adj := adj s;
     adv := adv s; registry := registry s; heap := heap s |}.
Definition set_cstack (f : list counters → list counters) (s : state)
  : state :=
  {| records := records s; places := places s; values := values s;
     elementals := elementals s; cstack := f (cstack s); adj := adj s;
     adv := adv s; registry := registry s; heap := heap s |}.
Definition set_adj (f : list nat → list nat) (s : state) : state :=
  {| records := records s; places := places s; values := values s;
     elementals := elementals s; cstack := cstack s; adj := f (adj s);
     adv := adv s; registry := registry s; heap := heap s |}.
Definition set_adv (f : list F → list F) (s : state) : state :=
  {| records := records s; places := places s; values := values s;
     elementals := elementals s; cstack := cstack s; adj := adj s;
     adv := f (adv s); registry := registry s; heap := heap s |}.
Definition set_registry
  (f : list (fident * ElementalGradientFunc) →
       list (fident * ElementalGradientFunc)) (s : state) : state :=
  {| records := records s; places := places s; values := values s;
     elementals := elementals s; cstack := cstack s; adj := adj s;
     adv := adv s; registry := f (registry s); heap := heap s |}.
Definition set_heap (f : list F → list F) (s : state) : state :=
  {| records := records s; places := places s; values := values s;
     elementals := elementals s; cstack := cstack s; adj := adj s;
     adv := adv s; registry := registry s; heap := f (heap s) |}.

(** ** The monad of tape computations *)

Definition M (A : Type) := state → outcome state A.

Definition ret {A} (a : A) : M A := λ s, Ok a s.
Definition bind {A B} (m : M A) (k : A → M B) : M B :=
  λ s, match m s with
       | Ok a s' => k a s'
       | Panicked e s' => Panicked e s'
       end.
Definition throw {A} (e : panic) : M A := λ s, Panicked e s.
Definition gets {A} (f : state → A) : M A := λ s, Ok (f s) s.
Definition modify (f : state → state) : M unit := λ s, Ok tt (f s).

(** [demand e f]: read [f] off the state, panic with [e] when there is
    nothing to read. *)
Definition demand {A} (e : panic) (f : state → option A) : M A :=
  λ s, match f s with Some a => Ok a s | None => Panicked e s end.

(** An indexing or a dereference: out of range is a run-time panic. *)
Definition index {A} (f : state → option A) : M A := demand RuntimeError f.
Definition check {A} (o : option A) : M A := index (λ _, o).

(** A bounds check of the run time. *)
Definition guard (P : state → Prop) `{!∀ s, Decision (P s)} : M unit :=
  λ s, if decide (P s) then Ok tt s else Panicked RuntimeError s.

Notation "'let*' x := m 'in' k" := (bind m (λ x, k))
  (at level 10, x name, m at level 100, k at level 200, only parsing).
Notation "m >> k" := (bind m (λ _, k))
  (at level 100, k at level 200, right associativity, only parsing).

Implicit Types (s : state) (l : loc) (px : list loc).

(** ** Memory *)

Definition read_loc l s : option F :=
  match l with
  | LVal i => values s !! i
  | LExt i => heap s !! i
  end.

Definition write_loc l (x : F) s : state :=
  match l with
  | LVal i => set_values (λ vs, <[i:=x]> vs) s
  | LExt i => set_heap (λ h, <[i:=x]> h) s
  end.

(** [*l] *)
Definition deref l : M F := index (read_loc l).

(** [*l = x] *)
Definition store l (x : F) : M unit :=
  guard (λ s, is_Some (read_loc l s)) >> modify (write_loc l x).

(** [for _, x := range xs { body }] *)
Fixpoint for_each {A} (xs : list A) (body : A → M unit) : M unit :=
  match xs with
  | [] => ret tt
  | x :: xs' => body x >> for_each xs' body
  end.

(** [for i := 0; i != n; i++ { body }] *)
Definition for_upto (n : nat) (body : nat → M unit) : M unit :=
  for_each (seq 0 n) body.

(** The values of the cells [px], read in order. *)
Fixpoint deref_all px : M (list F) :=
  match px with
  | [] => ret []
  | py :: px' =>
      let* x := deref py in
      let* xs := deref_all px' in
      ret (x :: xs)
  end.

(** The top counter frame, [&tape.cstack[len(tape.cstack)-1]]. *)
Definition top_frame : M counters := index (λ s, last (cstack s)).

(** ** The registry of elementals *)

Definition RegisterElemental (f : efun) (g : ElementalGradientFunc) : M unit :=
  modify (set_registry (λ m, (fkey f, g) :: m)).

Fixpoint lookup_gradient (k : fident)
    (m : list (fident * ElementalGradientFunc))
  : option ElementalGradientFunc :=
  match m with
  | [] => None
  | (k', g) :: m' => if decide (k' = k) then Some g else lookup_gradient k m'
  end.

Definition ElementalGradient (f : efun) s : option ElementalGradientFunc :=
  lookup_gradient (fkey f) (registry s).

(** ** Forward pass *)

Definition push (n : nat) : M unit :=
  let* c := gets (λ s, {| c_n := n; c_r := length (records s);
                          c_p := length (places s);
                          c_v := length (values s);
                          c_e := length (elementals s) |}) in
  modify (set_cstack (λ cs, cs ++ [c])).

Definition register (x : float_slice) : M unit :=
  for_each x (λ xi, modify (set_places (λ ps, ps ++ [xi]))).

Definition Value (x : F) : M loc :=
  modify (set_values (λ vs, vs ++ [x])) >>
  gets (λ s, LVal (length (values s) - 1)).

Definition Setup (x : float_slice) : M unit :=
  push (length x) >>
  let* r := Value fzero in
  modify (set_places (λ ps, ps ++ [r])) >>
  register x.

Definition Return (px : loc) : M F :=
  let* c := top_frame in
  guard (λ s, c_p c < length (places s)) >>
  modify (set_places (λ ps, <[c_p c := px]> ps)) >>
  deref px.

(** The value of operand [i] of [px], [*px[i]]. *)
Definition operand_value px (i : nat) : M F :=
  let* pxi := check (px !! i) in deref pxi.

Definition Arithmetic (o : Z) px : M loc :=
  let* p := Value fzero in
  let* r := gets (λ s, {| typ := typArithmetic; op := o;
                          p := length (places s); v := 0 |}) in
  modify (set_places (λ ps, ps ++ [p])) >>
  modify (set_places (λ ps, ps ++ px)) >>
  modify (set_records (λ rs, rs ++ [r])) >>
  (if decide (o = OpNeg) then
     let* x := operand_value px 0 in
     store p (fneg x)
   else if decide (o = OpAdd) then
     let* x := operand_value px 0 in
     let* y := operand_value px 1 in
     store p (fadd x y)
   else if decide (o = OpSub) then
     let* x := operand_value px 0 in
     let* y := operand_value px 1 in
     store p (fsub x y)
   else if decide (o = OpMul) then
     let* x := operand_value px 0 in
     let* y := operand_value px 1 in
     store p (fmul x y)
   else if decide (o = OpDiv) then
     let* x := operand_value px 0 in
     let* y := operand_value px 1 in
     store p (fdiv x y)
   else throw (BadOpcode (op r))) >>
  ret p.

(** The two registration loops of the assignments: the place is logged and
    the value of its cell is saved. *)
Definition log_and_save (pi : loc) : M unit :=
  modify (set_places (λ ps, ps ++ [pi])) >>
  let* x := deref pi in
  modify (set_values (λ vs, vs ++ [x])).

Definition ParallelAssignment (ppx : list loc) : M unit :=
  let p := take (length ppx / 2) ppx in
  let px := drop (length ppx / 2) ppx in
  let* r := gets (λ s, {| typ := typAssignment; op := Z.of_nat (length p);
                          p := length (places s);
                          v := length (values s) |}) in
  for_each p log_and_save >>
  for_each px log_and_save >>
  modify (set_records (λ rs, rs ++ [r])) >>
  for_each (zip (seq 0 (length p)) p) (λ ip,
    let* x := index (λ s, values s !! (length (values s) - length p + ip.1)) in
    store ip.2 x).

Definition Assignment (p px : loc) : M unit :=
  let* r := gets (λ s, {| typ := typAssignment; op := 1;
                          p := length (places s);
                          v := length (values s) |}) in
  modify (set_places (λ ps, ps ++ [p; px])) >>
  let* x := deref p in
  modify (set_values (λ vs, vs ++ [x])) >>
  modify (set_records (λ rs, rs ++ [r])) >>
  let* y := deref px in
  store p y.

Definition Elemental (f : efun) px : M loc :=
  let* p := Value fzero in
  let* g := demand NotAnElemental (ElementalGradient f) in
  let* r := gets (λ s, {| typ := typElemental;
                          op := Z.of_nat (length (elementals s));
                          p := length (places s);
                          v := length (values s) |}) in
  let e := {| e_n := length px; e_g := g |} in
  modify (set_places (λ ps, ps ++ [p])) >>
  modify (set_places (λ ps, ps ++ px)) >>
  for_each px (λ py,
    let* x := deref py in modify (set_values (λ vs, vs ++ [x]))) >>
  modify (set_elementals (λ es, es ++ [e])) >>
  modify (set_records (λ rs, rs ++ [r])) >>
  (match fcode f with
   | Fun1 f1 =>
       let* x := operand_value px 0 in
       store p (f1 x)
   | Fun2 f2 =>
       let* x := operand_value px 0 in
       let* y := operand_value px 1 in
       store p (f2 x y)
   | FunN fn =>
       let* args := deref_all px in
       let* y := check (fn args) in
       store p y
   end) >>
  ret p.

(** ** Calling differentiated functions *)

Definition Called : M bool :=
  index (λ s, (λ r, bool_decide (typ r = typCall)) <$> last (records s)).

(** The left-hand sides of [variadic]: [n] fresh cells appended to [sides]. *)
Fixpoint fresh_sides (n : nat) (sides : list loc) : M (list loc) :=
  match n with
  | O => ret sides
  | S n' => let* c := Value fzero in fresh_sides n' (sides ++ [c])
  end.

Definition variadic px : M float_slice :=
  let* v0 := gets (λ s, length (values s)) in
  let* sides := fresh_sides (length px) [] in
  let* vararg := gets (λ s, LVal <$> seq v0 (length (values s) - v0)) in
  ParallelAssignment (sides ++ px) >>
  ret vararg.

(** [tape.records[i].typ = t] *)
Definition set_typ (i : nat) (t : rtyp) : M unit :=
  let* r := index (λ s, records s !! i) in
  modify (set_records
            (λ rs, <[i := {| typ := t; op := op r; p := p r; v := v r |}]> rs)).

Definition Call (f : float_slice → M unit) (narg : nat) px : M loc :=
  let* vararg := (if decide (narg < length px)
                  then variadic (drop narg px) else ret []) in
  guard (λ _, narg ≤ length px) >>
  for_each (take narg px) (λ py, modify (set_places (λ ps, ps ++ [py]))) >>
  let* icall := gets (λ s, length (records s)) in
  modify (set_records
            (λ rs, rs ++ [{| typ := typCall; op := 0; p := 0; v := 0 |}])) >>
  f vararg >>
  set_typ icall typDummy >>
  let* c := top_frame in
  index (λ s, places s !! c_p c).

Definition Enter px : M unit :=
  guard (λ s, length px ≤ length (places s)) >>
  let* actual := gets (λ s,
    take (length px) (drop (length (places s) - length px) (places s))) in
  ParallelAssignment (px ++ actual).

(** ** Backward pass *)

Definition Pop : M unit :=
  let* c := top_frame in
  guard (λ s, c_r c ≤ length (records s)) >>
  modify (set_records (take (c_r c))) >>
  guard (λ s, c_p c ≤ length (places s)) >>
  modify (set_places (take (c_p c))) >>
  guard (λ s, c_v c ≤ length (values s)) >>
  modify (set_values (take (c_v c))) >>
  guard (λ s, c_e c ≤ length (elementals s)) >>
  modify (set_elementals (take (c_e c))) >>
  modify (set_cstack (λ cs, take (length cs - 1) cs)).

(** [tape.adj[i] = j] *)
Definition set_adj_at (i j : nat) : M unit :=
  guard (λ s, i < length (adj s)) >>
  modify (set_adj (λ a, <[i := j]> a)).

(** [adv[adj[i]]] *)
Definition adjoint (i : nat) : M F :=
  let* j := index (λ s, adj s !! i) in
  index (λ s, adv s !! j).

(** [adv[adj[i]] = x] *)
Definition set_adjoint (i : nat) (x : F) : M unit :=
  let* j := index (λ s, adj s !! i) in
  guard (λ s, j < length (adv s)) >>
  modify (set_adv (λ a, <[j := x]> a)).

(** [adv[adj[i]] += x] and [adv[adj[i]] -= x] *)
Definition add_adjoint (i : nat) (x : F) : M unit :=
  let* a := adjoint i in set_adjoint i (fadd a x).
Definition sub_adjoint (i : nat) (x : F) : M unit :=
  let* a := adjoint i in set_adjoint i (fsub a x).

(** [places[i]], [*places[i]] and [values[i]] *)
Definition place (i : nat) : M loc := index (λ s, places s !! i).
Definition place_value (i : nat) : M F := let* l := place i in deref l.
Definition value_at (i : nat) : M F := index (λ s, values s !! i).

(** The loop that fills the adjoint index for the places [idx];
    [adjoints] is the map from locations to adjoint slots. *)
Fixpoint build_index (idx : list nat) (adjoints : gmap loc nat) : M unit :=
  match idx with
  | [] => ret tt
  | i :: idx' =>
      let* pl := place i in
      match adjoints !! pl with
      | Some j => set_adj_at i j >> build_index idx' adjoints
      | None =>
          let* j := gets (λ s, length (adv s)) in
          set_adj_at i j >>
          modify (set_adv (λ a, a ++ [fzero])) >>
          build_index idx' (<[pl := j]> adjoints)
      end
  end.

(** One record of the backward walk. *)
Definition backward_record (r : record) : M unit :=
  match typ r with
  | typDummy => ret tt
  | typAssignment =>
      if decide (op r = 1%Z) then
        let* t := place (p r) in
        let* x := value_at (v r) in
        store t x >>
        let* a := adjoint (p r) in
        set_adjoint (p r) fzero >>
        add_adjoint (p r + 1) a
      else
        guard (λ _, (0 ≤ op r)%Z) >>
        let k := Z.to_nat (op r) in
        for_upto k (λ i,
          let* t := place (p r + i) in
          let* x := value_at (v r + i) in
          store t x) >>
        guard (λ s, v r + k ≤ length (values s)) >>
        for_upto k (λ i,
          let* a := adjoint (p r + i) in
          modify (set_values (λ vs, <[v r + i := a]> vs))) >>
        for_upto k (λ i, set_adjoint (p r + i) fzero) >>
        for_upto k (λ i,
          let* a := value_at (v r + i) in
          add_adjoint (p r + k + i) a)
  | typArithmetic =>
      let* a := adjoint (p r) in
      if decide (op r = OpNeg) then
        sub_adjoint (p r + 1) a
      else if decide (op r = OpAdd) then
        add_adjoint (p r + 1) a >>
        add_adjoint (p r + 2) a
      else if decide (op r = OpSub) then
        add_adjoint (p r + 1) a >>
        sub_adjoint (p r + 2) a
      else if decide (op r = OpMul) then
        let* y := place_value (p r + 2) in
        let ax := fmul a y in
        let* x := place_value (p r + 1) in
        let ay := fmul a x in
        add_adjoint (p r + 1) ax >>
        add_adjoint (p r + 2) ay
      else if decide (op r = OpDiv) then
        let* y := place_value (p r + 2) in
        let ax := fdiv a y in
        let* z := place_value (p r) in
        let ay := fmul (fneg ax) z in
        add_adjoint (p r + 1) ax >>
        add_adjoint (p r + 2) ay
      else throw (BadOpcode (op r))
  | typElemental =>
      let* a := adjoint (p r) in
      guard (λ _, (0 ≤ op r)%Z) >>
      let* e := index (λ s, elementals s !! Z.to_nat (op r)) in
      let* z := place_value (p r) in
      guard (λ s, v r + e_n e ≤ length (values s)) >>
      let* args := gets (λ s, take (e_n e) (drop (v r) (values s))) in
      let* d := check (e_g e z args) in
      for_upto (e_n e) (λ i,
        let* di := check (d !! i) in
        add_adjoint (p r + 1 + i) (fmul a di))
  | typCall => throw (BadType (typ r))
  end.

(** The two-level dereference structure: [tape.adj] is extended to the
    length of the place log, then every place of the frame gets the adjoint
    slot of its location. *)
Definition index_adjoints (c : counters) : M unit :=
  modify (λ s, if decide (length (adj s) < length (places s))
               then set_adj (λ a, a ++ replicate (length (places s) - length a) 0) s
               else s) >>
  let* n := gets (λ s, length (places s)) in
  guard (λ _, c_p c ≤ n) >>
  build_index (seq (c_p c) (n - c_p c)) ∅.

(** [adv[adj[0]] = 1.] *)
Definition seed_result : M unit := set_adjoint 0 fone.

(** The walk over the records of the frame, last record first. *)
Definition visit (irs : list nat) : M unit :=
  for_each irs (λ ir,
    let* r := index (λ s, records s !! ir) in backward_record r).

Definition walk (c : counters) : M unit :=
  let bottom := c_r c in
  let* top := gets (λ s, length (records s)) in
  if decide (bottom ≤ top)
  then visit (reverse (seq bottom (top - bottom)))
  else visit (reverse (seq 0 top)) >> throw RuntimeError.

Definition backward : M unit :=
  let* c := top_frame in
  index_adjoints c >>
  seed_result >>
  walk c.

(** [partials[i] = tape.adv[tape.adj[c.p+i+1]]] for the indices [idx]. *)
Fixpoint collect (c : counters) (idx : list nat) : M (list F) :=
  match idx with
  | [] => ret []
  | i :: idx' =>
      let* x := adjoint (c_p c + i + 1) in
      let* xs := collect c idx' in
      ret (x :: xs)
  end.

Definition partials : M (list F) :=
  let* c := top_frame in
  collect c (seq 0 (c_n c)).

Definition Gradient : M (list F) :=
  backward >>
  let* partials := partials in
  Pop >>
  ret partials.

(** ** Elementals from the math package

    The functions of Go's [math] package are taken as given. *)

Section MathElementals.
Variables (Sqrt Exp Log Sin Cos Tan : F → F) (Pow : F → F → F).

Definition f_Sqrt : efun := {| fkey := math_Sqrt; fcode := Fun1 Sqrt |}.
Definition f_Exp : efun := {| fkey := math_Exp; fcode := Fun1 Exp |}.
Definition f_Log : efun := {| fkey := math_Log; fcode := Fun1 Log |}.
Definition f_Pow : efun := {| fkey := math_Pow; fcode := Fun2 Pow |}.
Definition f_Sin : efun := {| fkey := math_Sin; fcode := Fun1 Sin |}.
Definition f_Cos : efun := {| fkey := math_Cos; fcode := Fun1 Cos |}.
Definition f_Tan : efun := {| fkey := math_Tan; fcode := Fun1 Tan |}.

(** The second [init] of the package: the registrations, in order. *)
Definition init_elementals : M unit :=
  modify (set_registry (λ _, [])) >>
  RegisterElemental f_Sqrt
    (λ value _, Some [fdiv fhalf value]) >>
  RegisterElemental f_Exp
    (λ value _, Some [value]) >>
  RegisterElemental f_Log
    (λ _ params, x ← params !! 0; Some [fdiv fone x]) >>
  RegisterElemental f_Pow
    (λ value params, x ← params !! 0; Some [fmul value (Log x)]) >>
  RegisterElemental f_Sin
    (λ _ params, x ← params !! 0; Some [Cos x]) >>
  RegisterElemental f_Cos
    (λ _ params, x ← params !! 0; Some [fneg (Sin x)]) >>
  RegisterElemental f_Tan
    (λ value _, Some [fadd fone (fmul value value)]).

End MathElementals.

(** The tape as [init] leaves it, with the registry [reg] and memory [h]. *)
Definition init_tape reg (h : list F) : state :=
  {| records := [{| typ := typDummy; op := 0; p := 0; v := 0 |}];
     places := []; values := []; elementals := []; cstack := [];
     adj := []; adv := []; registry := reg; heap := h |}.

(** ** Forward sequences

    A differentiated function is Go code that calls the recorder; one run of
    it is a sequence of recorder calls.  The operands of a call are pointers
    the run got earlier from the recorder ([Res k], the [k]-th pointer
    returned) or addresses of variables outside the tape ([Ext i]).  A call
    to a differentiated function is [Call] around a body that starts with
    [Enter], as the rewriter of [ad.go] writes it: [args] pairs each formal
    parameter with the actual argument. *)

Inductive operand :=
  | Res (k : nat)
  | Ext (i : nat).

Inductive prog :=
  | Done
  | IValue (x : F) (k : prog)
  | IArithmetic (o : Z) (px : list operand) (k : prog)
  | IAssignment (p px : operand) (k : prog)
  | IParallelAssignment (ppx : list (operand * operand)) (k : prog)
  | IElemental (f : efun) (px : list operand) (k : prog)
  | IReturn (px : operand) (k : prog)
  | ICall (args : list (operand * operand)) (varargs : list operand)
          (body : prog) (k : prog).

Definition resolve (env : list loc) (o : operand) : M loc :=
  match o with
  | Res k => check (env !! k)
  | Ext i => ret (LExt i)
  end.

Fixpoint resolve_all (env : list loc) (os : list operand) : M (list loc) :=
  match os with
  | [] => ret []
  | o :: os' =>
      let* l := resolve env o in
      let* ls := resolve_all env os' in
      ret (l :: ls)
  end.

Fixpoint run (P : prog) (env : list loc) : M unit :=
  match P with
  | Done => ret tt
  | IValue x k =>
      let* l := Value x in run k (env ++ [l])
  | IArithmetic o px k =>
      let* px' := resolve_all env px in
      let* l := Arithmetic o px' in run k (env ++ [l])
  | IAssignment p px k =>
      let* p' := resolve env p in
      let* px' := resolve env px in
      Assignment p' px' >> run k env
  | IParallelAssignment ppx k =>
      let* p' := resolve_all env (ppx.*1) in
      let* px' := resolve_all env (ppx.*2) in
      ParallelAssignment (p' ++ px') >> run k env
  | IElemental f px k =>
      let* px' := resolve_all env px in
      let* l := Elemental f px' in run k (env ++ [l])
  | IReturn px k =>
      let* px' := resolve env px in
      Return px' >> run k env
  | ICall args varargs body k =>
      let* actuals := resolve_all env (args.*2) in
      let* vs := resolve_all env varargs in
      let* l := Call (λ vararg,
                        let* formals := resolve_all env (args.*1) in
                        Enter formals >> run body (env ++ vararg))
                     (length args) (actuals ++ vs) in
      run k (env ++ [l])
  end.

(** [Setup(x); f(x); Gradient()] for the slice [x] of [n] cells at [b]. *)
Definition slice_places (b n : nat) : float_slice := LExt <$> seq b n.

Definition differentiate (b n : nat) (P : prog) : M (list F) :=
  Setup (slice_places b n) >> run P [] >> Gradient.

End Tape.

Notation "'let*' x := m 'in' k" := (bind m (λ x, k))
  (at level 10, x name, m at level 100, k at level 200, only parsing).
Notation "m >> k" := (bind m (λ _, k))
  (at level 100, k at level 200, right associativity, only parsing).

(** * Properties *)

(** ** Reasoning about tape computations *)

Section Hoare.
Context {F : Type} `{Float64 F}.

Implicit Types (s : @state F).

(** [wp E m Q s]: if [m] returns from [s], the result and the final state
    satisfy [Q]; if it panics, the panic and the state it leaves satisfy
    [E]. *)
Definition wp {A} (E : panic → state → Prop) (m : M A)
    (Q : A → state → Prop) s : Prop :=
  match m s with
  | Ok a s' => Q a s'
  | Panicked e s' => E e s'
  end.

Section rules.
Context (E : panic → @state F → Prop).

Lemma wp_ret {A} (a : A) Q s : Q a s → wp E (ret a) Q s.
Proof. done. Qed.

Lemma wp_throw {A} e (Q : A → state → Prop) s : E e s → wp E (throw e) Q s.
Proof. done. Qed.

Lemma wp_bind {A B} (m : M A) (k : A → M B) Q s :
  wp E m (λ a s', wp E (k a) Q s') s → wp E (bind m k) Q s.
Proof. unfold wp, bind. by destruct (m s). Qed.

Lemma wp_mono {A} (m : M A) (Q Q' : A → state → Prop) s :
  wp E m Q s → (∀ a s', Q a s' → Q' a s') → wp E m Q' s.
Proof. unfold wp. destruct (m s); auto. Qed.

Lemma wp_gets {A} (f : state → A) Q s : Q (f s) s → wp E (gets f) Q s.
Proof. done. Qed.

Lemma wp_modify f (Q : unit → state → Prop) s :
  Q tt (f s) → wp E (modify f) Q s.
Proof. done. Qed.

Lemma wp_demand {A} e (f : state → option A) Q s :
  (∀ a, f s = Some a → Q a s) → (f s = None → E e s) →
  wp E (demand e f) Q s.
Proof. unfold wp, demand. destruct (f s); auto. Qed.

Lemma wp_index {A} (f : state → option A) Q s :
  (∀ a, f s = Some a → Q a s) → (f s = None → E RuntimeError s) →
  wp E (index f) Q s.
Proof. apply wp_demand. Qed.

Lemma wp_check {A} (o : option A) Q s :
  (∀ a, o = Some a → Q a s) → (o = None → E RuntimeError s) →
  wp E (check o) Q s.
Proof. apply (wp_demand RuntimeError (λ _, o)). Qed.

Lemma wp_guard (P : state → Prop) `{!∀ s, Decision (P s)} Q s :
  (P s → Q tt s) → (¬ P s → E RuntimeError s) → wp E (guard P) Q s.
Proof. unfold wp, guard. destruct (decide (P s)); auto. Qed.

Lemma wp_for_each {A} (xs : list A) body (I : state → Prop) s :
  (∀ x s', x ∈ xs → I s' → wp E (body x) (λ _, I) s') →
  I s → wp E (for_each xs body) (λ _, I) s.
Proof.
  revert s. induction xs as [|x xs IH]; intros s Hbody Hs; simpl.
  - by apply wp_ret.
  - apply wp_bind. eapply wp_mono.
    + apply Hbody; [left|done].
    + intros ? s' Hs'. apply IH; [|done].
      intros y s'' Hy. apply Hbody. by right.
Qed.

Lemma wp_and {A} (m : M A) (Q1 Q2 : A → state → Prop) s :
  wp (λ _ _, True) m Q1 s → wp E m Q2 s →
  wp E m (λ a s', Q1 a s' ∧ Q2 a s') s.
Proof. unfold wp. destruct (m s); auto. Qed.

Lemma wp_wand {A} (E' : panic → state → Prop) (m : M A)
    (Q Q' : A → state → Prop) s :
  wp E m Q s → (∀ a s', Q a s' → Q' a s') → (∀ e s', E e s' → E' e s') →
  wp E' m Q' s.
Proof. unfold wp. destruct (m s); auto. Qed.

Lemma wp_Ok {A} (m : M A) Q s a s' : wp E m Q s → m s = Ok a s' → Q a s'.
Proof. unfold wp. intros Hwp Heq. by rewrite Heq in Hwp. Qed.

Lemma wp_Panicked {A} (m : M A) Q s e s' :
  wp E m Q s → m s = Panicked e s' → E e s'.
Proof. unfold wp. intros Hwp Heq. by rewrite Heq in Hwp. Qed.

End rules.

End Hoare.

Ltac wp_step :=
  lazymatch goal with
  | |- wp _ (bind _ _) _ _ => apply wp_bind
  | |- wp _ (ret _) _ _ => apply wp_ret
  | |- wp _ (throw _) _ _ => apply wp_throw
  | |- wp _ (gets _) _ _ => apply wp_gets
  | |- wp _ (modify _) _ _ => apply wp_modify
  | |- wp _ (demand _ _) _ _ => apply wp_demand; [intros ? ?|intros ?]
  | |- wp _ (index _) _ _ => apply wp_index; [intros ? ?|intros ?]
  | |- wp _ (check _) _ _ => apply wp_check; [intros ? ?|intros ?]
  | |- wp _ (guard _) _ _ => apply wp_guard; [intros ?|intros ?]
  | |- wp _ (if decide _ then _ else _) _ _ => case_decide
  end.

(** ** What the forward pass does to the tape

    [grows s0 s]: from [s0] to [s] the logs were only appended to, no record
    added since [s0] is a live call marker, and the counter stack, the
    adjoint index, the adjoint buffer and the registry are as they were. *)

Section Grows.
Context {F : Type} `{Float64 F}.

Implicit Types (s : @state F).

Record grows s0 s : Prop := {
  grows_records : records s0 `prefix_of` records s;
  grows_no_call : ∀ i r, length (records s0) ≤ i →
                    records s !! i = Some r → typ r ≠ typCall;
  grows_places : length (places s0) ≤ length (places s);
  grows_values : length (values s0) ≤ length (values s);
  grows_elementals : length (elementals s0) ≤ length (elementals s);
  grows_cstack : cstack s = cstack s0;
  grows_adj : adj s = adj s0;
  grows_adv : adv s = adv s0;
  grows_registry : registry s = registry s0
}.

Lemma grows_refl s : grows s s.
Proof.
  split; try done. intros i r Hi Hr.
  apply lookup_lt_Some in Hr. lia.
Qed.

Lemma grows_trans s0 s1 s2 : grows s0 s1 → grows s1 s2 → grows s0 s2.
Proof.
  intros [Hr1 Hc1 Hp1 Hv1 He1 ? ? ? ?] [Hr2 Hc2 Hp2 Hv2 He2 ? ? ? ?].
  split; try (etrans; eassumption); try congruence.
  intros i r Hi Hr.
  destruct (decide (length (records s1) ≤ i)); [eauto|].
  apply (Hc1 i r Hi).
  rewrite <- Hr. apply prefix_lookup_lt; [lia|done].
Qed.

Lemma grows_places_app s ps : grows s (set_places (λ l, l ++ ps) s).
Proof.
  split; simpl; try done; [|rewrite length_app; lia].
  intros i r Hi Hr. apply lookup_lt_Some in Hr. lia.
Qed.

Lemma grows_places_insert s i l : grows s (set_places (λ ps, <[i:=l]> ps) s).
Proof.
  split; simpl; try done; [|by rewrite length_insert].
  intros j r Hj Hr. apply lookup_lt_Some in Hr. lia.
Qed.

Lemma grows_values_app s vs : grows s (set_values (λ l, l ++ vs) s).
Proof.
  split; simpl; try done; [|rewrite length_app; lia].
  intros i r Hi Hr. apply lookup_lt_Some in Hr. lia.
Qed.

Lemma grows_write_loc s l x : grows s (write_loc l x s).
Proof.
  destruct l; split; simpl; try done; try (by rewrite length_insert);
    intros j r Hj Hr; apply lookup_lt_Some in Hr; lia.
Qed.

Lemma grows_elementals_app s es : grows s (set_elementals (λ l, l ++ es) s).
Proof.
  split; simpl; try done; [|rewrite length_app; lia].
  intros i r Hi Hr. apply lookup_lt_Some in Hr. lia.
Qed.

Lemma grows_records_app s r :
  typ r ≠ typCall → grows s (set_records (λ l, l ++ [r]) s).
Proof.
  intros Hr. split; simpl; try done; [by apply prefix_app_r|].
  intros i r' Hi Hr'.
  apply lookup_app_Some in Hr' as [Hr'|[_ Hr']].
  - apply lookup_lt_Some in Hr'. lia.
  - apply list_lookup_singleton_Some in Hr' as [_ <-]. done.
Qed.

End Grows.

Ltac grows_tac :=
  cbv beta in *;
  repeat first
    [ assumption
    | apply grows_refl
    | match goal with
      | Hx : grows ?a ?b |- grows _ ?b => eapply grows_trans; [|exact Hx]
      end
    | eapply grows_trans;
      [| first [ apply grows_places_app | apply grows_places_insert
               | apply grows_values_app | apply grows_write_loc
               | apply grows_elementals_app
               | apply grows_records_app; discriminate ] ] ].

Section ForwardGrows.
Context {F : Type} `{Float64 F}.
Context (E : panic → @state F → Prop).
Hypothesis E_forward : ∀ e s, (∀ t, e ≠ BadType t) → E e s.

Implicit Types (s : @state F).

Local Ltac panic_ok := by (apply E_forward; intros ?).

Lemma wp_deref l Q s :
  (∀ x, read_loc l s = Some x → Q x s) → wp E (deref l) Q s.
Proof. intros HQ. unfold deref. wp_step; [auto|panic_ok]. Qed.

Lemma wp_store l x Q s :
  (is_Some (read_loc l s) → Q tt (write_loc l x s)) → wp E (store l x) Q s.
Proof.
  intros HQ. unfold store. wp_step. wp_step; [|panic_ok].
  wp_step. auto.
Qed.

Lemma wp_Value x Q s :
  Q (LVal (length (values s))) (set_values (λ vs, vs ++ [x]) s) →
  wp E (Value x) Q s.
Proof.
  intros HQ. unfold Value. wp_step. wp_step. wp_step. simpl.
  rewrite length_app. simpl. by replace (length (values s) + 1 - 1)
    with (length (values s)) by lia.
Qed.

Lemma wp_operand_value px i Q s :
  (∀ l x, px !! i = Some l → read_loc l s = Some x → Q x s) →
  wp E (operand_value px i) Q s.
Proof.
  intros HQ. unfold operand_value. wp_step. wp_step; [|panic_ok].
  apply wp_deref. eauto.
Qed.

Lemma wp_top_frame Q s :
  (∀ c, last (cstack s) = Some c → Q c s) → wp E top_frame Q s.
Proof. intros HQ. unfold top_frame. wp_step; [auto|panic_ok]. Qed.

(** Every step of a loop body keeps [grows s0]. *)
Lemma for_each_grows {A} (xs : list A) body s :
  (∀ x s', wp E (body x) (λ _ s'', grows s' s'') s') →
  wp E (for_each xs body) (λ _ s', grows s s') s.
Proof.
  intros Hbody. apply (wp_for_each E xs body (grows s)); [|apply grows_refl].
  intros x s' _ Hs'. eapply wp_mono; [apply Hbody|].
  intros ? s'' ?. by eapply grows_trans.
Qed.

Lemma wp_grows_trans {A} (m : M A) s0 s :
  grows s0 s → wp E m (λ _ s', grows s s') s → wp E m (λ _ s', grows s0 s') s.
Proof. intros Hs Hm. eapply wp_mono; [done|]. intros; by eapply grows_trans. Qed.

Lemma log_and_save_grows l s :
  wp E (log_and_save l) (λ _ s', grows s s') s.
Proof.
  unfold log_and_save. wp_step. wp_step. wp_step.
  apply wp_deref. intros x _. wp_step. grows_tac.
Qed.

Lemma Value_grows x s : wp E (Value x) (λ _ s', grows s s') s.
Proof. apply wp_Value. grows_tac. Qed.

Lemma register_eq x s :
  register x s = Ok tt (set_places (λ ps, ps ++ x) s).
Proof.
  unfold register. revert s. induction x as [|xi x IH]; intros s; simpl.
  - unfold ret. f_equal. destruct s; unfold set_places; simpl.
    by rewrite app_nil_r.
  - unfold bind, modify. rewrite IH. f_equal.
    unfold set_places; simpl. f_equal. by rewrite <- app_assoc.
Qed.

Definition frame_of (n : nat) s : counters :=
  {| c_n := n; c_r := length (records s); c_p := length (places s);
     c_v := length (values s); c_e := length (elementals s) |}.

Lemma Setup_eq x s :
  Setup x s =
  Ok tt (set_places (λ ps, ps ++ LVal (length (values s)) :: x)
           (set_values (λ vs, vs ++ [fzero])
              (set_cstack (λ cs, cs ++ [frame_of (length x) s]) s))).
Proof.
  unfold Setup, push, Value, bind, gets, modify. simpl.
  rewrite register_eq. f_equal. unfold set_places; simpl. f_equal.
  rewrite length_app; simpl.
  replace (length (values s) + 1 - 1) with (length (values s)) by lia.
  by rewrite <- app_assoc.
Qed.

Lemma Arithmetic_grows o px s :
  wp E (Arithmetic o px) (λ _ s', grows s s') s.
Proof.
  unfold Arithmetic. wp_step. apply wp_Value. do 8 wp_step. wp_step.
  repeat wp_step;
    repeat (apply wp_operand_value; intros ? ? _ _; try wp_step);
    try (apply wp_store; intros _; wp_step; grows_tac);
    panic_ok.
Qed.

Lemma Assignment_grows p px s :
  wp E (Assignment p px) (λ _ s', grows s s') s.
Proof.
  unfold Assignment. do 5 wp_step. apply wp_deref. intros x _.
  do 5 wp_step. apply wp_deref. intros y _.
  apply wp_store. intros _. grows_tac.
Qed.

Lemma ParallelAssignment_grows ppx s :
  wp E (ParallelAssignment ppx) (λ _ s', grows s s') s.
Proof.
  unfold ParallelAssignment. do 3 wp_step.
  eapply wp_mono; [apply for_each_grows; intros; apply log_and_save_grows|].
  intros ? s1 Hs1. wp_step.
  eapply wp_mono; [apply for_each_grows; intros; apply log_and_save_grows|].
  intros ? s2 Hs2. wp_step. wp_step. apply wp_grows_trans; [grows_tac|].
  apply for_each_grows. intros [i l] s3. wp_step. wp_step; [|panic_ok].
  apply wp_store. intros _. grows_tac.
Qed.

Lemma Elemental_grows f px s :
  wp E (Elemental f px) (λ _ s', grows s s') s.
Proof.
  unfold Elemental. wp_step. apply wp_Value. wp_step. wp_step; [|panic_ok].
  do 7 wp_step.
  eapply wp_mono.
  { apply for_each_grows. intros l s'. wp_step. apply wp_deref.
    intros x _. wp_step. grows_tac. }
  intros ? s1 Hs1. do 5 wp_step.
  destruct (fcode f); repeat wp_step;
    repeat (apply wp_operand_value; intros ? ? _ _; try wp_step).
  - apply wp_store. intros _. wp_step. grows_tac.
  - apply wp_store. intros _. wp_step. grows_tac.
  - assert (∀ Q s', (∀ xs, Q xs s') → wp E (deref_all px) Q s') as Hda.
    { clear -E_forward. induction px as [|py px IH]; intros Q s' HQ; simpl.
      - wp_step. done.
      - wp_step. apply wp_deref. intros x _. wp_step. apply IH.
        intros xs. wp_step. done. }
    apply Hda. intros xs. wp_step. wp_step; [|panic_ok].
    apply wp_store. intros _. wp_step. grows_tac.
Qed.

Lemma Return_grows px s :
  wp E (Return px) (λ _ s', grows s s') s.
Proof.
  unfold Return. wp_step. apply wp_top_frame. intros c _.
  wp_step. wp_step; [|panic_ok]. wp_step. wp_step.
  apply wp_deref. intros _ _. grows_tac.
Qed.

Lemma Enter_grows px s :
  wp E (Enter px) (λ _ s', grows s s') s.
Proof.
  unfold Enter. wp_step. wp_step; [|panic_ok]. wp_step. wp_step.
  apply ParallelAssignment_grows.
Qed.

Lemma fresh_sides_grows n sides s :
  wp E (fresh_sides n sides) (λ _ s', grows s s') s.
Proof.
  revert sides s. induction n as [|n IH]; intros sides s; simpl.
  - wp_step. grows_tac.
  - wp_step. apply wp_Value. apply wp_grows_trans; [grows_tac|]. apply IH.
Qed.

Lemma variadic_grows px s :
  wp E (variadic px) (λ _ s', grows s s') s.
Proof.
  unfold variadic. do 3 wp_step.
  eapply wp_mono; [apply fresh_sides_grows|]. intros sides s1 Hs1.
  do 3 wp_step.
  eapply wp_mono; [apply ParallelAssignment_grows|].
  intros ? s2 Hs2. wp_step. grows_tac.
Qed.

(** [Call] turns its marker into a dummy, so the records it leaves hold no
    live marker as long as the callee leaves none of its own. *)
Lemma Call_grows f narg px s :
  (∀ vararg s', wp E (f vararg) (λ _ s'', grows s' s'') s') →
  wp E (Call f narg px) (λ _ s', grows s s') s.
Proof.
  intros Hf. unfold Call. wp_step.
  eapply (wp_mono _ _ (λ _ s', grows s s')).
  { case_decide; [apply variadic_grows|]. wp_step. grows_tac. }
  intros vararg s1 Hs1. wp_step. wp_step; [|panic_ok]. wp_step.
  eapply wp_mono.
  { apply for_each_grows. intros l s'. wp_step. grows_tac. }
  intros ? s2 Hs2. do 4 wp_step. wp_step.
  set (s3 := set_records _ s2).
  eapply wp_mono; [apply Hf|]. intros ? s4 Hs4.
  unfold set_typ. do 3 wp_step; [|panic_ok]. do 2 wp_step.
  apply wp_top_frame. intros c _. wp_step; [|panic_ok].
  assert (grows s s2) as Hs by (by eapply grows_trans).
  destruct Hs as [Hr Hc Hp Hv He Hcs Hadj Hadv Hreg].
  destruct Hs4 as [Hr4 Hc4 Hp4 Hv4 He4 Hcs4 Hadj4 Hadv4 Hreg4].
  assert (length (records s) ≤ length (records s2)) as Hlen
    by (by apply prefix_length).
  subst s3. simpl in *. rewrite length_app in Hc4. simpl in Hc4.
  split; simpl; try congruence; try lia.
  - destruct Hr as [k1 Hk1]. destruct Hr4 as [k2 Hk2].
    rewrite Hk2, <- app_assoc. rewrite insert_app_r_alt by lia.
    rewrite Hk1, <- app_assoc. by apply prefix_app_r.
  - intros i r Hi Hr'.
    destruct (decide (i = length (records s2))) as [->|Hne].
    + rewrite list_lookup_insert_eq in Hr'.
      * by inversion Hr'.
      * by eapply lookup_lt_Some.
    + rewrite list_lookup_insert_ne in Hr' by done.
      destruct (decide (length (records s2) < i)).
      * apply (Hc4 i r); [lia|done].
      * apply (Hc i r); [lia|].
        rewrite <- Hr'. destruct Hr4 as [k2 Hk2]. rewrite Hk2.
        rewrite <- app_assoc. rewrite lookup_app_l by lia. done.
Qed.

Lemma resolve_all_pure env os Q s :
  (∀ ls, Q ls s) → wp E (resolve_all env os) Q s.
Proof.
  revert Q. induction os as [|o os IH]; intros Q HQ; simpl.
  - by wp_step.
  - wp_step. unfold resolve. destruct o.
    + wp_step; [|panic_ok]. wp_step. apply IH. intros ls. by wp_step.
    + wp_step. wp_step. apply IH. intros ls. by wp_step.
Qed.

Lemma resolve_pure env o Q s :
  (∀ l, Q l s) → wp E (resolve env o) Q s.
Proof.
  intros HQ. unfold resolve. destruct o.
  - wp_step; [auto|panic_ok].
  - by wp_step.
Qed.

(** A forward sequence only appends to the tape. *)
Lemma run_grows P env s :
  wp E (run P env) (λ _ s', grows s s') s.
Proof.
  revert env s.
  induction P as [|x k IH|o px k IH|p px k IH|ppx k IH|f px k IH|px k IH
                 |args varargs body IHbody k IH]; intros env s; simpl.
  - wp_step. grows_tac.
  - wp_step. eapply wp_mono; [apply Value_grows|].
    intros l s1 Hs1. apply wp_grows_trans; [done|apply IH].
  - wp_step. apply resolve_all_pure. intros px'. wp_step.
    eapply wp_mono; [apply Arithmetic_grows|].
    intros l s1 Hs1. apply wp_grows_trans; [done|apply IH].
  - wp_step. apply resolve_pure. intros p'. wp_step.
    apply resolve_pure. intros px'. wp_step.
    eapply wp_mono; [apply Assignment_grows|].
    intros ? s1 Hs1. apply wp_grows_trans; [done|apply IH].
  - wp_step. apply resolve_all_pure. intros p'. wp_step.
    apply resolve_all_pure. intros px'. wp_step.
    eapply wp_mono; [apply ParallelAssignment_grows|].
    intros ? s1 Hs1. apply wp_grows_trans; [done|apply IH].
  - wp_step. apply resolve_all_pure. intros px'. wp_step.
    eapply wp_mono; [apply Elemental_grows|].
    intros l s1 Hs1. apply wp_grows_trans; [done|apply IH].
  - wp_step. apply resolve_pure. intros px'. wp_step.
    eapply wp_mono; [apply Return_grows|].
    intros ? s1 Hs1. apply wp_grows_trans; [done|apply IH].
  - wp_step. apply resolve_all_pure. intros actuals. wp_step.
    apply resolve_all_pure. intros vs. wp_step.
    eapply wp_mono.
    { apply Call_grows. intros vararg s'. wp_step.
      apply resolve_all_pure. intros formals. wp_step.
      eapply wp_mono; [apply Enter_grows|].
      intros ? s1 Hs1. apply wp_grows_trans; [done|apply IHbody]. }
    intros l s1 Hs1. apply wp_grows_trans; [done|apply IH].
Qed.

End ForwardGrows.

(** ** What the backward pass does to the tape

    [shape s0 s]: the logs and the counter stack are those of [s0]; cells
    and saved values may have changed, and the adjoint index and buffer may
    have grown. *)

Section BackwardShape.
Context {F : Type} `{Float64 F}.
Context (E : panic → @state F → Prop).
Hypothesis E_forward : ∀ e s, (∀ t, e ≠ BadType t) → E e s.

Implicit Types (s : @state F).

Local Ltac panic_ok := by (apply E_forward; intros ?).

Record shape s0 s : Prop := {
  shape_records : records s = records s0;
  shape_places : places s = places s0;
  shape_values : length (values s) = length (values s0);
  shape_elementals : elementals s = elementals s0;
  shape_cstack : cstack s = cstack s0;
  shape_registry : registry s = registry s0;
  shape_adj : length (adj s0) ≤ length (adj s);
  shape_adv : length (adv s0) ≤ length (adv s)
}.

Lemma shape_refl s : shape s s.
Proof. by split. Qed.

Lemma shape_trans s0 s1 s2 : shape s0 s1 → shape s1 s2 → shape s0 s2.
Proof. intros [] []. split; try congruence; etrans; eassumption. Qed.

Lemma shape_write_loc s l x : shape s (write_loc l x s).
Proof. destruct l; split; simpl; try done. by rewrite length_insert. Qed.

Lemma shape_values_insert s i x :
  shape s (set_values (λ vs, <[i:=x]> vs) s).
Proof. split; simpl; try done. by rewrite length_insert. Qed.

Lemma shape_adj_insert s i j : shape s (set_adj (λ a, <[i:=j]> a) s).
Proof. split; simpl; try done. by rewrite length_insert. Qed.

Lemma shape_adv_insert s i x : shape s (set_adv (λ a, <[i:=x]> a) s).
Proof. split; simpl; try done. by rewrite length_insert. Qed.

Lemma shape_adv_app s xs : shape s (set_adv (λ a, a ++ xs) s).
Proof. split; simpl; try done. rewrite length_app. lia. Qed.

Lemma wp_shape_trans {A} (m : M A) s0 s :
  shape s0 s → wp E m (λ _ s', shape s s') s → wp E m (λ _ s', shape s0 s') s.
Proof. intros Hs Hm. eapply wp_mono; [done|]. intros; by eapply shape_trans. Qed.

Lemma for_each_shape {A} (xs : list A) body s :
  (∀ x s', wp E (body x) (λ _ s'', shape s' s'') s') →
  wp E (for_each xs body) (λ _ s', shape s s') s.
Proof.
  intros Hbody. apply (wp_for_each E xs body (shape s)); [|apply shape_refl].
  intros x s' _ Hs'. eapply wp_mono; [apply Hbody|].
  intros ? s'' ?. by eapply shape_trans.
Qed.

Lemma wp_place i Q s :
  (∀ l, places s !! i = Some l → Q l s) → wp E (place i) Q s.
Proof. intros HQ. unfold place. wp_step; [auto|panic_ok]. Qed.

Lemma wp_place_value i Q s :
  (∀ l x, places s !! i = Some l → read_loc l s = Some x → Q x s) →
  wp E (place_value i) Q s.
Proof.
  intros HQ. unfold place_value. wp_step. apply wp_place. intros l Hl.
  apply wp_deref; [done|]. eauto.
Qed.

Lemma wp_value_at i Q s :
  (∀ x, values s !! i = Some x → Q x s) → wp E (value_at i) Q s.
Proof. intros HQ. unfold value_at. wp_step; [auto|panic_ok]. Qed.

Lemma wp_adjoint i Q s :
  (∀ j x, adj s !! i = Some j → adv s !! j = Some x → Q x s) →
  wp E (adjoint i) Q s.
Proof.
  intros HQ. unfold adjoint. wp_step. wp_step; [|panic_ok].
  wp_step; [eauto|panic_ok].
Qed.

Lemma wp_set_adjoint i x Q s :
  (∀ j, adj s !! i = Some j → j < length (adv s) →
        Q tt (set_adv (λ a, <[j:=x]> a) s)) →
  wp E (set_adjoint i x) Q s.
Proof.
  intros HQ. unfold set_adjoint. wp_step. wp_step; [|panic_ok].
  wp_step. wp_step; [|panic_ok]. wp_step. eauto.
Qed.

Lemma wp_add_adjoint i x Q s :
  (∀ j a, adj s !! i = Some j → adv s !! j = Some a →
          Q tt (set_adv (λ l, <[j:=fadd a x]> l) s)) →
  wp E (add_adjoint i x) Q s.
Proof.
  intros HQ. unfold add_adjoint. wp_step. apply wp_adjoint.
  intros j a Hj Ha. apply wp_set_adjoint. intros j' Hj' _.
  assert (j' = j) as -> by congruence. eauto.
Qed.

Lemma wp_sub_adjoint i x Q s :
  (∀ j a, adj s !! i = Some j → adv s !! j = Some a →
          Q tt (set_adv (λ l, <[j:=fsub a x]> l) s)) →
  wp E (sub_adjoint i x) Q s.
Proof.
  intros HQ. unfold sub_adjoint. wp_step. apply wp_adjoint.
  intros j a Hj Ha. apply wp_set_adjoint. intros j' Hj' _.
  assert (j' = j) as -> by congruence. eauto.
Qed.

End BackwardShape.

Ltac shape_tac :=
  cbv beta in *;
  repeat first
    [ assumption
    | apply shape_refl
    | match goal with
      | Hx : shape ?a ?b |- shape _ ?b => eapply shape_trans; [|exact Hx]
      end
    | eapply shape_trans;
      [| first [ apply shape_write_loc | apply shape_values_insert
               | apply shape_adj_insert | apply shape_adv_insert
               | apply shape_adv_app ] ] ].

Section BackwardShape2.
Context {F : Type} `{Float64 F}.
Context (E : panic → @state F → Prop).
Hypothesis E_forward : ∀ e s, (∀ t, e ≠ BadType t) → E e s.

Implicit Types (s : @state F).

Local Ltac panic_ok := by (apply E_forward; intros ?).

Lemma add_adjoint_shape i x s :
  wp E (add_adjoint i x) (λ _ s', shape s s') s.
Proof. apply wp_add_adjoint; [done|]. intros. shape_tac. Qed.

Lemma sub_adjoint_shape i x s :
  wp E (sub_adjoint i x) (λ _ s', shape s s') s.
Proof. apply wp_sub_adjoint; [done|]. intros. shape_tac. Qed.

Lemma set_adjoint_shape i x s :
  wp E (set_adjoint i x) (λ _ s', shape s s') s.
Proof. apply wp_set_adjoint; [done|]. intros. shape_tac. Qed.

(** A record that is not a live call marker is walked without a
    "bad type" panic, and the walk leaves the logs alone. *)
Lemma backward_record_shape r s :
  typ r ≠ typCall →
  wp E (backward_record r) (λ _ s', shape s s') s.
Proof.
  intros Htyp. unfold backward_record. destruct (typ r); [| | | |done].
  - wp_step. shape_tac.
  - wp_step.
    + wp_step. apply wp_place; [done|]. intros t _. wp_step.
      apply wp_value_at; [done|]. intros x _. wp_step.
      apply wp_store; [done|]. intros _. wp_step.
      apply wp_adjoint; [done|]. intros j a _ _. wp_step.
      apply wp_set_adjoint; [done|]. intros j' _ _.
      eapply wp_mono; [apply add_adjoint_shape|]. intros. shape_tac.
    + wp_step. wp_step; [|panic_ok]. wp_step.
      eapply wp_mono.
      { apply for_each_shape. intros i s'. wp_step.
        apply wp_place; [done|]. intros t _. wp_step.
        apply wp_value_at; [done|]. intros x _.
        apply wp_store; [done|]. intros _. shape_tac. }
      intros ? s1 Hs1. wp_step. wp_step; [|panic_ok]. wp_step.
      eapply wp_mono.
      { apply for_each_shape. intros i s'. wp_step.
        apply wp_adjoint; [done|]. intros ? ? _ _. wp_step. shape_tac. }
      intros ? s2 Hs2. wp_step.
      eapply wp_mono.
      { apply for_each_shape. intros i s'. apply set_adjoint_shape. }
      intros ? s3 Hs3.
      eapply wp_mono.
      { apply for_each_shape. intros i s'. wp_step.
        apply wp_value_at; [done|]. intros x _. apply add_adjoint_shape. }
      intros ? s4 Hs4. shape_tac.
  - wp_step. apply wp_adjoint; [done|]. intros j a _ _.
    repeat wp_step;
      repeat (apply wp_place_value; [done|]; intros ? ? _ _; try wp_step);
      try panic_ok;
      repeat (eapply wp_mono;
              [first [apply add_adjoint_shape|apply sub_adjoint_shape]|];
              intros ? ? ?; try wp_step);
      shape_tac.
  - wp_step. apply wp_adjoint; [done|]. intros j a _ _.
    wp_step. wp_step; [|panic_ok]. wp_step. wp_step; [|panic_ok].
    wp_step. apply wp_place_value; [done|]. intros l z _ _.
    wp_step. wp_step; [|panic_ok]. wp_step. wp_step. wp_step.
    wp_step; [|panic_ok].
    apply for_each_shape. intros i s'. wp_step. wp_step; [|panic_ok].
    apply add_adjoint_shape.
Qed.

Lemma set_adj_at_shape i j s :
  wp E (set_adj_at i j) (λ _ s', shape s s') s.
Proof.
  unfold set_adj_at. wp_step. wp_step; [|panic_ok]. wp_step. shape_tac.
Qed.

Lemma build_index_shape idx m s :
  wp E (build_index idx m)
    (λ _ s', shape s s' ∧
             (idx ≠ [] → m = ∅ → length (adv s) < length (adv s'))) s.
Proof.
  revert m s. induction idx as [|i idx IH]; intros m s; simpl.
  - wp_step. split; [shape_tac|done].
  - wp_step. apply wp_place; [done|]. intros pl _.
    destruct (m !! pl) as [j|] eqn:Hm.
    + wp_step. eapply wp_mono; [apply set_adj_at_shape|].
      intros ? s1 Hs1. eapply wp_mono; [apply IH|].
      intros ? s2 [Hs2 _]. split; [shape_tac|].
      intros _ ->. by rewrite lookup_empty in Hm.
    + wp_step. wp_step. wp_step.
      eapply wp_mono; [apply set_adj_at_shape|].
      intros ? s1 Hs1. wp_step. wp_step.
      eapply wp_mono; [apply IH|].
      intros ? s2 [Hs2 _]. split; [shape_tac|].
      intros _ _. destruct Hs1 as [_ _ _ _ _ _ _ Hadv1].
      destruct Hs2 as [_ _ _ _ _ _ _ Hadv2]. simpl in *.
      rewrite length_app in Hadv2. simpl in Hadv2. lia.
Qed.

Lemma index_adjoints_shape c s :
  wp E (index_adjoints c)
    (λ _ s', shape s s' ∧
             (c_p c < length (places s) → length (adv s) < length (adv s'))) s.
Proof.
  unfold index_adjoints. wp_step. wp_step. wp_step. wp_step. wp_step.
  wp_step; [|panic_ok].
  set (s1 := if decide _ then _ else s).
  assert (shape s s1) as Hs1.
  { subst s1. case_decide; [|apply shape_refl].
    split; simpl; try done. rewrite length_app. lia. }
  eapply wp_mono; [apply build_index_shape|].
  intros ? s2 [Hs2 Hlt]. split; [shape_tac|].
  intros Hp. assert (adv s1 = adv s) as Hadv by (subst s1; by case_decide).
  assert (places s1 = places s) as Hpl by (subst s1; by case_decide).
  rewrite <- Hadv. apply Hlt; [|done].
  rewrite Hpl. destruct (length (places s) - c_p c) eqn:Hn; [lia|done].
Qed.

Lemma visit_shape irs s :
  (∀ i r, i ∈ irs → records s !! i = Some r → typ r ≠ typCall) →
  wp E (visit irs) (λ _ s', shape s s') s.
Proof.
  intros Hrs. unfold visit.
  apply (wp_for_each E irs _ (shape s)); [|apply shape_refl].
  intros i s' Hi Hs'. wp_step. wp_step; [|panic_ok].
  eapply wp_mono.
  - apply backward_record_shape. apply (Hrs i); [done|].
    by rewrite <- (shape_records _ _ Hs').
  - intros. shape_tac.
Qed.

Lemma backward_shape c s :
  last (cstack s) = Some c → c_r c ≤ length (records s) →
  (∀ i r, c_r c ≤ i → records s !! i = Some r → typ r ≠ typCall) →
  wp E backward
    (λ _ s', shape s s' ∧
             (c_p c < length (places s) → length (adv s) < length (adv s'))) s.
Proof.
  intros Hc Hcr Hrs. unfold backward. wp_step.
  apply wp_top_frame; [done|]. intros c' Hc'.
  assert (c' = c) as -> by congruence. wp_step.
  eapply wp_mono; [apply index_adjoints_shape|].
  intros ? s1 [Hs1 Hlt]. wp_step.
  eapply wp_mono; [apply set_adjoint_shape|].
  intros ? s2 Hs2. unfold walk. wp_step. wp_step.
  assert (shape s s2) as Hs by shape_tac.
  rewrite (shape_records _ _ Hs).
  rewrite decide_True by done.
  eapply wp_mono.
  - apply visit_shape. intros i r Hi Hr.
    apply (Hrs i r).
    + apply elem_of_reverse, elem_of_seq in Hi. lia.
    + by rewrite <- (shape_records _ _ Hs).
  - intros ? s3 Hs3. split; [shape_tac|].
    intros Hp. specialize (Hlt Hp).
    destruct Hs2 as [_ _ _ _ _ _ _ Hadv2].
    destruct Hs3 as [_ _ _ _ _ _ _ Hadv3]. lia.
Qed.

End BackwardShape2.

Section GradientShape.
Context {F : Type} `{Float64 F}.
Context (E : panic → @state F → Prop).
Hypothesis E_forward : ∀ e s, (∀ t, e ≠ BadType t) → E e s.

Implicit Types (s : @state F).

Local Ltac panic_ok := by (apply E_forward; intros ?).

Lemma collect_pure c idx Q s :
  (∀ g, Q g s) → wp E (collect c idx) Q s.
Proof.
  revert Q. induction idx as [|i idx IH]; intros Q HQ; simpl.
  - by wp_step.
  - wp_step. apply wp_adjoint; [done|]. intros j x _ _. wp_step.
    apply IH. intros g. by wp_step.
Qed.

Lemma partials_pure Q s : (∀ g, Q g s) → wp E partials Q s.
Proof.
  intros HQ. unfold partials. wp_step. apply wp_top_frame; [done|].
  intros c _. by apply collect_pure.
Qed.

(** [Pop] cuts the four logs at the marks of the top frame and drops the
    frame; it does not touch the adjoint index and the adjoint buffer. *)
Lemma wp_Pop c Q s :
  last (cstack s) = Some c →
  (c_r c ≤ length (records s) → c_p c ≤ length (places s) →
   c_v c ≤ length (values s) → c_e c ≤ length (elementals s) →
   Q tt (set_cstack (λ cs, take (length cs - 1) cs)
           (set_elementals (take (c_e c))
              (set_values (take (c_v c))
                 (set_places (take (c_p c))
                    (set_records (take (c_r c)) s)))))) →
  wp E Pop Q s.
Proof.
  intros Hc HQ. unfold Pop. wp_step. apply wp_top_frame; [done|].
  intros c' Hc'. assert (c' = c) as -> by congruence.
  wp_step. wp_step; [|panic_ok]. wp_step. wp_step.
  wp_step. wp_step; [|panic_ok]. wp_step. wp_step.
  wp_step. wp_step; [|panic_ok]. wp_step. wp_step.
  wp_step. wp_step; [|panic_ok]. wp_step. wp_step.
  wp_step. simpl in *. auto.
Qed.

(** The state in which a frame opened by [Setup] on [s] is walked and
    popped: what [Gradient] and [Pop] return to. *)
Definition frame_open (n : nat) s s2 : Prop :=
  last (cstack s2) = Some (frame_of n s) ∧
  cstack s2 = cstack s ++ [frame_of n s] ∧
  length (records s) ≤ length (records s2) ∧
  length (places s) < length (places s2) ∧
  length (values s) ≤ length (values s2) ∧
  length (elementals s) ≤ length (elementals s2) ∧
  adj s2 = adj s ∧ adv s2 = adv s ∧
  (∀ i r, length (records s) ≤ i → records s2 !! i = Some r →
          typ r ≠ typCall).

Lemma Setup_run_open {A} b n P (k : M A) Q s :
  (∀ s2, frame_open n s s2 → wp E k Q s2) →
  wp E (Setup (slice_places b n) >> run P [] >> k) Q s.
Proof.
  intros Hk. wp_step. unfold wp at 1. rewrite Setup_eq.
  set (s1 := set_places _ _). wp_step.
  eapply wp_mono; [by apply run_grows|].
  intros ? s2 [Hr Hc Hp Hv He Hcs Hadj Hadv Hreg]. apply Hk.
  assert (length (slice_places b n) = n) as Hn
    by (unfold slice_places; by rewrite length_fmap, length_seq).
  subst s1. simpl in *. rewrite Hn in *.
  rewrite !length_app in *. simpl in *.
  apply prefix_length in Hr as Hlen.
  repeat split; try done; try lia.
  rewrite Hcs. by rewrite last_snoc.
Qed.

Lemma Gradient_open n s s2 :
  frame_open n s s2 →
  wp E Gradient
    (λ _ s', length (records s') = length (records s) ∧
             length (places s') = length (places s) ∧
             length (values s') = length (values s) ∧
             length (elementals s') = length (elementals s) ∧
             cstack s' = cstack s ∧
             length (adj s) ≤ length (adj s') ∧
             length (adv s) < length (adv s')) s2.
Proof.
  intros (Hc & Hcs & Hr & Hp & Hv & He & Hadj & Hadv & Hno).
  unfold Gradient. wp_step.
  eapply wp_mono; [by apply (backward_shape E E_forward (frame_of n s))|].
  intros ? s3 [[Hr3 Hp3 Hv3 He3 Hcs3 Hreg3 Hadj3 Hadv3] Hlt].
  wp_step. apply partials_pure. intros g. wp_step.
  apply (wp_Pop (frame_of n s)); [congruence|].
  simpl. intros ? ? ? ?. wp_step. simpl.
  rewrite !length_take. rewrite Hcs3, Hcs.
  rewrite length_app. simpl.
  replace (length (cstack s) + 1 - 1) with (length (cstack s)) by lia.
  rewrite take_app_length.
  repeat split; try lia.
  - congruence.
  - rewrite <- Hadv. apply Hlt. simpl. lia.
Qed.

Lemma Pop_open n s s2 :
  frame_open n s s2 →
  wp E Pop
    (λ _ s', length (records s') = length (records s) ∧
             length (places s') = length (places s) ∧
             length (values s') = length (values s) ∧
             length (elementals s') = length (elementals s) ∧
             cstack s' = cstack s ∧
             adj s' = adj s ∧ adv s' = adv s) s2.
Proof.
  intros (Hc & Hcs & Hr & Hp & Hv & He & Hadj & Hadv & Hno).
  apply (wp_Pop (frame_of n s)); [done|].
  simpl. intros ? ? ? ?.
  rewrite !length_take. rewrite Hcs.
  rewrite length_app. simpl.
  replace (length (cstack s) + 1 - 1) with (length (cstack s)) by lia.
  rewrite take_app_length.
  repeat split; try lia; done.
Qed.

End GradientShape.

(** * The claims *)

Definition any_panic {F} : panic → @state F → Prop := λ _ _, True.
Definition no_bad_type {F} : panic → @state F → Prop :=
  λ e _, ∀ t, e ≠ BadType t.

(** ** Frames *)

(** The program without [Gradient]: [Setup(x); f(x); Pop()]. *)
Definition evaluate_and_pop {F} `{Float64 F} (b n : nat) (P : prog)
  : M (F:=F) unit :=
  Setup (slice_places b n) >> run P [] >> Pop.

(** C3, as the code has it.  After [Setup(x)], a forward evaluation and
    [Gradient()], the record log, the place log, the value store and the
    elemental log have the lengths they had before [Setup], and the counter
    stack is the one before [Setup]; the adjoint index is not shorter and the
    adjoint buffer is strictly longer than before.  With [Pop()] instead of
    [Gradient()] the four logs and the counter stack are restored in the same
    way and the adjoint index and buffer are left as they were: [Pop]
    truncates neither. *)
Theorem pop_restores_lengths {F} `{Float64 F} (b n : nat) (P : prog)
    (s : state (F:=F)) :
  (∀ g s', differentiate b n P s = Ok g s' →
     length (records s') = length (records s) ∧
     length (places s') = length (places s) ∧
     length (values s') = length (values s) ∧
     length (elementals s') = length (elementals s) ∧
     cstack s' = cstack s ∧
     length (adj s) ≤ length (adj s') ∧
     length (adv s) < length (adv s')) ∧
  (∀ s', evaluate_and_pop b n P s = Ok tt s' →
     length (records s') = length (records s) ∧
     length (places s') = length (places s) ∧
     length (values s') = length (values s) ∧
     length (elementals s') = length (elementals s) ∧
     cstack s' = cstack s ∧
     adj s' = adj s ∧ adv s' = adv s).
Proof.
  split.
  - intros g s' Hrun.
    assert (wp any_panic (differentiate b n P)
      (λ _ s', length (records s') = length (records s) ∧
               length (places s') = length (places s) ∧
               length (values s') = length (values s) ∧
               length (elementals s') = length (elementals s) ∧
               cstack s' = cstack s ∧
               length (adj s) ≤ length (adj s') ∧
               length (adv s) < length (adv s')) s) as Hwp.
    { apply Setup_run_open; [done|]. intros s2 Hs2.
      by apply (Gradient_open any_panic) with (n := n). }
    exact (wp_Ok _ _ _ _ _ _ Hwp Hrun).
  - intros s' Hrun.
    assert (wp any_panic (evaluate_and_pop b n P)
      (λ _ s', length (records s') = length (records s) ∧
               length (places s') = length (places s) ∧
               length (values s') = length (values s) ∧
               length (elementals s') = length (elementals s) ∧
               cstack s' = cstack s ∧
               adj s' = adj s ∧ adv s' = adv s) s) as Hwp.
    { apply Setup_run_open; [done|]. intros s2 Hs2.
      by apply (Pop_open any_panic) with (n := n). }
    exact (wp_Ok _ _ _ _ _ _ Hwp Hrun).
Qed.

(** C3 as stated fails: on a fresh tape, [Setup(x); Gradient()] for a slice
    of one cell leaves an adjoint index and an adjoint buffer of length 2,
    where both were empty before [Setup]. *)
Lemma pop_keeps_adjoint_buffers :
  ∃ g s', differentiate (F:=float) 0 1 Done (init_tape [] [3%float]) = Ok g s' ∧
          length (adj (init_tape (F:=float) [] [3%float])) = 0 ∧
          length (adv (init_tape (F:=float) [] [3%float])) = 0 ∧
          length (adj s') = 2 ∧ length (adv s') = 2.
Proof. eexists _, _. split; [vm_compute; reflexivity|]. done. Qed.

(** ** Call markers *)

Lemma Call_marker_dummy {F} `{Float64 F} (f : float_slice → M unit) narg px
    (s s' : state (F:=F)) l :
  Call f narg px s = Ok l s' →
  ∃ vararg sf sf' r,
    last (records sf) = Some {| typ := typCall; op := 0; p := 0; v := 0 |} ∧
    f vararg sf = Ok tt sf' ∧
    records s' !! (length (records sf) - 1) = Some r ∧ typ r = typDummy.
Proof.
  unfold Call. unfold bind at 1.
  destruct (if decide (narg < length px) then _ else _) as [vararg s1|];
    [|done].
  unfold bind at 1. unfold guard at 1. case_decide; [|done].
  unfold bind at 1.
  destruct (for_each _ _ s1) as [[] s2|]; [|done].
  unfold bind at 1, gets at 1. unfold bind at 1, modify at 1.
  set (sf := set_records _ s2).
  unfold bind at 1. destruct (f vararg sf) as [[] sf'|] eqn:Hf; [|done].
  unfold bind at 1, set_typ at 1. unfold bind at 1, index at 1, demand at 1.
  destruct (records sf' !! length (records s2)) as [r|] eqn:Hr; [|done].
  unfold modify at 1.
  unfold bind at 1, top_frame, index at 1, demand at 1. simpl.
  destruct (last (cstack sf')) as [c|]; [|done].
  unfold index, demand. simpl.
  destruct (places sf' !! c_p c) eqn:Hl; [|done].
  intros [= <- <-].
  exists vararg, sf, sf'. eexists. split; [|split; [done|]].
  - subst sf. simpl. by rewrite last_snoc.
  - subst sf. simpl. rewrite length_app. simpl.
    replace (length (records s2) + 1 - 1) with (length (records s2)) by lia.
    split; [apply list_lookup_insert_eq; by eapply lookup_lt_Some|done].
Qed.

(** C9.  [Call] appends its marker as the last record before it runs the
    callee, and when [Call] returns the record at that index is a dummy.
    Consequently [Setup(x); f(x); Gradient()] never panics with "bad type"
    for a forward sequence [f], while the walk does panic with "bad type"
    on a record that is still a call marker. *)
Theorem call_marker_never_walked {F} `{Float64 F} :
  (∀ (f : float_slice → M unit) narg px (s s' : state (F:=F)) l,
     Call f narg px s = Ok l s' →
     ∃ vararg sf sf' r,
       last (records sf) =
         Some {| typ := typCall; op := 0; p := 0; v := 0 |} ∧
       f vararg sf = Ok tt sf' ∧
       records s' !! (length (records sf) - 1) = Some r ∧
       typ r = typDummy) ∧
  (∀ b n P (s s' : state (F:=F)) e,
     differentiate b n P s = Panicked e s' → ∀ t, e ≠ BadType t) ∧
  (∀ r (s : state (F:=F)),
     typ r = typCall → backward_record r s = Panicked (BadType typCall) s).
Proof.
  split; [|split].
  - intros. by eapply Call_marker_dummy.
  - intros b n P s s' e Hrun.
    assert (wp no_bad_type (differentiate b n P) (λ _ _, True) s) as Hwp.
    { apply Setup_run_open; [by intros ? ? ?|]. intros s2 Hs2.
      eapply wp_mono.
      - apply (Gradient_open no_bad_type) with (n := n); [by intros ? ? ?|done].
      - done. }
    exact (wp_Panicked _ _ _ _ _ _ Hwp Hrun).
  - intros r s Hr. unfold backward_record. by rewrite Hr.
Qed.

(** ** Unregistered elementals *)

(** C8.  [Elemental(f, px...)] for an [f] without a registered gradient
    panics with "not an elemental".  The state it leaves has the result cell
    that [Value] allocated before the lookup and nothing else: no record, no
    place and no elemental entry was appended. *)
Theorem Elemental_unregistered {F} `{Float64 F} (f : efun) px
    (s : state (F:=F)) :
  ElementalGradient f s = None →
  ∃ s', Elemental f px s = Panicked NotAnElemental s' ∧
        values s' = values s ++ [fzero] ∧
        records s' = records s ∧ places s' = places s ∧
        elementals s' = elementals s ∧ cstack s' = cstack s.
Proof.
  intros Hf. exists (set_values (λ vs, vs ++ [fzero]) s). split; [|done].
  unfold Elemental, bind, Value, modify, gets, demand. simpl.
  unfold ElementalGradient in *. simpl. by rewrite Hf.
Qed.

Lemma Elemental_unregistered_witness :
  ElementalGradient (F:=float)
    {| fkey := user_fun 0; fcode := Fun1 (λ x, x) |} (init_tape [] []) = None ∧
  ∃ s', Elemental (F:=float) {| fkey := user_fun 0; fcode := Fun1 (λ x, x) |}
          [] (init_tape [] []) = Panicked NotAnElemental s' ∧
        values s' = values (init_tape [] []) ++ [fzero] ∧
        records s' = records (init_tape (F:=float) [] []) ∧
        places s' = places (init_tape (F:=float) [] []) ∧
        elementals s' = elementals (init_tape (F:=float) [] []) ∧
        cstack s' = cstack (init_tape (F:=float) [] []).
Proof.
  split; [reflexivity|].
  apply (Elemental_unregistered (F:=float)). reflexivity.
Defined.

(** ** The built-in gradients *)

(** C4.  After the registrations of [init], the gradient registered for each
    function of the math package computes the formula of the table from the
    value [v] and the arguments [a]: sqrt [0.5 / v], exp [v], log
    [1 / a[0]], pow [v * log(a[0])] with no derivative for the base, sin
    [cos(a[0])], cos [-sin(a[0])] and tan [1 + v*v]; the formulas in [a[0]]
    are for an argument vector that has a first element. *)
Theorem builtin_gradients {F} `{Float64 F}
    (Sqrt Exp Log Sin Cos Tan : F → F) (Pow : F → F → F) (s : state (F:=F)) :
  ∃ s', init_elementals Sqrt Exp Log Sin Cos Tan Pow s = Ok tt s' ∧
    (∃ g, ElementalGradient (f_Sqrt Sqrt) s' = Some g ∧
          ∀ v a, g v a = Some [fdiv fhalf v]) ∧
    (∃ g, ElementalGradient (f_Exp Exp) s' = Some g ∧
          ∀ v a, g v a = Some [v]) ∧
    (∃ g, ElementalGradient (f_Log Log) s' = Some g ∧
          ∀ v a0 a, g v (a0 :: a) = Some [fdiv fone a0]) ∧
    (∃ g, ElementalGradient (f_Pow Pow) s' = Some g ∧
          ∀ v a0 a, g v (a0 :: a) = Some [fmul v (Log a0)]) ∧
    (∃ g, ElementalGradient (f_Sin Sin) s' = Some g ∧
          ∀ v a0 a, g v (a0 :: a) = Some [Cos a0]) ∧
    (∃ g, ElementalGradient (f_Cos Cos) s' = Some g ∧
          ∀ v a0 a, g v (a0 :: a) = Some [fneg (Sin a0)]) ∧
    (∃ g, ElementalGradient (f_Tan Tan) s' = Some g ∧
          ∀ v a, g v a = Some [fadd fone (fmul v v)]).
Proof.
  eexists. split; [reflexivity|].
  repeat split; eexists; (split; [reflexivity|done]).
Qed.

(** ** The seed of the backward pass *)

(** [x[0] * x[0]], returned. *)
Definition square {F} : prog (F:=F) :=
  IArithmetic OpMul [Ext 0; Ext 0] (IReturn (Res 0) Done).

(** C2, where the code departs from it.  [backward] seeds [adv[adj[0]]],
    the adjoint of place 0 of the log, not of place [c.p] of the top frame.
    On a fresh tape with [x = [3]]: the gradient of [x[0] * x[0]] in a
    top-level frame is [6]; after that, in a frame opened inside another
    frame, [frame.p] is 2, the adjoint of the result slot is 0 once the index
    is built and the seed is set, and [Gradient] returns [0]. *)
Theorem seed_ignores_frame :
  ∃ s1 s2 s3 s4 c g,
    differentiate (F:=float) 0 1 square (init_tape [] [3%float])
      = Ok [6%float] s1 ∧
    Setup (slice_places 0 1) s1 = Ok tt s2 ∧
    (Setup (slice_places 0 1) >> run square []) s2 = Ok tt s3 ∧
    last (cstack s3) = Some c ∧ c_p c = 2 ∧
    (index_adjoints c >> seed_result >> adjoint (c_p c)) s3
      = Ok 0%float s4 ∧
    differentiate 0 1 square s2 = Ok [0%float] g.
Proof.
  eexists _, _, _, _, _, _.
  split; [vm_compute; reflexivity|].
  split; [vm_compute; reflexivity|].
  split; [vm_compute; reflexivity|].
  split; [vm_compute; reflexivity|].
  split; [reflexivity|].
  split; vm_compute; reflexivity.
Qed.

(** * The tape as a differentiation procedure

    The tape keeps cells and saved values in one store and finds the places
    of a record through indices.  What it computes is easier to say on a
    machine that keeps the cells [Value] makes in a store of their own and
    writes into every record the locations and the saved values the record
    stands for; adjoints are then a map from locations to numbers, the
    [map[*float64]float64] of the comment in [backward].  The machine is
    defined here; the tape is then shown to compute what it computes. *)

Section Abstract.
Context {F : Type} `{Float64 F}.

Inductive aloc :=
  | ACell (k : nat)   (* the [k]-th cell of the frame *)
  | AExt (i : nat).   (* a cell outside the tape *)

#[global] Instance aloc_eq_dec : EqDecision aloc.
Proof. solve_decision. Defined.

Inductive arec :=
  | ADummy
  | AAssign (ts ss : list aloc) (saved : list F)
  | AArith (o : Z) (res : aloc) (args : list aloc)
  | AElem (g : ElementalGradientFunc (F:=F)) (res : aloc) (args : list aloc)
          (saved : list F).

Record astate := {
  cells : list F;       (* the cells of the frame *)
  aheap : list F;       (* memory outside the tape *)
  trace : list arec;    (* the records of the frame *)
  result : aloc         (* the result slot *)
}.

Definition aread (l : aloc) (σ : astate) : option F :=
  match l with
  | ACell k => cells σ !! k
  | AExt i => aheap σ !! i
  end.

Definition awrite (l : aloc) (x : F) (σ : astate) : astate :=
  match l with
  | ACell k => {| cells := <[k:=x]> (cells σ); aheap := aheap σ;
                  trace := trace σ; result := result σ |}
  | AExt i => {| cells := cells σ; aheap := <[i:=x]> (aheap σ);
                 trace := trace σ; result := result σ |}
  end.

Definition awrite_all (ws : list (aloc * F)) (σ : astate) : astate :=
  foldl (λ σ w, awrite w.1 w.2 σ) σ ws.

Definition aalloc (x : F) (σ : astate) : astate :=
  {| cells := cells σ ++ [x]; aheap := aheap σ;
     trace := trace σ; result := result σ |}.

(** [n] new cells, all zero. *)
Definition aalloc_n (n : nat) (σ : astate) : astate :=
  {| cells := cells σ ++ replicate n fzero; aheap := aheap σ;
     trace := trace σ; result := result σ |}.

Definition emit (r : arec) (σ : astate) : astate :=
  {| cells := cells σ; aheap := aheap σ;
     trace := trace σ ++ [r]; result := result σ |}.

Definition set_result (l : aloc) (σ : astate) : astate :=
  {| cells := cells σ; aheap := aheap σ; trace := trace σ; result := l |}.

(** The number of operands an opcode reads. *)
Definition arity (o : Z) : nat := if decide (o = OpNeg) then 1 else 2.

(** The value of an arithmetic operation on operands read through [rd]. *)
Definition arith_value {L} (rd : L → option F) (o : Z) (px : list L)
  : option F :=
  if decide (o = OpNeg) then
    x ← px !! 0 ≫= rd; Some (fneg x)
  else if decide (o = OpAdd) then
    x ← px !! 0 ≫= rd; y ← px !! 1 ≫= rd; Some (fadd x y)
  else if decide (o = OpSub) then
    x ← px !! 0 ≫= rd; y ← px !! 1 ≫= rd; Some (fsub x y)
  else if decide (o = OpMul) then
    x ← px !! 0 ≫= rd; y ← px !! 1 ≫= rd; Some (fmul x y)
  else if decide (o = OpDiv) then
    x ← px !! 0 ≫= rd; y ← px !! 1 ≫= rd; Some (fdiv x y)
  else None.

Lemma arith_value_arity {L} (rd : L → option F) o px y :
  arith_value rd o px = Some y → arity o ≤ length px.
Proof.
  unfold arith_value, arity. intros Hy.
  repeat case_decide; try done;
    destruct (px !! 0) eqn:Hx0; simplify_eq/=;
    apply lookup_lt_Some in Hx0; try lia;
    destruct (px !! 1) eqn:Hx1; simplify_eq/=;
    try (apply lookup_lt_Some in Hx1; lia);
    by destruct (rd _).
Qed.

(** The value of an elemental on the values of its operands. *)
Definition apply_fimpl (f : fimpl) (xs : list F) : option F :=
  match f with
  | Fun1 f1 => x ← xs !! 0; Some (f1 x)
  | Fun2 f2 => x ← xs !! 0; y ← xs !! 1; Some (f2 x y)
  | FunN fn => fn xs
  end.

Definition aresolve (env : list aloc) (o : operand) : option aloc :=
  match o with
  | Res k => env !! k
  | Ext i => Some (AExt i)
  end.

Definition a_passign (ts ss : list aloc) (σ : astate) : option astate :=
  olds ← mapM (λ l, aread l σ) ts;
  news ← mapM (λ l, aread l σ) ss;
  Some (emit (AAssign ts ss olds) (awrite_all (zip ts news) σ)).

(** The cells [variadic] makes for [n] arguments. *)
Definition fresh_cells (n : nat) (σ : astate) : list aloc :=
  ACell <$> seq (length (cells σ)) n.

(** The variadic arguments of a call: none, or fresh cells that take the
    values of [vs]. *)
Definition a_vararg (vs : list aloc) (σ : astate) : list aloc :=
  match vs with
  | [] => []
  | _ => fresh_cells (length vs) σ
  end.

Definition a_variadic (vs : list aloc) (σ : astate) : option astate :=
  match vs with
  | [] => Some σ
  | _ => a_passign (fresh_cells (length vs) σ) vs (aalloc_n (length vs) σ)
  end.

Fixpoint arun (reg : list (fident * ElementalGradientFunc (F:=F)))
    (P : prog) (env : list aloc) (σ : astate) : option astate :=
  match P with
  | Done => Some σ
  | IValue x k =>
      arun reg k (env ++ [ACell (length (cells σ))]) (aalloc x σ)
  | IArithmetic o px k =>
      px' ← mapM (aresolve env) px;
      let res := ACell (length (cells σ)) in
      let σ1 := aalloc fzero σ in
      y ← arith_value (λ l, aread l σ1) o px';
      arun reg k (env ++ [res])
        (emit (AArith o res (take (arity o) px')) (awrite res y σ1))
  | IAssignment p px k =>
      t ← aresolve env p;
      s ← aresolve env px;
      old ← aread t σ;
      y ← aread s σ;
      arun reg k env (emit (AAssign [t] [s] [old]) (awrite t y σ))
  | IParallelAssignment ppx k =>
      ts ← mapM (aresolve env) (ppx.*1);
      ss ← mapM (aresolve env) (ppx.*2);
      σ' ← a_passign ts ss σ;
      arun reg k env σ'
  | IElemental f px k =>
      px' ← mapM (aresolve env) px;
      let res := ACell (length (cells σ)) in
      let σ1 := aalloc fzero σ in
      g ← lookup_gradient (fkey f) reg;
      xs ← mapM (λ l, aread l σ1) px';
      y ← apply_fimpl (fcode f) xs;
      arun reg k (env ++ [res]) (emit (AElem g res px' xs) (awrite res y σ1))
  | IReturn px k =>
      l ← aresolve env px;
      _ ← aread l σ;
      arun reg k env (set_result l σ)
  | ICall args varargs body k =>
      actuals ← mapM (aresolve env) (args.*2);
      vs ← mapM (aresolve env) varargs;
      σ1 ← a_variadic vs σ;
      formals ← mapM (aresolve env) (args.*1);
      σ2 ← a_passign formals actuals (emit ADummy σ1);
      σ3 ← arun reg body (env ++ a_vararg vs σ) σ2;
      arun reg k (env ++ [result σ3]) σ3
  end.

(** ** Adjoints as a map *)

Definition adjoints := aloc → F.

Definition upd (A : adjoints) (l : aloc) (x : F) : adjoints :=
  λ l', if decide (l' = l) then x else A l'.

Definition acc (A : adjoints) (l : aloc) (x : F) : adjoints :=
  upd A l (fadd (A l) x).

Definition dec (A : adjoints) (l : aloc) (x : F) : adjoints :=
  upd A l (fsub (A l) x).

(** [acc_all A [(l1, x1); ...]] adds [x1] to the adjoint of [l1], then ... *)
Definition acc_all (A : adjoints) (ws : list (aloc * F)) : adjoints :=
  foldl (λ A w, acc A w.1 w.2) A ws.

Definition clear_all (A : adjoints) (ls : list aloc) : adjoints :=
  foldl (λ A l, upd A l fzero) A ls.

(** Every location of [ls] holds a value. *)
Definition all_valid (ls : list aloc) (σ : astate) : bool :=
  forallb (λ l, bool_decide (is_Some (aread l σ))) ls.

(** One record of the walk: the adjoints and the memory after it. *)
Definition aback (r : arec) (A : adjoints) (σ : astate)
  : option (adjoints * astate) :=
  match r with
  | ADummy => Some (A, σ)
  | AAssign ts ss saved =>
      if all_valid ts σ then
        let σ' := awrite_all (zip ts saved) σ in
        let a := A <$> ts in
        Some (acc_all (clear_all A ts) (zip ss a), σ')
      else None
  | AArith o res args =>
      let a := A res in
      if decide (o = OpNeg) then
        x ← args !! 0;
        Some (dec A x a, σ)
      else if decide (o = OpAdd) then
        x ← args !! 0; y ← args !! 1;
        Some (acc (acc A x a) y a, σ)
      else if decide (o = OpSub) then
        x ← args !! 0; y ← args !! 1;
        Some (dec (acc A x a) y a, σ)
      else if decide (o = OpMul) then
        x ← args !! 0; y ← args !! 1;
        yv ← aread y σ; xv ← aread x σ;
        Some (acc (acc A x (fmul a yv)) y (fmul a xv), σ)
      else if decide (o = OpDiv) then
        x ← args !! 0; y ← args !! 1;
        yv ← aread y σ; zv ← aread res σ;
        let ax := fdiv a yv in
        Some (acc (acc A x ax) y (fmul (fneg ax) zv), σ)
      else None
  | AElem g res args saved =>
      let a := A res in
      z ← aread res σ;
      d ← g z saved;
      if decide (length args ≤ length d) then
        Some (acc_all A (zip args ((λ di, fmul a di) <$> d)), σ)
      else None
  end.

(** The walk: the records of [t], last record first. *)
Fixpoint awalk (t : list arec) (A : adjoints) (σ : astate)
  : option (adjoints * astate) :=
  match t with
  | [] => Some (A, σ)
  | r :: t' =>
      '(A', σ') ← awalk t' A σ;
      aback r A' σ'
  end.

(** The gradient and the memory outside the tape after the backward pass.
    [seeded] tells whether the seed reaches the result slot. *)
Definition agradient (seeded : bool) (b n : nat) (σ : astate)
  : option (list F * list F) :=
  let A0 : adjoints := λ _, fzero in
  let A1 := if seeded then upd A0 (result σ) fone else A0 in
  '(A, σ') ← awalk (trace σ) A1 σ;
  Some (A <$> (AExt <$> seq b n), aheap σ').

(** The machine when the frame opens: one cell, for the result. *)
Definition astart (h : list F) : astate :=
  {| cells := [fzero]; aheap := h; trace := []; result := ACell 0 |}.

Definition adifferentiate (seeded : bool)
    (reg : list (fident * ElementalGradientFunc (F:=F)))
    (b n : nat) (P : prog) (h : list F) : option (list F * list F) :=
  σ ← arun reg P [] (astart h);
  agradient seeded b n σ.

End Abstract.

(** ** The recorder, step by step

    [wp (λ _ _, Fail)]: the computation returns in a state that satisfies the
    postcondition, or it panics and [Fail] holds.  The lemmas say what each
    primitive does when it returns and why it panics when it does. *)

Section Steps.
Context {F : Type} `{Float64 F}.
Context (Fail : Prop).

Implicit Types (s : @state F).

Local Abbreviation wpf := (wp (λ _ _, Fail)).

Lemma wpf_deref l Q s :
  (∀ x, read_loc l s = Some x → Q x s) →
  (read_loc l s = None → Fail) →
  wpf (deref l) Q s.
Proof. intros HQ HF. unfold deref. wp_step; auto. Qed.

Lemma wpf_store l x Q s :
  (is_Some (read_loc l s) → Q tt (write_loc l x s)) →
  (read_loc l s = None → Fail) →
  wpf (store l x) Q s.
Proof.
  intros HQ HF. unfold store. wp_step. wp_step.
  - wp_step. auto.
  - apply HF. by apply eq_None_not_Some.
Qed.

Lemma wpf_operand_value px i Q s :
  (∀ x, px !! i ≫= (λ l, read_loc l s) = Some x → Q x s) →
  (px !! i ≫= (λ l, read_loc l s) = None → Fail) →
  wpf (operand_value px i) Q s.
Proof.
  intros HQ HF. unfold operand_value. wp_step. wp_step.
  - apply wpf_deref; intros; [apply HQ|apply HF];
      by match goal with Hx : _ !! _ = Some _ |- _ => rewrite Hx end.
  - apply HF. by match goal with Hx : _ !! _ = None |- _ => rewrite Hx end.
Qed.

Lemma wpf_top_frame Q s c :
  last (cstack s) = Some c → Q c s → wpf top_frame Q s.
Proof.
  intros Hc HQ. unfold top_frame. wp_step; [|congruence].
  assert (a = c) as -> by congruence. done.
Qed.

(** The values of [ls] in [s], if all of them hold one. *)
Definition read_all (ls : list loc) s : option (list F) :=
  mapM (λ l, read_loc l s) ls.

Lemma read_loc_values_app l s vs x :
  read_loc l s = Some x →
  read_loc l (set_values (λ v, v ++ vs) s) = Some x.
Proof. destruct l; simpl; [|done]. intros. by apply lookup_app_l_Some. Qed.

Lemma read_all_values_app ls s vs xs :
  read_all ls s = Some xs →
  read_all ls (set_values (λ v, v ++ vs) s) = Some xs.
Proof.
  unfold read_all. rewrite !mapM_Some. intros Hxs.
  eapply Forall2_impl; [done|]. intros l x. apply read_loc_values_app.
Qed.

(** [l] does not point beyond the end of the value store. *)
Definition loc_wf s (l : loc) : Prop :=
  match l with
  | LVal i => i < length (values s)
  | LExt _ => True
  end.

Lemma read_loc_app l s vs :
  loc_wf s l → read_loc l (set_values (λ v, v ++ vs) s) = read_loc l s.
Proof. destruct l; simpl; [|done]. intros. by apply lookup_app_l. Qed.

Lemma read_all_app ls s vs :
  Forall (loc_wf s) ls →
  read_all ls (set_values (λ v, v ++ vs) s) = read_all ls s.
Proof.
  intros Hwf. unfold read_all. apply Forall_mapM_ext.
  eapply Forall_impl; [done|]. intros l. apply read_loc_app.
Qed.

Lemma loc_wf_values_app s vs l :
  loc_wf s l → loc_wf (set_values (λ v, v ++ vs) s) l.
Proof. destruct l; simpl; [|done]. rewrite length_app. lia. Qed.

Lemma loc_wf_write s l' x l : loc_wf s l → loc_wf (write_loc l' x s) l.
Proof. destruct l, l'; simpl; try done. by rewrite length_insert. Qed.

Lemma read_loc_Some_wf s l x : read_loc l s = Some x → loc_wf s l.
Proof. destruct l; simpl; [|done]. apply lookup_lt_Some. Qed.

Definition write_all (ws : list (loc * F)) s : state :=
  foldl (λ s w, write_loc w.1 w.2 s) s ws.

Lemma state_app_nil s :
  set_values (λ v, v ++ []) (set_places (λ p, p ++ []) s) = s.
Proof. destruct s. unfold set_values, set_places. simpl. by rewrite !app_nil_r. Qed.

(** The registration loops of the assignments. *)
Lemma wpf_log_and_save_all ls Q s :
  Forall (loc_wf s) ls →
  (∀ xs, read_all ls s = Some xs →
         Q tt (set_values (λ v, v ++ xs) (set_places (λ p, p ++ ls) s))) →
  (read_all ls s = None → Fail) →
  wpf (for_each ls log_and_save) Q s.
Proof.
  revert Q s. induction ls as [|l ls IH]; intros Q s Hwf HQ HF; simpl.
  - wp_step. rewrite <- (state_app_nil s). by apply HQ.
  - apply Forall_cons in Hwf as [Hl Hls].
    wp_step. unfold log_and_save. wp_step. wp_step. wp_step.
    apply wpf_deref.
    + intros x Hx. simpl in Hx. wp_step.
      set (s1 := set_values _ _).
      assert (Forall (loc_wf s1) ls) as Hls1.
      { eapply Forall_impl; [done|]. intros l' Hl'. subst s1.
        by apply loc_wf_values_app. }
      assert (read_all ls s1 = read_all ls s) as Hrd.
      { subst s1. rewrite read_all_app; [done|]. done. }
      apply IH; [done| |].
      * intros xs Hxs. rewrite Hrd in Hxs.
        assert (read_all (l :: ls) s = Some (x :: xs)) as Hall.
        { unfold read_all in *. simpl.
          change (read_loc l s) with (read_loc l (set_places (λ ps, ps ++ [l]) s)).
          rewrite Hx. simpl. by rewrite Hxs. }
        specialize (HQ _ Hall). subst s1.
        unfold set_values, set_places in *. simpl in *.
        by rewrite <- !app_assoc.
      * intros Hnone. rewrite Hrd in Hnone. apply HF.
        unfold read_all in *. simpl.
        change (read_loc l s) with (read_loc l (set_places (λ ps, ps ++ [l]) s)).
        rewrite Hx. simpl. by rewrite Hnone.
    + intros Hx. simpl in Hx. apply HF. unfold read_all. simpl.
      change (read_loc l s) with (read_loc l (set_places (λ ps, ps ++ [l]) s)).
      by rewrite Hx.
Qed.

(** The loop of [Elemental] that saves the values of the operands. *)
Lemma wpf_save_all ls Q s :
  Forall (loc_wf s) ls →
  (∀ xs, read_all ls s = Some xs → Q tt (set_values (λ v, v ++ xs) s)) →
  (read_all ls s = None → Fail) →
  wpf (for_each ls (λ py,
         let* x := deref py in modify (set_values (λ vs, vs ++ [x])))) Q s.
Proof.
  revert Q s. induction ls as [|l ls IH]; intros Q s Hwf HQ HF; simpl.
  - wp_step. specialize (HQ [] eq_refl).
    replace (set_values (λ v, v ++ []) s) with s in HQ; [done|].
    destruct s. unfold set_values. simpl. by rewrite app_nil_r.
  - apply Forall_cons in Hwf as [Hl Hls].
    wp_step. wp_step. apply wpf_deref.
    + intros x Hx. wp_step.
      set (s1 := set_values _ _).
      assert (Forall (loc_wf s1) ls) as Hls1.
      { eapply Forall_impl; [done|]. intros l' Hl'. subst s1.
        by apply loc_wf_values_app. }
      assert (read_all ls s1 = read_all ls s) as Hrd.
      { subst s1. by rewrite read_all_app. }
      apply IH; [done| |].
      * intros xs Hxs. rewrite Hrd in Hxs.
        assert (read_all (l :: ls) s = Some (x :: xs)) as Hall.
        { unfold read_all in *. simpl. rewrite Hx. simpl. by rewrite Hxs. }
        specialize (HQ _ Hall). subst s1.
        unfold set_values in *. simpl in *. by rewrite <- !app_assoc.
      * intros Hnone. rewrite Hrd in Hnone. apply HF.
        unfold read_all in *. simpl. rewrite Hx. simpl. by rewrite Hnone.
    + intros Hx. apply HF. unfold read_all. simpl. by rewrite Hx.
Qed.

Lemma wpf_deref_all ls Q s :
  (∀ xs, read_all ls s = Some xs → Q xs s) →
  (read_all ls s = None → Fail) →
  wpf (deref_all ls) Q s.
Proof.
  revert Q. induction ls as [|l ls IH]; intros Q HQ HF; simpl.
  - wp_step. by apply HQ.
  - wp_step. apply wpf_deref.
    + intros x Hx. wp_step. apply IH.
      * intros xs Hxs. wp_step. apply HQ.
        unfold read_all in *. simpl. rewrite Hx. simpl. by rewrite Hxs.
      * intros Hnone. apply HF.
        unfold read_all in *. simpl. rewrite Hx. simpl. by rewrite Hnone.
    + intros Hx. apply HF. unfold read_all. simpl. by rewrite Hx.
Qed.

Lemma is_Some_read_write l' x l s :
  is_Some (read_loc l s) → is_Some (read_loc l (write_loc l' x s)).
Proof.
  destruct l, l'; simpl; try done;
    rewrite !lookup_lt_is_Some, length_insert; done.
Qed.

(** The loop of [ParallelAssignment] that writes the targets. *)
Lemma wpf_write_loop k ts xs j Q s :
  length ts = length xs →
  (∀ i x, xs !! i = Some x →
          values s !! (length (values s) - k + (j + i)) = Some x) →
  Forall (λ t, is_Some (read_loc t s) ∧
               ∀ i, t = LVal i → i < length (values s) - k + j) ts →
  Q tt (write_all (zip ts xs) s) →
  wpf (for_each (zip (seq j (length ts)) ts)
         (λ ip, let* x := index (λ s, values s !!
                                      (length (values s) - k + ip.1)) in
                store ip.2 x)) Q s.
Proof.
  revert xs j s. induction ts as [|t ts IH]; intros xs j s Hlen Hxs Hts HQ.
  - simpl. by wp_step.
  - destruct xs as [|x xs]; [done|]. simpl in Hlen.
    apply Forall_cons in Hts as [[Hval Hlt] Hts]. simpl.
    wp_step. wp_step. wp_step.
    + simpl in *. pose proof (Hxs 0 x eq_refl) as Hx0.
      rewrite Nat.add_0_r in Hx0.
      match goal with Hx : _ = Some ?a |- _ =>
        assert (a = x) as -> by congruence end.
      apply wpf_store; [|intros Hn; rewrite Hn in Hval; by destruct Hval].
      intros _. apply (IH xs (S j)).
      * lia.
      * intros i y Hy.
        assert (length (values (write_loc t x s)) = length (values s)) as ->.
        { destruct t; simpl; [by rewrite length_insert|done]. }
        specialize (Hxs (S i) y Hy).
        replace (j + S i) with (S j + i) in Hxs by lia.
        destruct t as [i0|i0]; simpl; [|done].
        rewrite list_lookup_insert_ne; [done|].
        specialize (Hlt i0 eq_refl). lia.
      * eapply Forall_impl; [done|]. intros t' [Hv' Hlt']. split.
        -- by apply is_Some_read_write.
        -- intros i ->. specialize (Hlt' i eq_refl).
           destruct t; simpl; rewrite ?length_insert; lia.
      * done.
    + simpl in *. pose proof (Hxs 0 x eq_refl) as Hx0.
      rewrite Nat.add_0_r in Hx0. congruence.
Qed.

Lemma div2_double k : (k + k) `div` 2 = k.
Proof. replace (k + k) with (k * 2) by lia. by apply Nat.div_mul. Qed.

(** [ParallelAssignment] on [k] targets and [k] sources: the record, the
    [2k] places and the [2k] saved values are appended, then every target
    gets the saved value of its source. *)
Lemma wpf_ParallelAssignment ts ss Q s :
  length ts = length ss →
  Forall (loc_wf s) (ts ++ ss) →
  (∀ olds news,
     read_all ts s = Some olds → read_all ss s = Some news →
     Q tt (write_all (zip ts news)
             (set_records
                (λ rs, rs ++ [{| typ := typAssignment;
                                 op := Z.of_nat (length ts);
                                 p := length (places s);
                                 v := length (values s) |}])
                (set_values (λ v, v ++ (olds ++ news))
                   (set_places (λ p, p ++ (ts ++ ss)) s))))) →
  (read_all ts s = None ∨ read_all ss s = None → Fail) →
  wpf (ParallelAssignment (ts ++ ss)) Q s.
Proof.
  intros Hlen Hwf HQ HF. unfold ParallelAssignment.
  rewrite length_app, <- Hlen, div2_double.
  rewrite take_app_length, drop_app_length.
  apply Forall_app in Hwf as [Hts Hss].
  wp_step. wp_step. wp_step.
  apply wpf_log_and_save_all; [done| |by auto].
  intros olds Holds. wp_step.
  set (s1 := set_values _ _).
  assert (Forall (loc_wf s1) ss) as Hss1.
  { eapply Forall_impl; [done|]. intros l Hl. subst s1.
    by apply loc_wf_values_app. }
  assert (read_all ss s1 = read_all ss s) as Hrd.
  { subst s1. by rewrite read_all_app. }
  apply wpf_log_and_save_all; [done| |rewrite Hrd; by auto].
  intros news Hnews. rewrite Hrd in Hnews. wp_step. wp_step.
  set (s2 := set_records _ _).
  assert (length olds = length ts) as Ho
    by (symmetry; by eapply length_mapM).
  assert (length news = length ss) as Hn
    by (symmetry; by eapply length_mapM).
  assert (values s2 = values s ++ olds ++ news) as Hv2.
  { subst s2 s1. simpl. by rewrite <- app_assoc. }
  apply (wpf_write_loop (length ts) ts news 0); [lia| | |].
  - intros i x Hx. rewrite Hv2, !length_app.
    replace (length (values s) + (length olds + length news) - length ts
             + (0 + i)) with (length (values s) + (length olds + i)) by lia.
    rewrite lookup_app_r by lia.
    rewrite lookup_app_r by lia.
    by replace (length (values s) + (length olds + i) - length (values s)
                - length olds) with i by lia.
  - apply Forall_forall. intros t Ht. split.
    + apply mapM_Some in Holds.
      apply list_elem_of_lookup in Ht as [i Hi].
      destruct (Forall2_lookup_l _ _ _ _ _ Holds Hi) as (x & _ & Hx).
      subst s2 s1. simpl.
      destruct t; simpl in *; [|by eauto].
      rewrite <- app_assoc. erewrite lookup_app_l_Some; by eauto.
    + intros i ->. rewrite Hv2, !length_app.
      rewrite Forall_forall in Hts. specialize (Hts _ Ht). simpl in Hts. lia.
  - specialize (HQ olds news Holds Hnews).
    subst s2 s1. unfold set_records, set_values, set_places in *. simpl in *.
    rewrite <- !app_assoc. exact HQ.
Qed.

Lemma write_all_snoc ws l x s :
  write_all (ws ++ [(l, x)]) s = write_loc l x (write_all ws s).
Proof. unfold write_all. by rewrite foldl_app. Qed.

Lemma write_loc_logs l x s :
  records (write_loc l x s) = records s ∧
  places (write_loc l x s) = places s ∧
  elementals (write_loc l x s) = elementals s ∧
  cstack (write_loc l x s) = cstack s ∧
  adj (write_loc l x s) = adj s ∧ adv (write_loc l x s) = adv s ∧
  registry (write_loc l x s) = registry s ∧
  length (values (write_loc l x s)) = length (values s) ∧
  length (heap (write_loc l x s)) = length (heap s).
Proof. destruct l; simpl; rewrite ?length_insert; done. Qed.

Lemma write_all_logs ws s :
  records (write_all ws s) = records s ∧
  places (write_all ws s) = places s ∧
  elementals (write_all ws s) = elementals s ∧
  cstack (write_all ws s) = cstack s ∧
  adj (write_all ws s) = adj s ∧ adv (write_all ws s) = adv s ∧
  registry (write_all ws s) = registry s ∧
  length (values (write_all ws s)) = length (values s) ∧
  length (heap (write_all ws s)) = length (heap s).
Proof.
  induction ws as [|[l x] ws IH] using rev_ind; [done|].
  rewrite write_all_snoc.
  destruct (write_loc_logs l x (write_all ws s)) as (-> & -> & -> & -> & -> & -> & -> & -> & ->).
  done.
Qed.

(** Writes below [L] leave the store from [L] on as it is. *)
Lemma write_all_values_above ws s L i :
  Forall (λ w, ∀ j, w.1 = LVal j → j < L) ws → L ≤ i →
  values (write_all ws s) !! i = values s !! i.
Proof.
  intros Hws Hi. induction ws as [|[l x] ws IH] using rev_ind; [done|].
  apply Forall_app in Hws as [Hws Hl]. rewrite Forall_singleton in Hl.
  rewrite write_all_snoc. rewrite <- IH by done.
  destruct l as [j|j]; simpl; [|done].
  rewrite list_lookup_insert_ne; [done|]. specialize (Hl j eq_refl). lia.
Qed.

Lemma is_Some_read_write_all ws l s :
  is_Some (read_loc l s) → is_Some (read_loc l (write_all ws s)).
Proof.
  intros Hl. induction ws as [|[l' x] ws IH] using rev_ind; [done|].
  rewrite write_all_snoc. by apply is_Some_read_write.
Qed.

Lemma read_write_eq l x s :
  is_Some (read_loc l s) → read_loc l (write_loc l x s) = Some x.
Proof.
  destruct l; simpl; rewrite lookup_lt_is_Some; intros;
    by apply list_lookup_insert_eq.
Qed.

Lemma read_write_ne l l' x s :
  l ≠ l' → read_loc l (write_loc l' x s) = read_loc l s.
Proof.
  destruct l, l'; simpl; try done; intros;
    apply list_lookup_insert_ne; congruence.
Qed.

(** After the writes [ws], a location holds the value of the last write to
    it. *)
Lemma read_write_all_last ws i l x s :
  is_Some (read_loc l s) →
  ws !! i = Some (l, x) →
  (∀ j w, i < j → ws !! j = Some w → w.1 ≠ l) →
  read_loc l (write_all ws s) = Some x.
Proof.
  intros Hl. revert i. induction ws as [|[l' y] ws IH] using rev_ind;
    intros i Hi Hlast; [done|].
  rewrite write_all_snoc.
  apply lookup_app_Some in Hi as [Hi|[Hlen Hi]].
  - assert (l' ≠ l) as Hne.
    { apply (Hlast (length ws) (l', y)).
      - by eapply lookup_lt_Some.
      - by rewrite list_lookup_middle. }
    rewrite read_write_ne by done.
    apply (IH i); [done|]. intros j w Hj Hw.
    apply (Hlast j w Hj). by apply lookup_app_l_Some.
  - apply list_lookup_singleton_Some in Hi as [_ [= -> ->]].
    apply read_write_eq. by apply is_Some_read_write_all.
Qed.

Lemma read_write_all_other ws l s :
  (∀ w, w ∈ ws → w.1 ≠ l) →
  read_loc l (write_all ws s) = read_loc l s.
Proof.
  intros Hws. induction ws as [|[l' y] ws IH] using rev_ind; [done|].
  rewrite write_all_snoc. rewrite read_write_ne.
  - apply IH. intros w Hw. apply Hws. apply elem_of_app. by left.
  - intros <-. apply (Hws (l, y)); [|done]. apply elem_of_app. right.
    by apply list_elem_of_singleton.
Qed.

Lemma wp_False_Ok {A} (m : M A) Q s :
  wp (λ _ _, False) m Q s → ∃ a s', m s = Ok a s' ∧ Q a s'.
Proof. unfold wp. destruct (m s); [eauto|done]. Qed.

End Steps.

(** ** Parallel assignment *)

(** C6, as the code has it.  [ParallelAssignment] on [k] targets [ts] and
    [k] sources [ss] appends one assignment record of arity [k] whose window
    of the place log holds the targets followed by the sources; the [k]
    values of the store at the record's [v] are the values the targets had;
    and a target holds at the end the value its source had before any write,
    provided the target is not written again for a later pair of the list:
    with a cell that occurs twice among the targets, the last pair wins. *)
Theorem ParallelAssignment_effect {F} `{Float64 F} (ts ss : list loc)
    (s : state (F:=F)) (olds news : list F) :
  length ts = length ss →
  read_all ts s = Some olds →
  read_all ss s = Some news →
  ∃ s', ParallelAssignment (ts ++ ss) s = Ok tt s' ∧
    records s' = records s ++
      [{| typ := typAssignment; op := Z.of_nat (length ts);
          p := length (places s); v := length (values s) |}] ∧
    places s' = places s ++ ts ++ ss ∧
    take (length ts) (drop (length (values s)) (values s')) = olds ∧
    (∀ i t x, ts !! i = Some t → news !! i = Some x →
       (∀ j, i < j → ts !! j ≠ Some t) → read_loc t s' = Some x).
Proof.
  intros Hlen Holds Hnews.
  assert (Forall (loc_wf s) ts) as Hts.
  { apply mapM_Some in Holds. apply Forall_forall. intros t Ht.
    apply list_elem_of_lookup in Ht as [i Hi].
    destruct (Forall2_lookup_l _ _ _ _ _ Holds Hi) as (x & _ & Hx).
    by eapply read_loc_Some_wf. }
  assert (Forall (loc_wf s) ss) as Hss.
  { apply mapM_Some in Hnews. apply Forall_forall. intros t Ht.
    apply list_elem_of_lookup in Ht as [i Hi].
    destruct (Forall2_lookup_l _ _ _ _ _ Hnews Hi) as (x & _ & Hx).
    by eapply read_loc_Some_wf. }
  assert (length olds = length ts) as Ho by (symmetry; by eapply length_mapM).
  assert (length news = length ss) as Hn by (symmetry; by eapply length_mapM).
  pose (s2 := set_records
    (λ rs, rs ++ [{| typ := typAssignment; op := Z.of_nat (length ts);
                     p := length (places s); v := length (values s) |}])
    (set_values (λ v, v ++ (olds ++ news))
       (set_places (λ p, p ++ (ts ++ ss)) s))).
  assert (Forall (λ w : loc * F, ∀ j, w.1 = LVal j → j < length (values s))
            (zip ts news)) as Hbelow.
  { apply Forall_forall. intros [t x] Hw j Hj. simpl in Hj. subst t.
    apply elem_of_zip_l in Hw. rewrite Forall_forall in Hts.
    by apply (Hts (LVal j)). }
  destruct (wp_False_Ok (ParallelAssignment (ts ++ ss))
    (λ _ s', s' = write_all (zip ts news) s2) s) as ([] & s' & Hrun & ->).
  { apply wpf_ParallelAssignment; [done|by apply Forall_app| |].
    - intros olds' news' Ho' Hn'.
      assert (olds' = olds) as -> by congruence.
      assert (news' = news) as -> by congruence. done.
    - intros [Hx|Hx]; congruence. }
  exists (write_all (zip ts news) s2). split; [done|].
  destruct (write_all_logs (zip ts news) s2) as (Hr & Hp & _).
  split; [by rewrite Hr|]. split; [by rewrite Hp|]. split.
  - apply list_eq. intros i.
    destruct (decide (i < length ts)) as [Hi|Hi].
    + rewrite lookup_take_lt by done. rewrite lookup_drop.
      rewrite (write_all_values_above _ _ (length (values s))); [|done|lia].
      subst s2. simpl. rewrite lookup_app_r by lia.
      replace (length (values s) + i - length (values s)) with i by lia.
      apply lookup_app_l. lia.
    + rewrite lookup_take_ge by lia. symmetry.
      apply lookup_ge_None. lia.
  - intros i t x Ht Hx Hlast.
    apply (read_write_all_last _ i).
    + apply mapM_Some in Holds.
      destruct (Forall2_lookup_l _ _ _ _ _ Holds Ht) as (y & _ & Hy).
      subst s2. destruct t; simpl in *; [|by eauto].
      erewrite lookup_app_l_Some; by eauto.
    + by rewrite lookup_zip_with, Ht; simpl; rewrite Hx.
    + intros j [t' x'] Hj Hw Heq. simpl in Heq. subst t'.
      apply lookup_zip_with_Some in Hw as (t'' & x'' & [= <- <-] & Ht' & _).
      by apply (Hlast j).
Qed.

Lemma ParallelAssignment_effect_witness :
  ∃ s', ParallelAssignment (F:=float)
          ([LExt 0; LExt 1] ++ [LExt 1; LExt 0])
          (init_tape [] [3%float; 5%float]) = Ok tt s' ∧
    records s' = records (init_tape (F:=float) [] [3%float; 5%float]) ++
      [{| typ := typAssignment; op := Z.of_nat (length [LExt 0; LExt 1]);
          p := length (places (init_tape (F:=float) [] [3%float; 5%float]));
          v := length (values (init_tape (F:=float) [] [3%float; 5%float])) |}] ∧
    places s' = places (init_tape (F:=float) [] [3%float; 5%float]) ++
                [LExt 0; LExt 1] ++ [LExt 1; LExt 0] ∧
    take (length [LExt 0; LExt 1])
      (drop (length (values (init_tape (F:=float) [] [3%float; 5%float])))
         (values s')) = [3%float; 5%float] ∧
    (∀ i t x, [LExt 0; LExt 1] !! i = Some t →
       [5%float; 3%float] !! i = Some x →
       (∀ j, i < j → [LExt 0; LExt 1] !! j ≠ Some t) →
       read_loc t s' = Some x).
Proof.
  apply (ParallelAssignment_effect (F:=float)); reflexivity.
Defined.

(** C6 as stated fails when a cell occurs twice among the targets: for
    [a, a = b, c] with [b = 1] and [c = 2] the first target ends with 2,
    not with the 1 its source held. *)
Lemma ParallelAssignment_repeated_target :
  ∃ s', ParallelAssignment (F:=float)
          [LExt 0; LExt 0; LExt 1; LExt 2]
          (init_tape [] [0%float; 1%float; 2%float]) = Ok tt s' ∧
    read_loc (LExt 1) (init_tape (F:=float) [] [0%float; 1%float; 2%float])
      = Some 1%float ∧
    read_loc (LExt 0) s' = Some 2%float ∧
    read_loc (LExt 0) s' ≠
      read_loc (LExt 1) (init_tape (F:=float) [] [0%float; 1%float; 2%float]).
Proof.
  eexists. split; [vm_compute; reflexivity|].
  split; [reflexivity|]. split; [reflexivity|].
  simpl. intros Heq.
  apply (f_equal (λ o, match o with
                       | Some x => PrimFloat.eqb x 1%float
                       | None => true
                       end)) in Heq.
  vm_compute in Heq. discriminate.
Qed.

Section Steps2.
Context {F : Type} `{Float64 F}.
Context (Fail : Prop).

Implicit Types (s : @state F).

Local Abbreviation wpf := (wp (λ _ _, Fail)).

Lemma read_loc_set_places l f s :
  read_loc l (set_places f s) = read_loc l s.
Proof. by destruct l. Qed.

Lemma read_loc_set_records l f s :
  read_loc l (set_records f s) = read_loc l s.
Proof. by destruct l. Qed.

Lemma read_loc_set_elementals l f s :
  read_loc l (set_elementals f s) = read_loc l s.
Proof. by destruct l. Qed.

(** The "Run" part of [Arithmetic]. *)
Lemma wpf_arith_run o px p Q s :
  (∀ y, arith_value (λ l, read_loc l s) o px = Some y →
        Q tt (write_loc p y s)) →
  (arith_value (λ l, read_loc l s) o px = None → Fail) →
  is_Some (read_loc p s) →
  wpf (if decide (o = OpNeg) then
         let* x := operand_value px 0 in
         store p (fneg x)
       else if decide (o = OpAdd) then
         let* x := operand_value px 0 in
         let* y := operand_value px 1 in
         store p (fadd x y)
       else if decide (o = OpSub) then
         let* x := operand_value px 0 in
         let* y := operand_value px 1 in
         store p (fsub x y)
       else if decide (o = OpMul) then
         let* x := operand_value px 0 in
         let* y := operand_value px 1 in
         store p (fmul x y)
       else if decide (o = OpDiv) then
         let* x := operand_value px 0 in
         let* y := operand_value px 1 in
         store p (fdiv x y)
       else throw (BadOpcode o)) Q s.
Proof.
  intros HQ HF Hp. unfold arith_value in *.
  assert (read_loc p s = None → Fail) as Hp'.
  { intros Hn. rewrite Hn in Hp. by destruct Hp. }
  repeat case_decide;
    [wp_step; apply wpf_operand_value; [intros x Hx|intros Hx]
    |wp_step; apply wpf_operand_value;
      [intros x Hx; wp_step; apply wpf_operand_value;
         [intros y Hy|intros Hy]|intros Hx]..
    |wp_step; by apply HF];
    rewrite ?Hx in *; simpl in *; rewrite ?Hy in *; simpl in *;
    try (apply wpf_store; [intros _; by apply HQ|done]);
    by apply HF.
Qed.

Definition arith_record (o : Z) s : record :=
  {| typ := typArithmetic; op := o; p := length (places s); v := 0 |}.

(** [Arithmetic]: the result cell, the record and the places are appended,
    then the value is computed from the operands and stored. *)
Lemma wpf_Arithmetic o px Q s :
  let p := LVal (length (values s)) in
  let s1 := set_values (λ vs, vs ++ [fzero]) s in
  let s2 := set_records (λ rs, rs ++ [arith_record o s])
              (set_places (λ ps, ps ++ p :: px) s1) in
  (∀ y, arith_value (λ l, read_loc l s1) o px = Some y →
        Q p (write_loc p y s2)) →
  (arith_value (λ l, read_loc l s1) o px = None → Fail) →
  wpf (Arithmetic o px) Q s.
Proof.
  intros p s1 s2 HQ HF. unfold Arithmetic.
  wp_step. apply wp_Value. do 8 wp_step. wp_step.
  eapply wp_mono.
  - apply (wpf_arith_run o px p (λ _ s', ∃ y,
      arith_value (λ l, read_loc l s1) o px = Some y ∧
      s' = write_loc p y s2)).
    + intros y Hy. exists y. split; [done|].
      subst s2 s1 p. unfold arith_record, set_records, set_places, set_values.
      simpl. by rewrite <- app_assoc.
    + done.
    + simpl. apply lookup_lt_is_Some. rewrite length_app. simpl. lia.
  - simpl. intros _ s' (y & Hy & ->). wp_step. by apply HQ.
Qed.

Definition assign_record (k : nat) s : record :=
  {| typ := typAssignment; op := Z.of_nat k;
     p := length (places s); v := length (values s) |}.

Lemma wpf_Assignment p px Q s :
  loc_wf s px →
  (∀ x y, read_loc p s = Some x → read_loc px s = Some y →
     Q tt (write_loc p y
             (set_records (λ rs, rs ++ [assign_record 1 s])
                (set_values (λ vs, vs ++ [x])
                   (set_places (λ ps, ps ++ [p; px]) s))))) →
  (read_loc p s = None ∨ read_loc px s = None → Fail) →
  wpf (Assignment p px) Q s.
Proof.
  intros Hwf HQ HF. unfold Assignment. do 5 wp_step.
  apply wpf_deref; [|rewrite read_loc_set_places; by auto].
  intros x Hx. rewrite read_loc_set_places in Hx.
  do 5 wp_step. apply wpf_deref.
  - intros y Hy. rewrite read_loc_set_records, read_loc_app in Hy
      by (destruct px; simpl in *; done).
    rewrite read_loc_set_places in Hy.
    apply wpf_store.
    + intros _. by apply HQ.
    + rewrite read_loc_set_records. intros Hn.
      erewrite read_loc_values_app in Hn; [done|].
      by rewrite read_loc_set_places.
  - rewrite read_loc_set_records, read_loc_app
      by (destruct px; simpl in *; done).
    rewrite read_loc_set_places. by auto.
Qed.

Definition elemental_record s : record :=
  {| typ := typElemental; op := Z.of_nat (length (elementals s));
     p := length (places s); v := length (values s) + 1 |}.

(** The state [Elemental] leaves before it calls the function. *)
Definition elemental_logged (g : ElementalGradientFunc) px (xs : list F) s
  : state :=
  set_records (λ rs, rs ++ [elemental_record s])
    (set_elementals (λ es, es ++ [{| e_n := length px; e_g := g |}])
       (set_values (λ vs, vs ++ xs)
          (set_places (λ ps, ps ++ LVal (length (values s)) :: px)
             (set_values (λ vs, vs ++ [fzero]) s)))).

Lemma read_all_set_places ls f s :
  read_all ls (set_places f s) = read_all ls s.
Proof.
  unfold read_all. apply mapM_ext. intros l. apply read_loc_set_places.
Qed.

Lemma read_all_set_records ls f s :
  read_all ls (set_records f s) = read_all ls s.
Proof.
  unfold read_all. apply mapM_ext. intros l. apply read_loc_set_records.
Qed.

Lemma read_all_set_elementals ls f s :
  read_all ls (set_elementals f s) = read_all ls s.
Proof.
  unfold read_all. apply mapM_ext. intros l. apply read_loc_set_elementals.
Qed.

Lemma read_all_lookup ls s xs i :
  read_all ls s = Some xs →
  ls !! i ≫= (λ l, read_loc l s) = xs !! i.
Proof.
  intros Hxs. apply mapM_Some in Hxs.
  destruct (ls !! i) as [l|] eqn:Hl; simpl.
  - destruct (Forall2_lookup_l _ _ _ _ _ Hxs Hl) as (x & -> & Hx). done.
  - symmetry. apply lookup_ge_None. apply lookup_ge_None in Hl.
    by rewrite <- (Forall2_length _ _ _ Hxs).
Qed.

Lemma wpf_Elemental f px Q s :
  Forall (loc_wf s) px →
  (∀ g xs y,
     ElementalGradient f s = Some g → read_all px s = Some xs →
     apply_fimpl (fcode f) xs = Some y →
     Q (LVal (length (values s)))
       (write_loc (LVal (length (values s))) y (elemental_logged g px xs s))) →
  (ElementalGradient f s = None ∨ read_all px s = None ∨
   (∃ xs, read_all px s = Some xs ∧ apply_fimpl (fcode f) xs = None) →
   Fail) →
  wpf (Elemental f px) Q s.
Proof.
  intros Hwf HQ HF. unfold Elemental.
  wp_step. apply wp_Value. wp_step. wp_step; [|by auto].
  rename a into g. rename H0 into Hg.
  change (ElementalGradient f s = Some g) in Hg.
  do 7 wp_step.
  set (s1 := set_places _ (set_places _ _)).
  assert (Forall (loc_wf s1) px) as Hwf1.
  { eapply Forall_impl; [done|]. intros l Hl. subst s1.
    destruct l; simpl in *; [|done]. rewrite length_app. lia. }
  assert (read_all px s1 = read_all px s) as Hrd1.
  { subst s1. rewrite !read_all_set_places. by apply read_all_app. }
  apply wpf_save_all; [done| |rewrite Hrd1; by auto].
  intros xs Hxs. rewrite Hrd1 in Hxs. do 5 wp_step.
  set (s3 := set_records _ _).
  assert (s3 = elemental_logged g px xs s) as Hs3.
  { subst s3 s1. unfold elemental_logged, elemental_record, set_records,
      set_elementals, set_values, set_places. simpl.
    rewrite length_app. simpl. by rewrite <- !app_assoc. }
  assert (read_all px s3 = Some xs) as Hrd3.
  { subst s3. rewrite read_all_set_records, read_all_set_elementals.
    rewrite read_all_app by done. by rewrite Hrd1. }
  assert (is_Some (read_loc (LVal (length (values s))) s3)) as Hp.
  { rewrite Hs3. simpl. apply lookup_lt_is_Some.
    rewrite !length_app. simpl. lia. }
  assert (∀ y, wpf (store (LVal (length (values s))) y)
                 (λ _ s', wpf (ret (LVal (length (values s)))) Q s') s3 ↔
               Q (LVal (length (values s)))
                 (write_loc (LVal (length (values s))) y s3)) as Hstore.
  { intros y. unfold store, wp, bind, guard, modify, ret.
    by rewrite decide_True by done. }
  destruct (fcode f) as [f1|f2|fn] eqn:Hf.
  - wp_step. apply wpf_operand_value.
    + intros x Hx. rewrite (read_all_lookup _ _ _ _ Hrd3) in Hx.
      apply Hstore. rewrite Hs3. apply (HQ g xs); [done..|].
      simpl. by rewrite Hx.
    + intros Hx. rewrite (read_all_lookup _ _ _ _ Hrd3) in Hx.
      apply HF. right. right. exists xs. split; [done|]. simpl.
      by rewrite Hx.
  - wp_step. apply wpf_operand_value.
    + intros x Hx. rewrite (read_all_lookup _ _ _ _ Hrd3) in Hx.
      wp_step. apply wpf_operand_value.
      * intros y Hy. rewrite (read_all_lookup _ _ _ _ Hrd3) in Hy.
        apply Hstore. rewrite Hs3. apply (HQ g xs); [done..|].
        simpl. rewrite Hx. simpl. by rewrite Hy.
      * intros Hy. rewrite (read_all_lookup _ _ _ _ Hrd3) in Hy.
        apply HF. right. right. exists xs. split; [done|]. simpl.
        rewrite Hx. simpl. by rewrite Hy.
    + intros Hx. rewrite (read_all_lookup _ _ _ _ Hrd3) in Hx.
      apply HF. right. right. exists xs. split; [done|]. simpl.
      by rewrite Hx.
  - wp_step. apply wpf_deref_all; [|congruence].
    intros xs' Hxs'. assert (xs' = xs) as -> by congruence.
    wp_step. wp_step.
    + apply Hstore. rewrite Hs3. by apply (HQ g xs).
    + apply HF. right. right. by exists xs.
Qed.

Lemma wpf_Return px Q s c :
  last (cstack s) = Some c → c_p c < length (places s) →
  (∀ x, read_loc px s = Some x →
        Q x (set_places (λ ps, <[c_p c := px]> ps) s)) →
  (read_loc px s = None → Fail) →
  wpf (Return px) Q s.
Proof.
  intros Hc Hp HQ HF. unfold Return. wp_step.
  apply (wpf_top_frame _ _ _ c); [done|].
  wp_step. wp_step; [|done]. wp_step. wp_step.
  apply wpf_deref; rewrite read_loc_set_places; auto.
Qed.

Lemma wpf_fresh_sides n sides Q s :
  Q (sides ++ (LVal <$> seq (length (values s)) n))
    (set_values (λ vs, vs ++ replicate n fzero) s) →
  wpf (fresh_sides n sides) Q s.
Proof.
  revert sides s. induction n as [|n IH]; intros sides s HQ; simpl.
  - wp_step. simpl in HQ. rewrite app_nil_r in HQ.
    replace (set_values (λ vs, vs ++ []) s) with s in HQ; [done|].
    destruct s. unfold set_values. simpl. by rewrite app_nil_r.
  - wp_step. apply wp_Value. apply IH. simpl. rewrite length_app. simpl.
    rewrite <- app_assoc. simpl.
    replace (length (values s) + 1) with (S (length (values s))) by lia.
    unfold set_values in *. simpl in *. by rewrite <- app_assoc.
Qed.

(** An operand written as a place. *)
Definition resolve_opt (env : list loc) (o : operand) : option loc :=
  match o with
  | Res k => env !! k
  | Ext i => Some (LExt i)
  end.

Lemma wpf_resolve env o Q s :
  (∀ l, resolve_opt env o = Some l → Q l s) →
  (resolve_opt env o = None → Fail) →
  wpf (resolve env o) Q s.
Proof.
  intros HQ HF. unfold resolve. destruct o; simpl in *.
  - wp_step; auto.
  - wp_step. auto.
Qed.

Lemma wpf_resolve_all env os Q s :
  (∀ ls, mapM (resolve_opt env) os = Some ls → Q ls s) →
  (mapM (resolve_opt env) os = None → Fail) →
  wpf (resolve_all env os) Q s.
Proof.
  revert Q. induction os as [|o os IH]; intros Q HQ HF; simpl.
  - wp_step. by apply HQ.
  - wp_step. apply wpf_resolve.
    + intros l Hl. wp_step. apply IH.
      * intros ls Hls. wp_step. apply HQ. simpl. rewrite Hl. simpl.
        by rewrite Hls.
      * intros Hn. apply HF. simpl. rewrite Hl. simpl. by rewrite Hn.
    + intros Hn. apply HF. simpl. by rewrite Hn.
Qed.

End Steps2.

(** ** The tape and the machine, side by side

    The [k]-th cell of the machine lives at an index of the value store:
    [cidx] lists these indices, in the order the cells were made. *)

Section MemRel.
Context {F : Type} `{Float64 F}.

Implicit Types (s : @state F) (σ : @astate F) (cidx : list nat).

Definition place_of cidx (l : aloc) : loc :=
  match l with
  | ACell k => LVal (cidx !!! k)
  | AExt i => LExt i
  end.

Definition aloc_ok cidx (l : aloc) : Prop :=
  match l with
  | ACell k => k < length cidx
  | AExt _ => True
  end.

Record mem_rel cidx s σ : Prop := {
  mr_heap : heap s = aheap σ;
  mr_cells : Forall2 (λ i x, values s !! i = Some x) cidx (cells σ);
  mr_nodup : NoDup cidx
}.

Lemma aloc_ok_app cidx more l : aloc_ok cidx l → aloc_ok (cidx ++ more) l.
Proof. destruct l; simpl; [|done]. rewrite length_app. lia. Qed.

Lemma place_of_app cidx more l :
  aloc_ok cidx l → place_of (cidx ++ more) l = place_of cidx l.
Proof.
  destruct l; simpl; [|done]. intros. by rewrite lookup_total_app_l.
Qed.

Lemma place_of_inj cidx l l' :
  NoDup cidx → aloc_ok cidx l → aloc_ok cidx l' →
  place_of cidx l = place_of cidx l' → l = l'.
Proof.
  intros Hnd. destruct l as [k|i], l' as [k'|i']; simpl; try done.
  - intros Hk Hk' [= Heq]. f_equal.
    apply lookup_lt_is_Some in Hk as [x Hx].
    apply lookup_lt_is_Some in Hk' as [x' Hx'].
    rewrite (list_lookup_total_correct _ _ _ Hx) in Heq.
    rewrite (list_lookup_total_correct _ _ _ Hx') in Heq. subst x'.
    by eapply NoDup_lookup.
  - by intros _ _ [= ->].
Qed.

Lemma mem_rel_length cidx s σ :
  mem_rel cidx s σ → length cidx = length (cells σ).
Proof. intros [_ Hc _]. by eapply Forall2_length. Qed.

Lemma mem_rel_bound cidx s σ i :
  mem_rel cidx s σ → i ∈ cidx → i < length (values s).
Proof.
  intros [_ Hc _] Hi. apply list_elem_of_lookup in Hi as [k Hk].
  destruct (Forall2_lookup_l _ _ _ _ _ Hc Hk) as (x & _ & Hx).
  by eapply lookup_lt_Some.
Qed.

Lemma read_rel cidx s σ l :
  mem_rel cidx s σ → aloc_ok cidx l →
  read_loc (place_of cidx l) s = aread l σ.
Proof.
  intros [Hh Hc _] Hl. destruct l as [k|i]; simpl in *; [|by rewrite Hh].
  apply lookup_lt_is_Some in Hl as [i Hi].
  rewrite (list_lookup_total_correct _ _ _ Hi).
  destruct (Forall2_lookup_l _ _ _ _ _ Hc Hi) as (x & -> & Hx). done.
Qed.

Lemma place_wf cidx s σ l :
  mem_rel cidx s σ → aloc_ok cidx l → loc_wf s (place_of cidx l).
Proof.
  intros Hm Hl. destruct l as [k|i]; simpl in *; [|done].
  apply lookup_lt_is_Some in Hl as [i Hi].
  rewrite (list_lookup_total_correct _ _ _ Hi).
  eapply mem_rel_bound; [done|]. by eapply list_elem_of_lookup_2.
Qed.

Lemma read_all_rel cidx s σ ls :
  mem_rel cidx s σ → Forall (aloc_ok cidx) ls →
  read_all (place_of cidx <$> ls) s = mapM (λ l, aread l σ) ls.
Proof.
  intros Hm Hls. unfold read_all.
  induction Hls as [|l ls Hl Hls IH]; [done|].
  rewrite fmap_cons. cbn [mapM]. rewrite (read_rel _ _ σ) by done.
  destruct (aread l σ); simpl; [|done]. by rewrite IH.
Qed.

(** The tape's state changed in parts the relation does not look at. *)
Lemma mem_rel_same cidx s s' σ :
  mem_rel cidx s σ → values s' = values s → heap s' = heap s →
  mem_rel cidx s' σ.
Proof. intros [Hh Hc Hn] Hv Hh'. split; [congruence| |done]. by rewrite Hv. Qed.

Lemma mem_rel_write cidx s σ l x :
  mem_rel cidx s σ → aloc_ok cidx l →
  mem_rel cidx (write_loc (place_of cidx l) x s) (awrite l x σ).
Proof.
  intros [Hh Hc Hn] Hl. destruct l as [k|i]; simpl in *.
  - apply lookup_lt_is_Some in Hl as [i Hi].
    rewrite (list_lookup_total_correct _ _ _ Hi).
    split; simpl; [done| |done].
    apply Forall2_same_length_lookup. split.
    { rewrite length_insert. by eapply Forall2_length. }
    intros k' i' y Hk' Hy.
    destruct (decide (k' = k)) as [->|Hne].
    + assert (i' = i) as -> by congruence.
      destruct (Forall2_lookup_l _ _ _ _ _ Hc Hi) as (x0 & Hx0 & Hv).
      rewrite list_lookup_insert_eq in Hy by (by eapply lookup_lt_Some).
      inversion Hy; subst.
      apply list_lookup_insert_eq. by eapply lookup_lt_Some.
    + rewrite list_lookup_insert_ne in Hy by done.
      destruct (Forall2_lookup_l _ _ _ _ _ Hc Hk') as (x0 & Hx0 & Hv).
      assert (x0 = y) as -> by congruence.
      rewrite list_lookup_insert_ne; [done|].
      intros ->. apply Hne. by eapply NoDup_lookup.
  - split; simpl; [by rewrite Hh|done|done].
Qed.

Lemma mem_rel_alloc cidx s σ x :
  mem_rel cidx s σ →
  mem_rel (cidx ++ [length (values s)])
    (set_values (λ vs, vs ++ [x]) s) (aalloc x σ).
Proof.
  intros Hm. pose proof Hm as [Hh Hc Hn]. split; simpl; [done| |].
  - apply Forall2_app.
    + eapply Forall2_impl; [done|]. intros i y Hy. by apply lookup_app_l_Some.
    + constructor; [|constructor]. by rewrite list_lookup_middle.
  - apply NoDup_app. split; [done|]. split; [|apply NoDup_singleton].
    intros i Hi Hi'. apply list_elem_of_singleton in Hi'. subst i.
    pose proof (mem_rel_bound _ _ _ _ Hm Hi). lia.
Qed.

Lemma mem_rel_values_app cidx s σ xs :
  mem_rel cidx s σ → mem_rel cidx (set_values (λ vs, vs ++ xs) s) σ.
Proof.
  intros [Hh Hc Hn]. split; simpl; [done| |done].
  eapply Forall2_impl; [done|]. intros i y Hy. by apply lookup_app_l_Some.
Qed.

(** A write into the store at an index that is no cell. *)
Lemma mem_rel_scratch cidx s σ i x :
  mem_rel cidx s σ → i ∉ cidx →
  mem_rel cidx (set_values (λ vs, <[i:=x]> vs) s) σ.
Proof.
  intros [Hh Hc Hn] Hi. split; simpl; [done| |done].
  apply Forall2_same_length_lookup. split; [by eapply Forall2_length|].
  intros k i' y Hk Hy.
  destruct (Forall2_lookup_l _ _ _ _ _ Hc Hk) as (x0 & Hx0 & Hv).
  assert (x0 = y) as -> by congruence.
  rewrite list_lookup_insert_ne; [done|]. intros ->. apply Hi.
  by eapply list_elem_of_lookup_2.
Qed.

Lemma mem_rel_write_all cidx s σ (ws : list (aloc * F)) :
  mem_rel cidx s σ → Forall (λ w, aloc_ok cidx w.1) ws →
  mem_rel cidx
    (write_all (prod_map (place_of cidx) id <$> ws) s) (awrite_all ws σ).
Proof.
  intros Hm Hws. induction ws as [|[l x] ws IH] using rev_ind; [done|].
  apply Forall_app in Hws as [Hws Hl]. rewrite Forall_singleton in Hl.
  rewrite fmap_app. simpl. rewrite write_all_snoc.
  unfold awrite_all. rewrite foldl_app. simpl.
  apply mem_rel_write; [by apply IH|done].
Qed.

Lemma awrite_fields l x σ :
  trace (awrite l x σ) = trace σ ∧ result (awrite l x σ) = result σ ∧
  length (cells (awrite l x σ)) = length (cells σ) ∧
  length (aheap (awrite l x σ)) = length (aheap σ).
Proof. destruct l; simpl; rewrite ?length_insert; done. Qed.

Lemma awrite_all_snoc ws l x σ :
  awrite_all (ws ++ [(l, x)]) σ = awrite l x (awrite_all ws σ).
Proof. unfold awrite_all. by rewrite foldl_app. Qed.

Lemma awrite_all_fields ws σ :
  trace (awrite_all ws σ) = trace σ ∧ result (awrite_all ws σ) = result σ ∧
  length (cells (awrite_all ws σ)) = length (cells σ) ∧
  length (aheap (awrite_all ws σ)) = length (aheap σ).
Proof.
  induction ws as [|[l x] ws IH] using rev_ind; [done|].
  rewrite awrite_all_snoc.
  destruct (awrite_fields l x (awrite_all ws σ)) as (-> & -> & -> & ->).
  done.
Qed.

(** The machine changed in parts the relation does not look at. *)
Lemma mem_rel_emit cidx s σ σ' :
  mem_rel cidx s σ → cells σ' = cells σ → aheap σ' = aheap σ →
  mem_rel cidx s σ'.
Proof. intros [Hh Hc Hn] Hc' Hh'. split; [congruence| |done]. by rewrite Hc'. Qed.

Lemma zip_place_of cidx (ts : list aloc) (xs : list F) :
  zip (place_of cidx <$> ts) xs = prod_map (place_of cidx) id <$> zip ts xs.
Proof.
  revert xs. induction ts as [|t ts IH]; intros [|x xs]; simpl; try done.
  by rewrite IH.
Qed.

End MemRel.

Section TraceRel.
Context {F : Type} `{Float64 F}.
Variable (c : counters).

Implicit Types (s : @state F) (σ : @astate F) (cidx : list nat).
Implicit Types (a : @arec F) (tr : list (@arec F)).

(** The places of the log from [p0] on are those of [ls]. *)
Definition window s cidx (p0 : nat) (ls : list aloc) : Prop :=
  c_p c < p0 ∧
  ∀ j l, ls !! j = Some l →
    places s !! (p0 + j) = Some (place_of cidx l) ∧ aloc_ok cidx l.

(** The values of the store from [v0] on are [xs], and none is a cell. *)
Definition saved_at s cidx (v0 : nat) (xs : list F) : Prop :=
  ∀ j x, xs !! j = Some x →
    values s !! (v0 + j) = Some x ∧ v0 + j ∉ cidx.

(** The record [r] of the tape stands for the record [a] of the machine. *)
Definition rec_rel s cidx (r : record) (a : @arec F) : Prop :=
  match a with
  | ADummy => typ r = typDummy ∨ typ r = typCall
  | AAssign ts ss saved =>
      typ r = typAssignment ∧ op r = Z.of_nat (length ts) ∧
      length ss = length ts ∧ length saved = length ts ∧
      window s cidx (p r) (ts ++ ss) ∧ saved_at s cidx (v r) saved
  | AArith o res args =>
      typ r = typArithmetic ∧ op r = o ∧ length args = arity o ∧
      window s cidx (p r) (res :: args)
  | AElem g res args saved =>
      typ r = typElemental ∧ (0 ≤ op r)%Z ∧
      elementals s !! Z.to_nat (op r)
        = Some {| e_n := length args; e_g := g |} ∧
      length saved = length args ∧
      window s cidx (p r) (res :: args) ∧ saved_at s cidx (v r) saved
  end.

(** The part of the value store a record owns, if any, inside [0, vb). *)
Definition vlo (r : record) (a : @arec F) (vb : nat) : nat :=
  match a with
  | AAssign _ _ _ | AElem _ _ _ _ => v r
  | _ => vb
  end.

Definition vhi (r : record) (a : @arec F) (vb : nat) : nat :=
  match a with
  | AAssign _ _ saved | AElem _ _ _ saved => v r + length saved
  | _ => vb
  end.

(** The records [rs] stand for the trace [tr], and the parts of the store
    they own lie below [vb], one after the other. *)
Inductive trace_rel s cidx : nat → list record → list (@arec F) → Prop :=
  | trace_nil vb : trace_rel s cidx vb [] []
  | trace_snoc vb rs tr r a :
      trace_rel s cidx (vlo r a vb) rs tr →
      rec_rel s cidx r a →
      vlo r a vb ≤ vhi r a vb → vhi r a vb ≤ vb →
      trace_rel s cidx vb (rs ++ [r]) (tr ++ [a]).

Lemma trace_rel_length s cidx vb rs tr :
  trace_rel s cidx vb rs tr → length rs = length tr.
Proof. induction 1; [done|]. rewrite !length_app. simpl. lia. Qed.

Lemma trace_rel_weaken s cidx vb vb' rs tr :
  trace_rel s cidx vb rs tr → vb ≤ vb' → trace_rel s cidx vb' rs tr.
Proof.
  intros Htr. revert vb'.
  induction Htr as [|vb rs tr r a Htr IH Hr Hlo Hhi]; intros vb' Hvb.
  - constructor.
  - destruct a; simpl in *.
    + constructor; simpl; [apply IH; lia|done|lia|lia].
    + constructor; simpl; [done|done|lia|lia].
    + constructor; simpl; [apply IH; lia|done|lia|lia].
    + constructor; simpl; [done|done|lia|lia].
Qed.

(** [s'] differs from [s] only where the records of [s] below [vb] do not
    look. *)
Record agrees (vb : nat) cidx cidx' s s' : Prop := {
  ag_places : ∀ i, c_p c < i → i < length (places s) →
                places s' !! i = places s !! i;
  ag_values : ∀ i, i < vb → i ∉ cidx → i < length (values s) →
                values s' !! i = values s !! i;
  ag_places_len : length (places s) ≤ length (places s');
  ag_values_len : length (values s) ≤ length (values s');
  ag_elementals : elementals s `prefix_of` elementals s';
  ag_cidx : ∃ more, cidx' = cidx ++ more ∧ Forall (λ i, vb ≤ i) more
}.

Lemma agrees_le vb vb' cidx cidx' s s' :
  agrees vb cidx cidx' s s' → vb' ≤ vb → agrees vb' cidx cidx' s s'.
Proof.
  intros [Hp Hv ? ? He (more & -> & Hm)] Hle. split; [done| |done..|].
  - intros i Hi. apply Hv. lia.
  - exists more. split; [done|]. eapply Forall_impl; [done|].
    simpl. intros. lia.
Qed.

Lemma window_stable vb cidx cidx' s s' p0 ls :
  agrees vb cidx cidx' s s' → window s cidx p0 ls → window s' cidx' p0 ls.
Proof.
  intros [Hp _ _ _ _ (more & -> & _)] [Hc Hw]. split; [done|].
  intros j l Hl. destruct (Hw j l Hl) as [Hpl Hok]. split.
  - rewrite place_of_app by done. rewrite Hp; [done|lia|].
    by eapply lookup_lt_Some.
  - by apply aloc_ok_app.
Qed.

Lemma saved_at_stable vb cidx cidx' s s' v0 xs :
  agrees vb cidx cidx' s s' → v0 + length xs ≤ vb →
  saved_at s cidx v0 xs → saved_at s' cidx' v0 xs.
Proof.
  intros [_ Hv _ _ _ (more & -> & Hm)] Hvb Hs j x Hx.
  destruct (Hs j x Hx) as [Hval Hn].
  apply lookup_lt_Some in Hx as Hj. split.
  - rewrite Hv; [done|lia|done|by eapply lookup_lt_Some].
  - intros Hin. apply elem_of_app in Hin as [?|Hin]; [done|].
    rewrite Forall_forall in Hm. specialize (Hm _ Hin). simpl in Hm. lia.
Qed.

Lemma rec_rel_stable vb cidx cidx' s s' r a :
  agrees vb cidx cidx' s s' → vhi r a vb ≤ vb →
  rec_rel s cidx r a → rec_rel s' cidx' r a.
Proof.
  intros Hag Hhi. destruct a; simpl in *; [done| | |].
  - intros (? & ? & ? & ? & Hw & Hs).
    do 4 (split; [done|]). split.
    + by eapply window_stable.
    + by eapply saved_at_stable.
  - intros (? & ? & ? & Hw).
    do 3 (split; [done|]). by eapply window_stable.
  - intros (? & ? & He & ? & Hw & Hs).
    do 2 (split; [done|]). split.
    { destruct Hag as [_ _ _ _ [k Hk] _]. rewrite Hk.
      by apply lookup_app_l_Some. }
    split; [done|]. split.
    + by eapply window_stable.
    + by eapply saved_at_stable.
Qed.

Lemma trace_rel_stable vb cidx cidx' s s' rs tr :
  trace_rel s cidx vb rs tr → agrees vb cidx cidx' s s' →
  trace_rel s' cidx' vb rs tr.
Proof.
  induction 1 as [|vb rs tr r a Htr IH Hr Hlo Hhi]; intros Hag.
  - constructor.
  - constructor; [|by eapply rec_rel_stable|done|done].
    apply IH. eapply agrees_le; [done|]. lia.
Qed.

(** The call marker became a dummy. *)
Lemma trace_rel_retype s cidx vb rs tr j r r' :
  trace_rel s cidx vb rs tr →
  rs !! j = Some r → tr !! j = Some ADummy → typ r' = typDummy →
  trace_rel s cidx vb (<[j:=r']> rs) tr.
Proof.
  intros Htr. revert j.
  induction Htr as [|vb rs tr r0 a Htr IH Hr Hlo Hhi]; intros j Hj Ha Hr';
    [done|].
  pose proof (trace_rel_length _ _ _ _ _ Htr) as Hlen.
  destruct (decide (j < length rs)) as [Hlt|Hge].
  - rewrite insert_app_l by done. constructor; try done.
    apply IH; [|by rewrite lookup_app_l in Ha by lia|done].
    by rewrite lookup_app_l in Hj by done.
  - assert (j = length rs) as ->.
    { apply lookup_lt_Some in Hj. rewrite length_app in Hj. simpl in Hj. lia. }
    rewrite Hlen in Ha. rewrite list_lookup_middle in Ha by done.
    inversion Ha; subst a.
    replace (length rs) with (length rs + 0) by lia.
    rewrite insert_app_r. simpl. constructor; simpl in *; try done.
    by left.
Qed.

End TraceRel.

Section Agrees.
Context {F : Type} `{Float64 F}.
Variable (c : counters).

Implicit Types (s : @state F) (cidx : list nat).

Lemma agrees_refl vb cidx s : agrees c vb cidx cidx s s.
Proof.
  split; try done. exists []. split; [by rewrite app_nil_r|done].
Qed.

Lemma agrees_trans vb cidx cidx1 cidx2 s s1 s2 :
  agrees c vb cidx cidx1 s s1 → agrees c vb cidx1 cidx2 s1 s2 →
  agrees c vb cidx cidx2 s s2.
Proof.
  intros [Hp1 Hv1 Hpl1 Hvl1 He1 (m1 & -> & Hm1)]
         [Hp2 Hv2 Hpl2 Hvl2 He2 (m2 & -> & Hm2)].
  split.
  - intros i Hi Hi'. rewrite Hp2 by lia. by apply Hp1.
  - intros i Hi Hi' Hlt. rewrite Hv2; [by apply Hv1|done| |lia].
    intros Hin. apply elem_of_app in Hin as [?|Hin]; [done|].
    rewrite Forall_forall in Hm1. specialize (Hm1 _ Hin). simpl in Hm1. lia.
  - lia.
  - lia.
  - by etrans.
  - exists (m1 ++ m2). split; [by rewrite app_assoc|].
    by apply Forall_app.
Qed.

Lemma agrees_places_app vb cidx s ps :
  agrees c vb cidx cidx s (set_places (λ l, l ++ ps) s).
Proof.
  split; simpl; try done.
  - intros i _ Hi. by apply lookup_app_l.
  - rewrite length_app. lia.
  - exists []. split; [by rewrite app_nil_r|done].
Qed.

Lemma agrees_places_insert vb cidx s l :
  agrees c vb cidx cidx s (set_places (λ ps, <[c_p c := l]> ps) s).
Proof.
  split; simpl; try done.
  - intros i Hi _. apply list_lookup_insert_ne. lia.
  - by rewrite length_insert.
  - exists []. split; [by rewrite app_nil_r|done].
Qed.

Lemma agrees_values_app vb cidx s xs :
  agrees c vb cidx cidx s (set_values (λ l, l ++ xs) s).
Proof.
  split; simpl; try done.
  - intros i _ _ Hi. by apply lookup_app_l.
  - rewrite length_app. lia.
  - exists []. split; [by rewrite app_nil_r|done].
Qed.

Lemma agrees_records vb cidx s f :
  agrees c vb cidx cidx s (set_records f s).
Proof.
  split; simpl; try done. exists []. split; [by rewrite app_nil_r|done].
Qed.

Lemma agrees_elementals_app vb cidx s es :
  agrees c vb cidx cidx s (set_elementals (λ l, l ++ es) s).
Proof.
  split; simpl; try done; [by apply prefix_app_r|].
  exists []. split; [by rewrite app_nil_r|done].
Qed.

(** A write to a cell, or to the store at or above [vb]. *)
Lemma agrees_write vb cidx s l x :
  (∀ i, l = LVal i → i ∈ cidx ∨ vb ≤ i) →
  agrees c vb cidx cidx s (write_loc l x s).
Proof.
  intros Hl. destruct l as [i|i]; split; simpl; try done;
    try (exists []; split; [by rewrite app_nil_r|done]);
    try (by rewrite length_insert).
  intros j Hj Hn _. apply list_lookup_insert_ne. intros ->.
  destruct (Hl j eq_refl); [done|lia].
Qed.

Lemma agrees_write_all vb cidx s ws :
  Forall (λ w, ∀ i, w.1 = LVal i → i ∈ cidx ∨ vb ≤ i) ws →
  agrees c vb cidx cidx s (write_all ws s).
Proof.
  intros Hws. induction ws as [|[l x] ws IH] using rev_ind;
    [apply agrees_refl|].
  apply Forall_app in Hws as [Hws Hl]. rewrite Forall_singleton in Hl.
  rewrite write_all_snoc. eapply agrees_trans; [by apply IH|].
  by apply agrees_write.
Qed.

Lemma agrees_scratch vb cidx s i x :
  vb ≤ i → agrees c vb cidx cidx s (set_values (λ vs, <[i:=x]> vs) s).
Proof.
  intros Hi. split; simpl; try done.
  - intros j Hj _ _. apply list_lookup_insert_ne. lia.
  - by rewrite length_insert.
  - exists []. split; [by rewrite app_nil_r|done].
Qed.

Lemma agrees_cidx vb cidx more s s' :
  agrees c vb cidx cidx s s' → Forall (λ i, vb ≤ i) more →
  agrees c vb cidx (cidx ++ more) s s'.
Proof.
  intros [Hp Hv ? ? He _] Hm. split; try done. by exists more.
Qed.

End Agrees.

Ltac agrees_tac :=
  repeat first
    [ apply agrees_refl
    | eapply agrees_trans;
      [| first [ apply agrees_places_app | apply agrees_places_insert
               | apply agrees_values_app | apply agrees_records
               | apply agrees_elementals_app ] ] ].

Section Forward.
Context {F : Type} `{Float64 F}.
Variables (s0 : @state F) (b n : nat).

Implicit Types (s : @state F) (σ : @astate F) (cidx : list nat).
Implicit Types (a : @arec F).

Local Abbreviation c := (frame_of n s0).

(** The tape in the frame that [Setup] opened on [s0], and the machine. *)
Record fwd_rel cidx s σ : Prop := {
  fr_mem : mem_rel cidx s σ;
  fr_cstack : cstack s = cstack s0 ++ [c];
  fr_adj : adj s = adj s0;
  fr_adv : adv s = adv s0;
  fr_registry : registry s = registry s0;
  fr_records : c_r c ≤ length (records s);
  fr_trace : trace_rel c s cidx (length (values s))
               (drop (c_r c) (records s)) (trace σ);
  fr_result : places s !! c_p c = Some (place_of cidx (result σ));
  fr_result_ok : aloc_ok cidx (result σ);
  fr_params : ∀ i, i < n → places s !! (c_p c + 1 + i) = Some (LExt (b + i))
}.

Definition env_rel cidx (env : list loc) (aenv : list aloc) : Prop :=
  env = place_of cidx <$> aenv ∧ Forall (aloc_ok cidx) aenv.

Lemma place_of_fmap_app cidx more (ls : list aloc) :
  Forall (aloc_ok cidx) ls →
  place_of (cidx ++ more) <$> ls = place_of cidx <$> ls.
Proof.
  intros Hok. apply Forall_fmap_ext. eapply Forall_impl; [done|].
  intros l Hl. by apply place_of_app.
Qed.

Lemma env_rel_app cidx more env aenv :
  env_rel cidx env aenv → env_rel (cidx ++ more) env aenv.
Proof.
  intros [-> Hok]. split.
  - by rewrite place_of_fmap_app.
  - eapply Forall_impl; [done|]. intros l. apply aloc_ok_app.
Qed.

Lemma env_rel_snoc cidx env aenv l :
  env_rel cidx env aenv → aloc_ok cidx l →
  env_rel cidx (env ++ [place_of cidx l]) (aenv ++ [l]).
Proof.
  intros [-> Hok] Hl. split.
  - by rewrite fmap_app.
  - apply Forall_app. split; [done|]. by apply Forall_singleton.
Qed.

Lemma fwd_rel_p cidx s σ : fwd_rel cidx s σ → c_p c < length (places s).
Proof. intros Hr. eapply lookup_lt_Some. apply (fr_result _ _ _ Hr). Qed.

(** A step that appends no record. *)
Lemma fwd_rel_step0 cidx cidx' s s' σ σ' :
  fwd_rel cidx s σ → mem_rel cidx' s' σ' →
  cstack s' = cstack s → adj s' = adj s → adv s' = adv s →
  registry s' = registry s →
  records s' = records s → trace σ' = trace σ →
  agrees c (length (values s)) cidx cidx' s s' →
  places s' !! c_p c = Some (place_of cidx' (result σ')) →
  aloc_ok cidx' (result σ') →
  fwd_rel cidx' s' σ'.
Proof.
  intros [Hm Hcs Hadj Hadv Hreg Hrs Htr Hres Hok Hpar]
    Hm' Hcs' Hadj' Hadv' Hreg' Hrs' Htr' Hag Hres' Hok'.
  split; try congruence.
  - rewrite Hrs', Htr'.
    eapply trace_rel_weaken; [by eapply trace_rel_stable|].
    apply (ag_values_len _ _ _ _ _ _ Hag).
  - intros i Hi. rewrite (ag_places _ _ _ _ _ _ Hag); [by apply Hpar|simpl; lia|].
    eapply lookup_lt_Some. by apply Hpar.
Qed.

(** A step that appends the record [r], which stands for [a]. *)
Lemma fwd_rel_step1 cidx cidx' s s' σ σ' r a :
  fwd_rel cidx s σ → mem_rel cidx' s' σ' →
  cstack s' = cstack s → adj s' = adj s → adv s' = adv s →
  registry s' = registry s →
  records s' = records s ++ [r] → trace σ' = trace σ ++ [a] →
  agrees c (length (values s)) cidx cidx' s s' →
  rec_rel c s' cidx' r a →
  length (values s) ≤ vlo r a (length (values s')) →
  vlo r a (length (values s')) ≤ vhi r a (length (values s')) →
  vhi r a (length (values s')) ≤ length (values s') →
  places s' !! c_p c = Some (place_of cidx' (result σ')) →
  aloc_ok cidx' (result σ') →
  fwd_rel cidx' s' σ'.
Proof.
  intros [Hm Hcs Hadj Hadv Hreg Hrs Htr Hres Hok Hpar]
    Hm' Hcs' Hadj' Hadv' Hreg' Hrs' Htr' Hag Hr Hlo Hmid Hhi Hres' Hok'.
  split; try congruence.
  - rewrite Hrs', length_app. lia.
  - rewrite Hrs', Htr'. rewrite drop_app_le by done.
    constructor; try done.
    eapply trace_rel_weaken; [by eapply trace_rel_stable|done].
  - intros i Hi. rewrite (ag_places _ _ _ _ _ _ Hag); [by apply Hpar|simpl; lia|].
    eapply lookup_lt_Some. by apply Hpar.
Qed.

Lemma arith_value_fmap {L L'} (f : L → L') (rd : L' → option F)
    (rd' : L → option F) o (px : list L) :
  Forall (λ l, rd (f l) = rd' l) px →
  arith_value rd o (f <$> px) = arith_value rd' o px.
Proof.
  intros Hpx. unfold arith_value.
  assert (∀ i, (f <$> px) !! i ≫= rd = px !! i ≫= rd') as Hi.
  { intros i. rewrite list_lookup_fmap. destruct (px !! i) as [l|] eqn:Hl;
      [|done]. simpl. rewrite Forall_forall in Hpx. apply Hpx.
    by eapply list_elem_of_lookup_2. }
  by rewrite !Hi.
Qed.

Local Abbreviation wpf Fail := (wp (λ _ _, Fail)).

Lemma Value_sim Fail x cidx s σ Q :
  fwd_rel cidx s σ →
  (∀ s', fwd_rel (cidx ++ [length (values s)]) s' (aalloc x σ) →
         Q (place_of (cidx ++ [length (values s)]) (ACell (length (cells σ))))
           s') →
  wpf Fail (Value x) Q s.
Proof.
  intros Hr HQ. apply wp_Value.
  pose proof (fr_mem _ _ _ Hr) as Hm.
  assert (place_of (cidx ++ [length (values s)]) (ACell (length (cells σ)))
          = LVal (length (values s))) as Hpl.
  { simpl. rewrite <- (mem_rel_length _ _ _ Hm).
    by rewrite list_lookup_total_middle. }
  rewrite <- Hpl. apply HQ.
  eapply fwd_rel_step0; try done.
  - by apply mem_rel_alloc.
  - apply agrees_cidx; [apply agrees_values_app|].
    by apply Forall_singleton.
  - simpl. rewrite place_of_app by apply (fr_result_ok _ _ _ Hr).
    apply (fr_result _ _ _ Hr).
  - apply aloc_ok_app, (fr_result_ok _ _ _ Hr).
Qed.

Lemma window_app cidx s s' p0 (ls : list aloc) :
  c_p c < p0 → p0 = length (places s) →
  places s' = places s ++ (place_of cidx <$> ls) →
  Forall (aloc_ok cidx) ls →
  window c s' cidx p0 ls.
Proof.
  intros Hc -> Hpl Hok. split; [done|]. intros j l Hl. split.
  - rewrite Hpl, lookup_app_r by lia.
    replace (length (places s) + j - length (places s)) with j by lia.
    by rewrite list_lookup_fmap, Hl.
  - rewrite Forall_forall in Hok. apply Hok. by eapply list_elem_of_lookup_2.
Qed.

Lemma window_app_take cidx s s' p0 (ls : list aloc) k :
  c_p c < p0 → p0 = length (places s) →
  places s' = places s ++ (place_of cidx <$> ls) →
  Forall (aloc_ok cidx) ls →
  window c s' cidx p0 (take k ls).
Proof.
  intros Hc -> Hpl Hok. split; [done|]. intros j l Hl.
  apply lookup_take_Some in Hl as [Hl _]. split.
  - rewrite Hpl, lookup_app_r by lia.
    replace (length (places s) + j - length (places s)) with j by lia.
    by rewrite list_lookup_fmap, Hl.
  - rewrite Forall_forall in Hok. apply Hok. by eapply list_elem_of_lookup_2.
Qed.

Lemma Arithmetic_sim Fail o (apx : list aloc) cidx s σ Q :
  let res := ACell (length (cells σ)) in
  let σ1 := aalloc fzero σ in
  let cidx1 := cidx ++ [length (values s)] in
  fwd_rel cidx s σ → Forall (aloc_ok cidx) apx →
  (∀ y s', arith_value (λ l, aread l σ1) o apx = Some y →
     fwd_rel cidx1 s'
       (emit (AArith o res (take (arity o) apx)) (awrite res y σ1)) →
     Q (place_of cidx1 res) s') →
  (arith_value (λ l, aread l σ1) o apx = None → Fail) →
  wpf Fail (Arithmetic o (place_of cidx <$> apx)) Q s.
Proof.
  intros res σ1 cidx1 Hr Hok HQ HF.
  pose proof (fr_mem _ _ _ Hr) as Hm.
  pose proof (fwd_rel_p _ _ _ Hr) as Hcp.
  assert (mem_rel cidx1 (set_values (λ vs, vs ++ [fzero]) s) σ1) as Hm1
    by (by apply mem_rel_alloc).
  assert (place_of cidx1 res = LVal (length (values s))) as Hpl.
  { subst res cidx1. simpl. rewrite <- (mem_rel_length _ _ _ Hm).
    by rewrite list_lookup_total_middle. }
  assert (aloc_ok cidx1 res) as Hres.
  { subst res cidx1. simpl. rewrite length_app. simpl.
    rewrite (mem_rel_length _ _ _ Hm). lia. }
  assert (Forall (aloc_ok cidx1) apx) as Hok1.
  { eapply Forall_impl; [done|]. intros l. apply aloc_ok_app. }
  assert (arith_value (λ l, read_loc l (set_values (λ vs, vs ++ [fzero]) s))
            o (place_of cidx <$> apx)
          = arith_value (λ l, aread l σ1) o apx) as Hval.
  { apply arith_value_fmap. rewrite Forall_forall. intros l Hl.
    rewrite Forall_forall in Hok.
    rewrite <- (place_of_app cidx [length (values s)]) by auto.
    apply read_rel; [done|]. rewrite Forall_forall in Hok1. auto. }
  apply wpf_Arithmetic; rewrite Hval; [|done].
  intros y Hy. rewrite <- Hpl. apply (HQ y); [done|].
  rewrite Hpl.
  set (s2 := set_records _ _).
  assert (mem_rel cidx1 s2 σ1) as Hm2 by (by eapply mem_rel_same).
  eapply (fwd_rel_step1 cidx cidx1 s _ σ _ (arith_record o s)); try done;
    try (simpl; rewrite ?length_insert, ?length_app; simpl; lia).
  - rewrite <- Hpl. eapply mem_rel_emit; [by apply mem_rel_write|done..].
  - apply agrees_cidx; [|by apply Forall_singleton].
    eapply agrees_trans; [|apply agrees_write].
    + subst s2. agrees_tac.
    + intros i [= <-]. right. done.
  - simpl. split; [done|]. split; [done|]. split.
    { apply arith_value_arity in Hy. rewrite length_take. lia. }
    replace (res :: take (arity o) apx) with (take (S (arity o)) (res :: apx))
      by done.
    apply (window_app_take cidx1 s); [done|done| |by constructor].
    subst s2. simpl places. rewrite fmap_cons, Hpl. subst cidx1.
    by rewrite place_of_fmap_app.
  - simpl. rewrite lookup_app_l by done.
    subst cidx1. rewrite place_of_app by apply (fr_result_ok _ _ _ Hr).
    apply (fr_result _ _ _ Hr).
  - apply aloc_ok_app, (fr_result_ok _ _ _ Hr).
Qed.

Lemma cidx_below cidx s σ i :
  mem_rel cidx s σ → length (values s) ≤ i → i ∉ cidx.
Proof. intros Hm Hi Hin. pose proof (mem_rel_bound _ _ _ _ Hm Hin). lia. Qed.

Lemma place_of_targets cidx s σ (ws : list (aloc * F)) vb :
  mem_rel cidx s σ → Forall (λ w, aloc_ok cidx w.1) ws →
  Forall (λ w : loc * F, ∀ i, w.1 = LVal i → i ∈ cidx ∨ vb ≤ i)
    (prod_map (place_of cidx) id <$> ws).
Proof.
  intros Hm Hws. apply Forall_fmap. eapply Forall_impl; [done|].
  intros [l x] Hl i Hi. simpl in *. left.
  destruct l as [k|k]; [|done]. simpl in Hi, Hl. inversion Hi; subst i.
  apply lookup_lt_is_Some in Hl as [i Hi'].
  rewrite (list_lookup_total_correct _ _ _ Hi').
  by eapply list_elem_of_lookup_2.
Qed.

Lemma place_of_targets_below cidx s σ (ws : list (aloc * F)) :
  mem_rel cidx s σ → Forall (λ w, aloc_ok cidx w.1) ws →
  Forall (λ w : loc * F, ∀ j, w.1 = LVal j → j < length (values s))
    (prod_map (place_of cidx) id <$> ws).
Proof.
  intros Hm Hws. apply Forall_fmap. eapply Forall_impl; [done|].
  intros [l x] Hl j Hj. simpl in *.
  pose proof (place_wf _ _ _ l Hm Hl) as Hwf. by rewrite Hj in Hwf.
Qed.

Lemma Forall_zip_fst {A B} (P : A → Prop) (l : list A) (k : list B) :
  Forall P l → Forall (λ w, P w.1) (zip l k).
Proof.
  intros Hl. apply Forall_forall. intros [x y] Hin.
  apply elem_of_zip_l in Hin. rewrite Forall_forall in Hl. by apply Hl.
Qed.

Lemma saved_at_app cidx s s' σ (xs : list F) :
  mem_rel cidx s σ →
  (∀ j x, xs !! j = Some x → values s' !! (length (values s) + j) = Some x) →
  saved_at s' cidx (length (values s)) xs.
Proof.
  intros Hm Hxs j x Hx. split; [by apply Hxs|].
  eapply cidx_below; [done|lia].
Qed.

(** [ParallelAssignment] on the places of [ts] and [ss]. *)
Lemma ParallelAssignment_sim Fail (ts ss : list aloc) cidx s σ Q :
  fwd_rel cidx s σ →
  Forall (aloc_ok cidx) ts → Forall (aloc_ok cidx) ss →
  length ts = length ss →
  (∀ σ' s', a_passign ts ss σ = Some σ' → fwd_rel cidx s' σ' →
            result σ' = result σ → Q tt s') →
  (a_passign ts ss σ = None → Fail) →
  wpf Fail (ParallelAssignment
              ((place_of cidx <$> ts) ++ (place_of cidx <$> ss))) Q s.
Proof.
  intros Hr Hts Hss Hlen HQ HF.
  pose proof (fr_mem _ _ _ Hr) as Hm.
  pose proof (fwd_rel_p _ _ _ Hr) as Hcp.
  pose proof (read_all_rel _ _ _ _ Hm Hts) as Hrt.
  pose proof (read_all_rel _ _ _ _ Hm Hss) as Hrs.
  apply wpf_ParallelAssignment.
  - by rewrite !length_fmap.
  - apply Forall_app. split; apply Forall_fmap;
      (eapply Forall_impl; [done|]); intros l Hl; by eapply place_wf.
  - intros olds news Holds Hnews. rewrite Hrt in Holds. rewrite Hrs in Hnews.
    assert (length olds = length ts) as Ho
      by (symmetry; by eapply length_mapM).
    set (s2 := set_records _ _).
    assert (mem_rel cidx s2 σ) as Hm2.
    { apply (mem_rel_same cidx (set_values (λ v, v ++ olds ++ news) s));
        [by apply mem_rel_values_app|done|done]. }
    destruct (write_all_logs (zip (place_of cidx <$> ts) news) s2)
      as (Hw1 & Hw2 & Hw3 & Hw4 & Hw5 & Hw6 & Hw7 & Hw8 & _).
    destruct (awrite_all_fields (zip ts news) σ) as (Ha1 & Ha2 & _).
    apply (HQ (emit (AAssign ts ss olds) (awrite_all (zip ts news) σ)));
      [unfold a_passign; by rewrite Holds, Hnews| |done].
    eapply (fwd_rel_step1 cidx cidx s _ σ _
              (assign_record (length (place_of cidx <$> ts)) s)
              (AAssign ts ss olds));
      rewrite ?Hw1, ?Hw2, ?Hw3, ?Hw4, ?Hw5, ?Hw6, ?Hw7, ?Hw8; try done;
      try (subst s2; simpl; rewrite ?length_insert, ?length_app; simpl; lia).
    + rewrite zip_place_of. eapply mem_rel_emit;
        [apply mem_rel_write_all; [done|by apply Forall_zip_fst]|done..].
    + simpl. by rewrite Ha1.
    + eapply agrees_trans; [|apply agrees_write_all].
      * subst s2. agrees_tac.
      * rewrite zip_place_of. eapply place_of_targets; [done|].
        by apply Forall_zip_fst.
    + simpl. rewrite length_fmap.
      do 4 (split; [done|]). split.
      * apply (window_app cidx s); [done|done| |by apply Forall_app].
        rewrite Hw2. subst s2. simpl. by rewrite fmap_app.
      * apply (saved_at_app _ s _ σ); [done|]. intros j x Hx.
        rewrite (write_all_values_above _ _ (length (values s)));
          [| |lia].
        -- subst s2. simpl. rewrite lookup_app_r by lia.
           replace (length (values s) + j - length (values s)) with j by lia.
           by apply lookup_app_l_Some.
        -- rewrite zip_place_of. eapply place_of_targets_below; [done|].
           by apply Forall_zip_fst.
    + simpl. rewrite Ha2. subst s2. simpl. rewrite lookup_app_l by done.
      apply (fr_result _ _ _ Hr).
    + simpl. rewrite Ha2. apply (fr_result_ok _ _ _ Hr).
  - rewrite Hrt, Hrs. intros Hn. apply HF. unfold a_passign.
    destruct Hn as [->| ->]; [done|].
    by destruct (mapM _ ts).
Qed.

Lemma fwd_rel_top cidx s σ : fwd_rel cidx s σ → last (cstack s) = Some c.
Proof. intros Hr. rewrite (fr_cstack _ _ _ Hr). apply last_snoc. Qed.

Lemma Assignment_sim Fail (t sr : aloc) cidx s σ Q :
  fwd_rel cidx s σ → aloc_ok cidx t → aloc_ok cidx sr →
  (∀ old y s', aread t σ = Some old → aread sr σ = Some y →
     fwd_rel cidx s' (emit (AAssign [t] [sr] [old]) (awrite t y σ)) →
     Q tt s') →
  (aread t σ = None ∨ aread sr σ = None → Fail) →
  wpf Fail (Assignment (place_of cidx t) (place_of cidx sr)) Q s.
Proof.
  intros Hr Ht Hsr HQ HF.
  pose proof (fr_mem _ _ _ Hr) as Hm.
  pose proof (fwd_rel_p _ _ _ Hr) as Hcp.
  apply wpf_Assignment; rewrite ?(read_rel cidx s σ) by done;
    [by eapply place_wf| |done].
  intros old y Hold Hy. apply (HQ old y); [done..|].
  set (s2 := set_records _ _).
  assert (mem_rel cidx s2 σ) as Hm2.
  { apply (mem_rel_same cidx (set_values (λ v, v ++ [old]) s));
      [by apply mem_rel_values_app|done|done]. }
  destruct (write_loc_logs (place_of cidx t) y s2)
    as (Hw1 & Hw2 & Hw3 & Hw4 & Hw5 & Hw6 & Hw7 & Hw8 & _).
  destruct (awrite_fields t y σ) as (Ha1 & Ha2 & _).
  eapply (fwd_rel_step1 cidx cidx s _ σ _ (assign_record 1 s)
            (AAssign [t] [sr] [old]));
    rewrite ?Hw1, ?Hw2, ?Hw3, ?Hw4, ?Hw5, ?Hw6, ?Hw7, ?Hw8; try done;
    try (subst s2; simpl; rewrite ?length_insert, ?length_app; simpl; lia).
  - eapply mem_rel_emit; [by apply mem_rel_write|done..].
  - simpl. by rewrite Ha1.
  - eapply agrees_trans; [|apply agrees_write].
    + subst s2. agrees_tac.
    + intros i Hi. left. destruct t as [k|k]; [|done]. simpl in Hi, Ht.
      inversion Hi; subst i.
      apply lookup_lt_is_Some in Ht as [i Hi'].
      rewrite (list_lookup_total_correct _ _ _ Hi').
      by eapply list_elem_of_lookup_2.
  - simpl. do 4 (split; [done|]). split.
    + apply (window_app cidx s); [done|done| |].
      * rewrite Hw2. subst s2. done.
      * by repeat constructor.
    + apply (saved_at_app _ s _ σ); [done|]. intros j x Hx.
      destruct j; [|done]. simpl in Hx. inversion Hx; subst x.
      rewrite Nat.add_0_r.
      pose proof (place_wf _ _ _ t Hm Ht) as Hwf.
      destruct (place_of cidx t) as [i|i] eqn:Hpl; simpl in *.
      * rewrite list_lookup_insert_ne by lia.
        subst s2. simpl. by rewrite list_lookup_middle.
      * subst s2. simpl. by rewrite list_lookup_middle.
  - simpl. rewrite Ha2. subst s2. simpl. rewrite lookup_app_l by done.
    apply (fr_result _ _ _ Hr).
  - simpl. rewrite Ha2. apply (fr_result_ok _ _ _ Hr).
Qed.

Lemma Return_sim Fail (l : aloc) cidx s σ Q :
  fwd_rel cidx s σ → aloc_ok cidx l →
  (∀ x s', aread l σ = Some x → fwd_rel cidx s' (set_result l σ) →
           Q x s') →
  (aread l σ = None → Fail) →
  wpf Fail (Return (place_of cidx l)) Q s.
Proof.
  intros Hr Hl HQ HF.
  pose proof (fr_mem _ _ _ Hr) as Hm.
  pose proof (fwd_rel_p _ _ _ Hr) as Hcp.
  apply (wpf_Return _ _ _ _ c); rewrite ?(read_rel cidx s σ) by done;
    [by eapply fwd_rel_top|done| |done].
  intros x Hx. apply (HQ x); [done|].
  eapply (fwd_rel_step0 cidx cidx s _ σ); try done.
  - by eapply mem_rel_emit; [eapply mem_rel_same|..].
  - apply agrees_places_insert.
  - simpl. by apply list_lookup_insert_eq.
Qed.

Lemma Elemental_sim Fail (f : efun) (apx : list aloc) cidx s σ Q :
  let res := ACell (length (cells σ)) in
  let σ1 := aalloc fzero σ in
  let cidx1 := cidx ++ [length (values s)] in
  fwd_rel cidx s σ → Forall (aloc_ok cidx) apx →
  (∀ g xs y s',
     lookup_gradient (fkey f) (registry s0) = Some g →
     mapM (λ l, aread l σ1) apx = Some xs →
     apply_fimpl (fcode f) xs = Some y →
     fwd_rel cidx1 s' (emit (AElem g res apx xs) (awrite res y σ1)) →
     Q (place_of cidx1 res) s') →
  (lookup_gradient (fkey f) (registry s0) = None ∨
   mapM (λ l, aread l σ1) apx = None ∨
   (∃ xs, mapM (λ l, aread l σ1) apx = Some xs ∧
          apply_fimpl (fcode f) xs = None) → Fail) →
  wpf Fail (Elemental f (place_of cidx <$> apx)) Q s.
Proof.
  intros res σ1 cidx1 Hr Hok HQ HF.
  pose proof (fr_mem _ _ _ Hr) as Hm.
  pose proof (fwd_rel_p _ _ _ Hr) as Hcp.
  set (s1 := set_values (λ vs, vs ++ [fzero]) s).
  assert (mem_rel cidx1 s1 σ1) as Hm1 by (by apply mem_rel_alloc).
  assert (place_of cidx1 res = LVal (length (values s))) as Hpl.
  { subst res cidx1. simpl. rewrite <- (mem_rel_length _ _ _ Hm).
    by rewrite list_lookup_total_middle. }
  assert (aloc_ok cidx1 res) as Hres.
  { subst res cidx1. simpl. rewrite length_app. simpl.
    rewrite (mem_rel_length _ _ _ Hm). lia. }
  assert (Forall (aloc_ok cidx1) apx) as Hok1.
  { eapply Forall_impl; [done|]. intros l. apply aloc_ok_app. }
  assert (Forall (loc_wf s) (place_of cidx <$> apx)) as Hwf.
  { apply Forall_fmap. eapply Forall_impl; [exact Hok|]. intros l Hl.
    by eapply place_wf. }
  assert (read_all (place_of cidx <$> apx) s
          = mapM (λ l, aread l σ1) apx) as Hrd.
  { rewrite <- (read_all_rel cidx1 s1) by done.
    subst cidx1 s1. rewrite place_of_fmap_app by done.
    by rewrite read_all_app. }
  assert (ElementalGradient f s = lookup_gradient (fkey f) (registry s0))
    as Hg.
  { unfold ElementalGradient. by rewrite (fr_registry _ _ _ Hr). }
  apply wpf_Elemental; rewrite ?Hrd, ?Hg; [done| |done].
  intros g xs y Hlk Hxs Hy. rewrite <- Hpl. apply (HQ g xs y); [done..|].
  rewrite Hpl.
  assert (length xs = length apx) as Hlen
    by (symmetry; by eapply length_mapM).
  set (s3 := elemental_logged _ _ _ _).
  assert (mem_rel cidx1 s3 σ1) as Hm3.
  { apply (mem_rel_same cidx1 (set_values (λ v, v ++ xs) s1));
      [by apply mem_rel_values_app|subst s3 s1; done|done]. }
  eapply (fwd_rel_step1 cidx cidx1 s _ σ _ (elemental_record s)
            (AElem g res apx xs)); try done;
    try (subst s3; simpl; rewrite ?length_insert, ?length_app; simpl; lia).
  - rewrite <- Hpl. eapply mem_rel_emit; [by apply mem_rel_write|done..].
  - apply agrees_cidx; [|by apply Forall_singleton].
    eapply agrees_trans; [|apply agrees_write].
    + subst s3. unfold elemental_logged. agrees_tac.
    + intros i [= <-]. by right.
  - simpl. split; [done|]. split; [lia|]. split.
    { rewrite Nat2Z.id. subst s3. simpl. rewrite length_fmap.
      by rewrite list_lookup_middle. }
    split; [done|]. split.
    + apply (window_app cidx1 s _ _ (res :: apx)); [done|done| |by constructor].
      subst s3. simpl places. rewrite fmap_cons, Hpl. subst cidx1.
      by rewrite place_of_fmap_app.
    + replace (length (values s) + 1) with (length (values s1))
        by (subst s1; simpl; rewrite length_app; done).
      apply (saved_at_app _ s1 _ σ1); [done|]. intros j x Hx.
      subst s3 s1. simpl. rewrite !length_app. simpl.
      rewrite list_lookup_insert_ne by lia.
      rewrite <- app_assoc.
      rewrite lookup_app_r by lia. rewrite lookup_app_r by (simpl; lia).
      simpl.
      by replace (length (values s) + 1 + j - length (values s) - 1)
        with j by lia.
  - simpl. subst s3. simpl. rewrite lookup_app_l by done.
    subst cidx1. rewrite place_of_app by apply (fr_result_ok _ _ _ Hr).
    apply (fr_result _ _ _ Hr).
  - apply aloc_ok_app, (fr_result_ok _ _ _ Hr).
Qed.

(** ** Operands *)

Lemma resolve_rel cidx env aenv o :
  env_rel cidx env aenv →
  resolve_opt env o = place_of cidx <$> aresolve aenv o.
Proof.
  intros [-> _]. destruct o; simpl; [by rewrite list_lookup_fmap|done].
Qed.

Lemma aresolve_ok cidx env aenv o l :
  env_rel cidx env aenv → aresolve aenv o = Some l → aloc_ok cidx l.
Proof.
  intros [_ Hok]. destruct o; simpl.
  - intros Hl. rewrite Forall_forall in Hok. apply Hok.
    by eapply list_elem_of_lookup_2.
  - by intros [= <-].
Qed.

Lemma resolve_all_rel cidx env aenv os :
  env_rel cidx env aenv →
  mapM (resolve_opt env) os = fmap (place_of cidx) <$> mapM (aresolve aenv) os.
Proof.
  intros He. induction os as [|o os IH]; [done|]. cbn [mapM].
  rewrite (resolve_rel cidx env aenv) by done. rewrite IH.
  destruct (aresolve aenv o); [|done]. simpl.
  by destruct (mapM (aresolve aenv) os).
Qed.

Lemma aresolve_all_ok cidx env aenv os als :
  env_rel cidx env aenv → mapM (aresolve aenv) os = Some als →
  Forall (aloc_ok cidx) als.
Proof.
  intros He Hm. apply mapM_Some in Hm.
  induction Hm; constructor; eauto using aresolve_ok.
Qed.

Lemma resolve_sim Fail cidx env aenv o Q s :
  env_rel cidx env aenv →
  (∀ l, aresolve aenv o = Some l → aloc_ok cidx l → Q (place_of cidx l) s) →
  (aresolve aenv o = None → Fail) →
  wpf Fail (resolve env o) Q s.
Proof.
  intros He HQ HF.
  apply wpf_resolve; rewrite (resolve_rel cidx env aenv) by done.
  - destruct (aresolve aenv o) as [l|] eqn:Ha; [|done].
    intros l' [= <-]. apply HQ; [done|]. by eapply aresolve_ok.
  - destruct (aresolve aenv o); [done|]. auto.
Qed.

Lemma resolve_all_sim Fail cidx env aenv os Q s :
  env_rel cidx env aenv →
  (∀ als, mapM (aresolve aenv) os = Some als → Forall (aloc_ok cidx) als →
          length als = length os → Q (place_of cidx <$> als) s) →
  (mapM (aresolve aenv) os = None → Fail) →
  wpf Fail (resolve_all env os) Q s.
Proof.
  intros He HQ HF.
  apply wpf_resolve_all; rewrite (resolve_all_rel cidx env aenv) by done.
  - destruct (mapM (aresolve aenv) os) as [als|] eqn:Ha; [|done].
    intros l' [= <-]. apply HQ; [done|by eapply aresolve_all_ok|].
    symmetry. by eapply length_mapM.
  - destruct (mapM (aresolve aenv) os); [done|]. auto.
Qed.

(** ** Calls *)

Lemma mem_rel_alloc_n cidx s σ k :
  mem_rel cidx s σ →
  mem_rel (cidx ++ seq (length (values s)) k)
    (set_values (λ vs, vs ++ replicate k fzero) s) (aalloc_n k σ).
Proof.
  intros Hm. pose proof Hm as [Hh Hc Hn]. split; simpl; [done| |].
  - apply Forall2_app.
    + eapply Forall2_impl; [done|]. intros i x Hi. by apply lookup_app_l_Some.
    + apply Forall2_same_length_lookup_2;
        [by rewrite length_seq, length_replicate|].
      intros i j x Hj Hx. apply lookup_seq in Hj as [-> Hi].
      apply lookup_replicate in Hx as [-> _].
      rewrite lookup_app_r by lia.
      apply lookup_replicate. split; [done|lia].
  - apply NoDup_app. split; [done|]. split; [|apply NoDup_seq].
    intros i Hi Hs. apply elem_of_seq in Hs.
    eapply (cidx_below cidx s σ i); [done|lia|done].
Qed.

Lemma fwd_rel_alloc_n cidx s σ k :
  fwd_rel cidx s σ →
  fwd_rel (cidx ++ seq (length (values s)) k)
    (set_values (λ vs, vs ++ replicate k fzero) s) (aalloc_n k σ).
Proof.
  intros Hr. eapply fwd_rel_step0; try done.
  - by apply mem_rel_alloc_n, (fr_mem _ _ _ Hr).
  - apply agrees_cidx; [apply agrees_values_app|].
    apply Forall_forall. intros i Hi. apply elem_of_seq in Hi. lia.
  - simpl. rewrite place_of_app by apply (fr_result_ok _ _ _ Hr).
    apply (fr_result _ _ _ Hr).
  - apply aloc_ok_app, (fr_result_ok _ _ _ Hr).
Qed.

Lemma place_of_fresh cidx s σ k :
  mem_rel cidx s σ →
  place_of (cidx ++ seq (length (values s)) k) <$> fresh_cells k σ
  = LVal <$> seq (length (values s)) k.
Proof.
  intros Hm. unfold fresh_cells. rewrite <- list_fmap_compose.
  rewrite <- (mem_rel_length _ _ _ Hm).
  apply list_eq. intros i. rewrite !list_lookup_fmap.
  destruct (decide (i < k)) as [Hi|Hi].
  - rewrite !lookup_seq_lt by done. simpl. f_equal. f_equal.
    apply list_lookup_total_correct. rewrite lookup_app_r by lia.
    replace (length cidx + i - length cidx) with i by lia.
    by rewrite lookup_seq_lt by done.
  - by rewrite !lookup_seq_ge by lia.
Qed.

Lemma a_passign_fields ts ss σ σ' :
  a_passign ts ss σ = Some σ' →
  (∃ a, trace σ' = trace σ ++ [a]) ∧ result σ' = result σ.
Proof.
  unfold a_passign. intros Hp.
  destruct (mapM _ ts) as [olds|]; [|done]. simpl in Hp.
  destruct (mapM _ ss) as [news|]; [|done]. simpl in Hp.
  inversion Hp; subst σ'. simpl.
  destruct (awrite_all_fields (zip ts news) σ) as (-> & -> & _).
  split; [by eexists|done].
Qed.

Lemma variadic_sim Fail (avs : list aloc) cidx s σ Q :
  fwd_rel cidx s σ → Forall (aloc_ok cidx) avs →
  (∀ σ' s',
     a_passign (fresh_cells (length avs) σ) avs (aalloc_n (length avs) σ)
       = Some σ' →
     fwd_rel (cidx ++ seq (length (values s)) (length avs)) s' σ' →
     Q (place_of (cidx ++ seq (length (values s)) (length avs))
          <$> fresh_cells (length avs) σ) s') →
  (a_passign (fresh_cells (length avs) σ) avs (aalloc_n (length avs) σ)
     = None → Fail) →
  wpf Fail (variadic (place_of cidx <$> avs)) Q s.
Proof.
  intros Hr Hok HQ HF. unfold variadic. rewrite length_fmap.
  do 3 wp_step. apply wpf_fresh_sides. do 3 wp_step. simpl.
  rewrite length_app, length_replicate.
  replace (length (values s) + length avs - length (values s))
    with (length avs) by lia.
  pose proof (fr_mem _ _ _ Hr) as Hm.
  set (cidx' := cidx ++ seq (length (values s)) (length avs)).
  rewrite <- (place_of_fresh cidx s σ) by done. fold cidx'.
  rewrite <- (place_of_fmap_app cidx (seq (length (values s)) (length avs)))
    by done. fold cidx'.
  apply (ParallelAssignment_sim Fail _ _ cidx' _ (aalloc_n (length avs) σ)).
  - by apply fwd_rel_alloc_n.
  - unfold fresh_cells. apply Forall_fmap, Forall_forall.
    intros i Hi. apply elem_of_seq in Hi. simpl. unfold cidx'.
    rewrite length_app, length_seq, (mem_rel_length _ _ _ Hm). lia.
  - eapply Forall_impl; [exact Hok|]. intros l. apply aloc_ok_app.
  - unfold fresh_cells. by rewrite length_fmap, length_seq.
  - intros σ' s' Hp Hr' _. wp_step. by apply (HQ σ').
  - done.
Qed.

Lemma wpf_register Fail x (Q : unit → state → Prop) s :
  Q tt (set_places (λ ps, ps ++ x) s) → wpf Fail (register x) Q s.
Proof. intros HQ. unfold wp. by rewrite register_eq. Qed.

Lemma Enter_sim Fail (aform aact : list aloc) cidx s σ Q :
  fwd_rel cidx s σ →
  Forall (aloc_ok cidx) aform → Forall (aloc_ok cidx) aact →
  length aform = length aact →
  (∃ ps, places s = ps ++ (place_of cidx <$> aact)) →
  (∀ σ' s', a_passign aform aact σ = Some σ' → fwd_rel cidx s' σ' →
            Q tt s') →
  (a_passign aform aact σ = None → Fail) →
  wpf Fail (Enter (place_of cidx <$> aform)) Q s.
Proof.
  intros Hr Hf Ha Hlen [ps Hps] HQ HF. unfold Enter. rewrite length_fmap.
  wp_step. wp_step.
  2:{ exfalso. rewrite Hps, length_app, length_fmap in *. lia. }
  do 2 wp_step.
  assert (take (length aform)
            (drop (length (places s) - length aform) (places s))
          = place_of cidx <$> aact) as ->.
  { rewrite Hps, length_app, length_fmap, Hlen.
    replace (length ps + length aact - length aact) with (length ps) by lia.
    rewrite drop_app_length. apply take_ge. by rewrite length_fmap. }
  apply (ParallelAssignment_sim Fail _ _ cidx s σ); try done.
  intros σ' s' Hp Hr' _. by apply (HQ σ').
Qed.

Lemma fwd_rel_retype cidx s σ i r :
  fwd_rel cidx s σ → records s !! i = Some r → c_r c ≤ i →
  trace σ !! (i - c_r c) = Some ADummy →
  fwd_rel cidx
    (set_records
       (λ rs, <[i := {| typ := typDummy; op := op r; p := p r; v := v r |}]>
                rs) s) σ.
Proof.
  intros [Hm Hcs Hadj Hadv Hreg Hrs Htr Hres Hok Hpar] Hi Hle Hd.
  split; simpl; try done.
  - by eapply mem_rel_same.
  - by rewrite length_insert.
  - rewrite drop_insert_ge by done.
    eapply trace_rel_retype with (r := r); [| |done|done].
    + eapply trace_rel_stable; [done|]. apply agrees_records.
    + simpl in Hle. rewrite lookup_drop, <- Hi. f_equal. lia.
Qed.

Lemma Call_sim Fail f (aact avs : list aloc) (R : list nat → astate → Prop)
    cidx s σ Q :
  fwd_rel cidx s σ →
  Forall (aloc_ok cidx) aact → Forall (aloc_ok cidx) avs →
  (∀ vararg s', wp (λ _ _, True) (f vararg) (λ _ s'', grows s' s'') s') →
  (∀ cidx1 s1 σ1,
     a_variadic avs σ = Some σ1 →
     (∃ more, cidx1 = cidx ++ more) →
     fwd_rel cidx1 s1 (emit ADummy σ1) →
     (∃ ps, places s1 = ps ++ (place_of cidx1 <$> aact)) →
     (∃ tr, trace σ1 = trace σ ++ tr) →
     Forall (aloc_ok cidx1) (a_vararg avs σ) →
     wpf Fail (f (place_of cidx1 <$> a_vararg avs σ))
       (λ _ s4, ∃ cidx4 σ4, fwd_rel cidx4 s4 σ4 ∧
          (trace σ1 ++ [ADummy]) `prefix_of` trace σ4 ∧ R cidx4 σ4) s1) →
  (∀ cidx4 s4 σ4, fwd_rel cidx4 s4 σ4 → R cidx4 σ4 →
                  Q (place_of cidx4 (result σ4)) s4) →
  (a_variadic avs σ = None → Fail) →
  wpf Fail (Call f (length aact) (place_of cidx <$> (aact ++ avs))) Q s.
Proof.
  intros Hr Hact Hvs Hgrows Hf HQ HF. unfold Call.
  rewrite fmap_app, length_app, !length_fmap.
  rewrite drop_app_length', take_app_length' by (by rewrite length_fmap).
  wp_step.
  apply (wp_mono _ _ (λ vararg s1, ∃ cidx1 σ1,
           a_variadic avs σ = Some σ1 ∧ (∃ more, cidx1 = cidx ++ more) ∧
           fwd_rel cidx1 s1 σ1 ∧
           vararg = place_of cidx1 <$> a_vararg avs σ ∧
           Forall (aloc_ok cidx1) (a_vararg avs σ) ∧
           ∃ tr, trace σ1 = trace σ ++ tr)).
  { wp_step.
    - destruct avs as [|v avs']; [simpl in *; lia|].
      apply (variadic_sim Fail _ cidx s σ); [done|done| |done].
      intros σ1 s1 Hp Hr1.
      exists (cidx ++ seq (length (values s)) (length (v :: avs'))), σ1.
      do 2 (split; [by eauto|]).
      split; [done|]. split; [done|]. split.
      { unfold a_vararg, fresh_cells. apply Forall_fmap, Forall_forall.
        intros i Hi. apply elem_of_seq in Hi. unfold compose, aloc_ok.
        rewrite length_app, length_seq,
          (mem_rel_length _ _ _ (fr_mem _ _ _ Hr)). lia. }
      apply a_passign_fields in Hp as [[a Ha] _]. by exists [a].
    - destruct avs as [|v avs']; [|simpl in *; lia].
      wp_step. exists cidx, σ. split; [done|]. split.
      { exists []. by rewrite app_nil_r. }
      split; [done|]. split; [done|]. split; [done|].
      exists []. by rewrite app_nil_r. }
  intros vararg s1 (cidx1 & σ1 & Hv & [more ->] & Hr1 & -> & Hvar & Htr1).
  wp_step. wp_step; [|lia]. wp_step.
  apply wpf_register. do 4 wp_step.
  set (s2 := set_records _ _).
  assert (fwd_rel (cidx ++ more) s2 (emit ADummy σ1)) as Hr2.
  { eapply (fwd_rel_step1 (cidx ++ more) (cidx ++ more) s1 s2 σ1 _ _ ADummy);
      try done.
    - eapply (mem_rel_emit _ _ σ1); [|done..].
      by eapply mem_rel_same; [apply (fr_mem _ _ _ Hr1)|..].
    - subst s2. agrees_tac.
    - by right.
    - simpl. rewrite lookup_app_l by apply (fwd_rel_p _ _ _ Hr1).
      apply (fr_result _ _ _ Hr1).
    - apply (fr_result_ok _ _ _ Hr1). }
  wp_step. eapply wp_mono.
  { apply wp_and; [apply Hgrows|].
    apply (Hf (cidx ++ more) s2 σ1); [done|by eexists|done| |done|done].
    exists (places s1). subst s2. simpl.
    by rewrite place_of_fmap_app. }
  intros ? s4 [Hg (cidx4 & σ4 & Hr4 & Hpre & HR)]. simpl in Hg.
  unfold set_typ.
  pose proof (trace_rel_length _ _ _ _ _ _ (fr_trace _ _ _ Hr1)) as Hlen.
  rewrite length_drop in Hlen.
  pose proof (fr_records _ _ _ Hr1) as Hle.
  assert (records s4 !! length (records s1)
          = Some {| typ := typCall; op := 0; p := 0; v := 0 |}) as Hmark.
  { eapply prefix_lookup_Some; [|apply (grows_records _ _ Hg)].
    subst s2. simpl. by rewrite list_lookup_middle. }
  cbn [records set_places]. do 3 wp_step; [|congruence]. rewrite Hmark in *.
  match goal with Heq : Some _ = Some _ |- _ => inversion Heq; subst end.
  do 2 wp_step.
  set (s5 := set_records _ s4).
  assert (fwd_rel cidx4 s5 σ4) as Hr5.
  { apply (fwd_rel_retype cidx4 s4 σ4 _ _ Hr4 Hmark); [lia|].
    eapply prefix_lookup_Some; [|done].
    rewrite Hlen. by rewrite list_lookup_middle. }
  eapply wpf_top_frame; [by eapply fwd_rel_top|].
  wp_step.
  - rewrite (fr_result _ _ _ Hr5) in *.
    match goal with Heq : Some _ = Some _ |- _ => inversion Heq; subst end.
    by apply HQ.
  - by rewrite (fr_result _ _ _ Hr5) in *.
Qed.

(** ** Forward runs *)

Lemma closure_grows env (args : list (operand * operand)) body vararg s :
  wp (λ _ _, True)
    (let* formals := resolve_all env (args.*1) in
     Enter formals >> run body (env ++ vararg))
    (λ _ s', grows s s') s.
Proof.
  wp_step. apply resolve_all_pure; [done|]. intros formals. wp_step.
  eapply wp_mono; [by apply Enter_grows|].
  intros ? s1 Hs1. apply wp_grows_trans; [done|by apply run_grows].
Qed.

(** The tape after a run stands for the machine after the same run. *)
Definition sim_post (P : prog) aenv cidx σ : unit → state → Prop :=
  λ _ s', ∃ cidx' σ',
    arun (registry s0) P aenv σ = Some σ' ∧ fwd_rel cidx' s' σ' ∧
    (∃ tr, trace σ' = trace σ ++ tr) ∧ ∃ more, cidx' = cidx ++ more.

Lemma sim_step (P k : prog) aenv aenv' cidx cidx1 σ σ1 env' s1 :
  arun (registry s0) P aenv σ = arun (registry s0) k aenv' σ1 →
  (∃ tr, trace σ1 = trace σ ++ tr) → (∃ more, cidx1 = cidx ++ more) →
  wpf (arun (registry s0) k aenv' σ1 = None) (run k env')
    (sim_post k aenv' cidx1 σ1) s1 →
  wpf (arun (registry s0) P aenv σ = None) (run k env')
    (sim_post P aenv cidx σ) s1.
Proof.
  intros Heq [tr Htr] [more ->] Hwp. rewrite Heq.
  eapply wp_mono; [exact Hwp|].
  intros ? s' (cidx' & σ' & Hrun & Hr & [tr' Htr'] & [more' ->]).
  exists ((cidx ++ more) ++ more'), σ'. rewrite Heq.
  do 2 (split; [done|]). split.
  - exists (tr ++ tr'). by rewrite Htr', Htr, app_assoc.
  - exists (more ++ more'). by rewrite app_assoc.
Qed.

Lemma run_sim P cidx s σ env aenv :
  fwd_rel cidx s σ → env_rel cidx env aenv →
  wpf (arun (registry s0) P aenv σ = None) (run P env)
    (sim_post P aenv cidx σ) s.
Proof.
  revert cidx s σ env aenv.
  induction P as [|x k IH|o px k IH|p px k IH|ppx k IH|f px k IH|px k IH
                 |args varargs body IHbody k IH];
    intros cidx s σ env aenv Hr He; cbn [run].
  - wp_step. exists cidx, σ. do 2 (split; [done|]).
    split; exists []; by rewrite app_nil_r.
  - wp_step. apply (Value_sim _ x cidx s σ); [done|]. intros s1 Hr1.
    eapply sim_step; [done|by exists []; rewrite app_nil_r|by eexists|].
    apply IH; [done|]. apply env_rel_snoc; [by apply env_rel_app|].
    simpl. rewrite length_app, (mem_rel_length _ _ _ (fr_mem _ _ _ Hr)).
    simpl. lia.
  - wp_step.
    apply (resolve_all_sim _ cidx env aenv); [done| |by intros Hn; simpl; rewrite Hn].
    intros apx Hm Hok _. wp_step.
    apply (Arithmetic_sim _ o apx cidx s σ); [done|done| |].
    2:{ intros Hn. simpl. rewrite Hm. simpl. by rewrite Hn. }
    intros y s1 Hy Hr1.
    eapply sim_step; [simpl; rewrite Hm; simpl; by rewrite Hy| | |].
    + simpl. by eexists.
    + by eexists.
    + apply IH; [done|]. apply env_rel_snoc; [by apply env_rel_app|].
      simpl. rewrite length_app, (mem_rel_length _ _ _ (fr_mem _ _ _ Hr)).
      simpl. lia.
  - wp_step.
    apply (resolve_sim _ cidx env aenv); [done| |by intros Hn; simpl; rewrite Hn].
    intros t Ht Htok. wp_step.
    apply (resolve_sim _ cidx env aenv); [done| |by intros Hn; simpl; rewrite Ht; simpl; rewrite Hn].
    intros sr Hs Hsok. wp_step.
    apply (Assignment_sim _ t sr cidx s σ); [done..| |].
    2:{ intros [Hn|Hn]; simpl; rewrite Ht; simpl; rewrite Hs; simpl;
          rewrite Hn; [done|]. by destruct (aread t σ). }
    intros old y s1 Hold Hy Hr1.
    eapply sim_step;
      [simpl; rewrite Ht; simpl; rewrite Hs; simpl; rewrite Hold; simpl;
       by rewrite Hy| | |].
    + simpl. destruct (awrite_fields t y σ) as (-> & _). by eexists.
    + exists []. by rewrite app_nil_r.
    + by apply IH.
  - wp_step.
    apply (resolve_all_sim _ cidx env aenv); [done| |by intros Hn; simpl; rewrite Hn].
    intros ts Ht Htok Htlen. wp_step.
    apply (resolve_all_sim _ cidx env aenv); [done| |by intros Hn; simpl; rewrite Ht; simpl; rewrite Hn].
    intros ss Hs Hsok Hslen. wp_step.
    apply (ParallelAssignment_sim _ ts ss cidx s σ); [done..| | |].
    { by rewrite Htlen, Hslen, !length_fmap. }
    2:{ intros Hn; simpl; rewrite Ht; simpl; rewrite Hs; simpl;
          by rewrite Hn. }
    intros σ1 s1 Hp Hr1 _.
    eapply sim_step;
      [simpl; rewrite Ht; simpl; rewrite Hs; simpl; by rewrite Hp| | |].
    + apply a_passign_fields in Hp as [[a Ha] _]. by exists [a].
    + exists []. by rewrite app_nil_r.
    + by apply IH.
  - wp_step.
    apply (resolve_all_sim _ cidx env aenv); [done| |by intros Hn; simpl; rewrite Hn].
    intros apx Hm Hok _. wp_step.
    apply (Elemental_sim _ f apx cidx s σ); [done|done| |].
    2:{ intros [Hn|[Hn|(xs & Hxs & Hn)]]; simpl; rewrite Hm; simpl.
        - by rewrite Hn.
        - destruct (lookup_gradient _ _); [|done]. simpl. by rewrite Hn.
        - destruct (lookup_gradient _ _); [|done]. simpl. rewrite Hxs.
          simpl. by rewrite Hn. }
    intros g xs y s1 Hg Hxs Hy Hr1.
    eapply sim_step;
      [simpl; rewrite Hm; simpl; rewrite Hg; simpl; rewrite Hxs; simpl;
       by rewrite Hy| | |].
    + simpl. by eexists.
    + by eexists.
    + apply IH; [done|]. apply env_rel_snoc; [by apply env_rel_app|].
      simpl. rewrite length_app, (mem_rel_length _ _ _ (fr_mem _ _ _ Hr)).
      simpl. lia.
  - wp_step.
    apply (resolve_sim _ cidx env aenv); [done| |by intros Hn; simpl; rewrite Hn].
    intros l Hl Hlok. wp_step.
    apply (Return_sim _ l cidx s σ); [done|done| |].
    2:{ intros Hn. simpl. rewrite Hl. simpl. by rewrite Hn. }
    intros x s1 Hx Hr1.
    eapply sim_step; [simpl; rewrite Hl; simpl; by rewrite Hx| | |].
    + exists []. by rewrite app_nil_r.
    + exists []. by rewrite app_nil_r.
    + by apply IH.
  - wp_step.
    apply (resolve_all_sim _ cidx env aenv); [done| |by intros Hn; simpl; rewrite Hn].
    intros aact Ha Haok Halen. wp_step.
    apply (resolve_all_sim _ cidx env aenv); [done| |by intros Hn; simpl; rewrite Ha; simpl; rewrite Hn].
    intros avs Hv Hvok _. wp_step.
    assert (length args = length aact) as -> by (by rewrite Halen, length_fmap).
    rewrite <- fmap_app.
    apply (Call_sim _ _ aact avs
             (λ cidx4 σ4, ∃ σ1 formals σ2,
                a_variadic avs σ = Some σ1 ∧
                mapM (aresolve aenv) (args.*1) = Some formals ∧
                a_passign formals aact (emit ADummy σ1) = Some σ2 ∧
                arun (registry s0) body (aenv ++ a_vararg avs σ) σ2 = Some σ4 ∧
                (∃ tr, trace σ4 = trace σ ++ tr) ∧
                ∃ more, cidx4 = cidx ++ more) cidx s σ); [done..| | | |].
    + intros vararg s'. apply closure_grows.
    + intros cidx1 s1 σ1 Hσ1 [more ->] Hr1 Hps [tr1 Htr1] Hvar.
      assert (env_rel (cidx ++ more) env aenv) as He1 by (by apply env_rel_app).
      wp_step.
      apply (resolve_all_sim _ (cidx ++ more) env aenv); [done| |].
      2:{ intros Hn. simpl. rewrite Ha. simpl. rewrite Hv. simpl.
          rewrite Hσ1. simpl. by rewrite Hn. }
      intros aform Hf Hfok Hflen. wp_step.
      apply (Enter_sim _ aform aact (cidx ++ more) s1 (emit ADummy σ1));
        [done|done| | |done| |].
      { eapply Forall_impl; [exact Haok|]. intros l. apply aloc_ok_app. }
      { by rewrite Hflen, Halen, !length_fmap. }
      2:{ intros Hn. simpl. rewrite Ha. simpl. rewrite Hv. simpl.
          rewrite Hσ1. simpl. rewrite Hf. simpl. by rewrite Hn. }
      intros σ2 s2 Hp Hr2.
      pose proof Hp as Hp'. apply a_passign_fields in Hp' as [[a Htr2] _].
      eapply wp_wand.
      * apply (IHbody (cidx ++ more) s2 σ2 (env ++ _) (aenv ++ a_vararg avs σ));
          [done|].
        split; [by rewrite fmap_app; destruct He1 as [-> _]|].
        apply Forall_app. split; [by destruct He1|done].
      * intros ? s4 (cidx4 & σ4 & Hrun & Hr4 & [tr4 Htr4] & [more4 ->]).
        exists ((cidx ++ more) ++ more4), σ4. split; [done|]. split.
        { rewrite Htr4, Htr2. simpl. rewrite <- app_assoc.
          by apply prefix_app_r. }
        exists σ1, aform, σ2. do 4 (split; [done|]). split.
        { rewrite Htr4, Htr2. simpl. rewrite Htr1, <- !app_assoc.
          by eexists. }
        exists (more ++ more4). by rewrite app_assoc.
      * intros e s4 Hn. simpl. rewrite Ha. simpl. rewrite Hv. simpl.
        rewrite Hσ1. simpl. rewrite Hf. simpl. rewrite Hp. simpl.
        by rewrite Hn.
    + intros cidx4 s4 σ4 Hr4
        (σ1 & aform & σ2 & Hσ1 & Hf & Hp & Hrun & Htr4 & [more ->]).
      eapply sim_step;
        [simpl; rewrite Ha; simpl; rewrite Hv; simpl; rewrite Hσ1; simpl;
         rewrite Hf; simpl; rewrite Hp; simpl; by rewrite Hrun
        |done|by eexists|].
      apply IH; [done|]. apply env_rel_snoc; [by apply env_rel_app|].
      apply (fr_result_ok _ _ _ Hr4).
    + intros Hn. simpl. rewrite Ha. simpl. rewrite Hv. simpl. by rewrite Hn.
Qed.

End Forward.

(** ** The adjoint index

    [backward] gives every place of the frame an adjoint slot: equal
    locations share a slot, different locations have different slots, and
    the slots are new, zero entries of the adjoint buffer. *)

Section Index.
Context {F : Type} `{Float64 F}.
Variable (c : counters).

Implicit Types (s : @state F).

(** [s'] is [s] up to the adjoint index and the adjoint buffer. *)
Record same_logs s s' : Prop := {
  sl_records : records s' = records s;
  sl_places : places s' = places s;
  sl_values : values s' = values s;
  sl_elementals : elementals s' = elementals s;
  sl_cstack : cstack s' = cstack s;
  sl_registry : registry s' = registry s;
  sl_heap : heap s' = heap s
}.

Lemma same_logs_refl s : same_logs s s.
Proof. by split. Qed.

Lemma same_logs_trans s1 s2 s3 :
  same_logs s1 s2 → same_logs s2 s3 → same_logs s1 s3.
Proof. intros [] []. split; congruence. Qed.

(** The loop invariant of [build_index] before place [k], with the index
    [adj1] and the buffer [adv1] at the start of the loop. *)
Record binv (adj1 : list nat) (adv1 : list F) s (k : nat)
    (m : gmap loc nat) : Prop := {
  bi_len : length (places s) ≤ length (adj s);
  bi_adv : ∃ q, adv s = adv1 ++ replicate q fzero;
  bi_low : ∀ i, i < c_p c → adj s !! i = adj1 !! i;
  bi_first : if decide (k = c_p c) then m = ∅ ∧ adv s = adv1
             else adj s !! c_p c = Some (length adv1);
  bi_dom : ∀ i l, c_p c ≤ i → i < k → places s !! i = Some l →
             ∃ j, m !! l = Some j ∧ adj s !! i = Some j;
  bi_rng : ∀ l j, m !! l = Some j → length adv1 ≤ j < length (adv s);
  bi_inj : ∀ l l' j, m !! l = Some j → m !! l' = Some j → l = l'
}.

Record indexed (adj1 : list nat) (adv1 : list F) s : Prop := {
  ix_len : length (places s) ≤ length (adj s);
  ix_adv : ∃ q, adv s = adv1 ++ replicate q fzero;
  ix_low : ∀ i, i < c_p c → adj s !! i = adj1 !! i;
  ix_first : c_p c < length (places s) →
             adj s !! c_p c = Some (length adv1);
  ix_slot : ∀ i, c_p c ≤ i → i < length (places s) →
              ∃ j, adj s !! i = Some j ∧ length adv1 ≤ j < length (adv s);
  ix_alias : ∀ i i' l l' j j', c_p c ≤ i → c_p c ≤ i' →
               places s !! i = Some l → places s !! i' = Some l' →
               adj s !! i = Some j → adj s !! i' = Some j' →
               (l = l' ↔ j = j')
}.

Lemma binv_indexed adj1 adv1 s m :
  binv adj1 adv1 s (length (places s)) m → c_p c ≤ length (places s) →
  indexed adj1 adv1 s.
Proof.
  intros [Hlen Hadv Hlow Hfirst Hdom Hrng Hinj] Hc. split; try done.
  - intros Hlt. case_decide; [lia|done].
  - intros i Hi Hi'. destruct (lookup_lt_is_Some_2 (places s) i Hi') as [l Hl].
    destruct (Hdom i l Hi Hi' Hl) as (j & Hm & Hj).
    exists j. split; [done|]. by eapply Hrng.
  - intros i i' l l' j j' Hi Hi' Hl Hl' Hj Hj'.
    destruct (Hdom i l Hi (lookup_lt_Some _ _ _ Hl) Hl) as (j1 & Hm & Hj1).
    destruct (Hdom i' l' Hi' (lookup_lt_Some _ _ _ Hl') Hl')
      as (j1' & Hm' & Hj1').
    assert (j1 = j) as -> by congruence.
    assert (j1' = j') as -> by congruence.
    split; [intros ->; congruence|intros ->; by eapply Hinj].
Qed.

Lemma build_index_indexed E adj1 adv1 d k m s s1 (Q : unit → state → Prop) :
  binv adj1 adv1 s k m → same_logs s1 s → c_p c ≤ k →
  k + d = length (places s) →
  (∀ s', indexed adj1 adv1 s' → same_logs s1 s' → Q tt s') →
  wp E (build_index (seq k d) m) Q s.
Proof.
  revert k m s. induction d as [|d IH]; intros k m s Hb Hsl Hk Hd HQ.
  - simpl. wp_step. rewrite Nat.add_0_r in Hd. subst k.
    apply HQ; [by eapply binv_indexed|done].
  - cbn [seq build_index]. wp_step. unfold place. wp_step.
    2:{ match goal with Hn : _ !! _ = None |- _ =>
          apply lookup_ge_None in Hn; lia end. }
    rename a into pl.
    match goal with Hp : places s !! k = Some pl |- _ => rename Hp into Hpl end.
    destruct Hb as [Hlen [q Hadv] Hlow Hfirst Hdom Hrng Hinj].
    destruct (m !! pl) as [j|] eqn:Hm.
    + wp_step. unfold set_adj_at. wp_step. wp_step; [|lia]. wp_step.
      apply IH; [|by eapply same_logs_trans; [done|split]|lia|simpl; lia|done].
      split; simpl.
      * by rewrite length_insert.
      * by exists q.
      * intros i Hi. rewrite list_lookup_insert_ne by lia. by apply Hlow.
      * destruct (decide (S k = c_p c)) as [?|_]; [lia|].
        destruct (decide (k = c_p c)) as [->|?].
        -- destruct Hfirst as [-> _]. by rewrite lookup_empty in Hm.
        -- rewrite list_lookup_insert_ne by lia. done.
      * intros i l Hi Hi' Hl. destruct (decide (i = k)) as [->|Hne].
        -- assert (l = pl) as -> by congruence. exists j. split; [done|].
           apply list_lookup_insert_eq. lia.
        -- rewrite list_lookup_insert_ne by done. apply Hdom; [done|lia|done].
      * done.
      * done.
    + do 2 wp_step. wp_step. unfold set_adj_at.
      wp_step. wp_step; [|lia]. do 3 wp_step.
      apply IH; [|by eapply same_logs_trans; [done|split]|lia|simpl; lia|done].
      split; simpl.
      * by rewrite length_insert.
      * exists (S q). rewrite Hadv, <- app_assoc. f_equal.
        by rewrite replicate_S_end.
      * intros i Hi. rewrite list_lookup_insert_ne by lia. by apply Hlow.
      * destruct (decide (S k = c_p c)) as [?|_]; [lia|].
        destruct (decide (k = c_p c)) as [->|?].
        -- destruct Hfirst as [_ ->].
           apply list_lookup_insert_eq. lia.
        -- rewrite list_lookup_insert_ne by lia. done.
      * intros i l Hi Hi' Hl. destruct (decide (i = k)) as [->|Hne].
        -- assert (l = pl) as -> by congruence. exists (length (adv s)).
           split; [by rewrite lookup_insert_eq|].
           apply list_lookup_insert_eq. lia.
        -- rewrite list_lookup_insert_ne by done.
           destruct (Hdom i l) as (j & Hj & Hj'); [done|lia|done|].
           exists j. split; [|done].
           rewrite lookup_insert_ne; [done|]. intros <-. congruence.
      * intros l j Hj. rewrite length_app. simpl.
        destruct (decide (l = pl)) as [->|Hne].
        -- rewrite lookup_insert_eq in Hj. inversion Hj; subst j.
           rewrite Hadv, length_app. lia.
        -- rewrite lookup_insert_ne in Hj by done.
           specialize (Hrng l j Hj). lia.
      * intros l l' j Hj Hj'.
        destruct (decide (l = pl)) as [->|Hne];
          destruct (decide (l' = pl)) as [->|Hne']; [done| | |].
        -- rewrite lookup_insert_eq in Hj. inversion Hj; subst j.
           rewrite lookup_insert_ne in Hj' by done.
           specialize (Hrng l' _ Hj'). lia.
        -- rewrite lookup_insert_eq in Hj'. inversion Hj'; subst j.
           rewrite lookup_insert_ne in Hj by done.
           specialize (Hrng l _ Hj). lia.
        -- rewrite lookup_insert_ne in Hj, Hj' by done. by eapply Hinj.
Qed.

(** The index before the loop: [tape.adj] extended with zeros to the length
    of the place log. *)
Definition adj_extended s : list nat :=
  adj s ++ replicate (length (places s) - length (adj s)) 0.

Lemma index_adjoints_indexed E s (Q : unit → state → Prop) :
  c_p c ≤ length (places s) →
  (∀ s', indexed (adj_extended s) (adv s) s' → same_logs s s' → Q tt s') →
  wp E (index_adjoints c) Q s.
Proof.
  intros Hc HQ. unfold index_adjoints. do 4 wp_step.
  set (s1 := if decide _ then _ else _).
  assert (same_logs s s1) as Hsl by (subst s1; by case_decide).
  assert (adv s1 = adv s) as Hadv by (subst s1; by case_decide).
  assert (adj s1 = adj_extended s) as Hadj.
  { subst s1. unfold adj_extended. case_decide; [done|].
    replace (length (places s) - length (adj s)) with 0 by lia.
    by rewrite app_nil_r. }
  assert (length (places s1) ≤ length (adj s1)) as Hlen.
  { rewrite Hadj, (sl_places _ _ Hsl). unfold adj_extended.
    rewrite length_app, length_replicate. lia. }
  wp_step. wp_step; [|rewrite (sl_places _ _ Hsl) in *; lia].
  rewrite (sl_places _ _ Hsl) in *.
  apply (build_index_indexed E (adj_extended s) (adv s) _ _ _ _ s);
    [|done|done|rewrite (sl_places _ _ Hsl); lia|done].
  split.
  - by rewrite (sl_places _ _ Hsl).
  - rewrite Hadv. exists 0. by rewrite app_nil_r.
  - intros i _. by rewrite Hadj.
  - by rewrite decide_True.
  - intros i l Hi Hi'. lia.
  - intros l j Hj. by rewrite lookup_empty in Hj.
  - intros l l' j Hj. by rewrite lookup_empty in Hj.
Qed.

End Index.

(** ** The backward pass, record by record *)

Section Backward.
Context {F : Type} `{Float64 F}.
Variables (c : counters) (cidx : list nat) (base : nat).

Implicit Types (s : @state F) (σ : @astate F) (A : @adjoints F).
Implicit Types (al : aloc).

Local Abbreviation wpf Fail := (wp (λ _ _, Fail)).

(** The adjoint buffer of the tape holds the adjoints [A] of the machine:
    every place of the frame has a slot, places share a slot exactly when
    they are the same location, and the slot of a place holds the adjoint of
    its location. *)
Record bwd_rel s A σ : Prop := {
  br_mem : mem_rel cidx s σ;
  br_slot : ∀ i, c_p c ≤ i → i < length (places s) →
              ∃ j, adj s !! i = Some j ∧ base ≤ j < length (adv s);
  br_alias : ∀ i i' l l' j j', c_p c ≤ i → c_p c ≤ i' →
               places s !! i = Some l → places s !! i' = Some l' →
               adj s !! i = Some j → adj s !! i' = Some j' →
               (l = l' ↔ j = j');
  br_adj : ∀ i al j, c_p c ≤ i →
             places s !! i = Some (place_of cidx al) → aloc_ok cidx al →
             adj s !! i = Some j → adv s !! j = Some (A al)
}.

(** What a step of the walk leaves as it was: the logs, and the value store
    below [vb] outside the cells. *)
Record bstep (vb : nat) s s' : Prop := {
  bs_agrees : agrees c vb cidx cidx s s';
  bs_records : records s' = records s;
  bs_places : places s' = places s;
  bs_elementals : elementals s' = elementals s;
  bs_cstack : cstack s' = cstack s;
  bs_registry : registry s' = registry s;
  bs_adj : adj s' = adj s;
  bs_adv : length (adv s') = length (adv s);
  bs_values : length (values s') = length (values s);
  bs_low : ∀ j, j < base → adv s' !! j = adv s !! j
}.

Lemma bstep_refl vb s : bstep vb s s.
Proof. split; try done. apply agrees_refl. Qed.

Lemma bstep_trans vb s1 s2 s3 :
  bstep vb s1 s2 → bstep vb s2 s3 → bstep vb s1 s3.
Proof.
  intros [? ? ? ? ? ? ? ? ? Hl1] [? ? ? ? ? ? ? ? ? Hl2].
  split; try congruence.
  - by eapply agrees_trans.
  - intros j Hj. rewrite Hl2 by done. by apply Hl1.
Qed.

Lemma bstep_le vb vb' s s' : bstep vb s s' → vb' ≤ vb → bstep vb' s s'.
Proof. intros [] Hle. split; try done. by eapply agrees_le. Qed.

Lemma bstep_write vb s σ al x :
  mem_rel cidx s σ → aloc_ok cidx al →
  bstep vb s (write_loc (place_of cidx al) x s).
Proof.
  intros Hm Hok.
  destruct (write_loc_logs (place_of cidx al) x s)
    as (? & ? & ? & ? & ? & Hadv & ? & ? & ?).
  split; try done; [|by rewrite Hadv..].
  apply agrees_write. intros i Hi. left.
  destruct al as [k|k]; [|done]. simpl in Hi, Hok. inversion Hi; subst i.
  apply lookup_lt_is_Some in Hok as [i Hi'].
  rewrite (list_lookup_total_correct _ _ _ Hi').
  by eapply list_elem_of_lookup_2.
Qed.

Lemma bstep_scratch vb s i x :
  vb ≤ i → bstep vb s (set_values (λ vs, <[i:=x]> vs) s).
Proof.
  intros Hi. split; simpl; try done; [by apply agrees_scratch|].
  by rewrite length_insert.
Qed.

Lemma bstep_adv vb s j x :
  base ≤ j → bstep vb s (set_adv (λ a, <[j:=x]> a) s).
Proof.
  intros Hj. split; simpl; try done.
  - split; simpl; try done. exists []. split; [by rewrite app_nil_r|done].
  - by rewrite length_insert.
  - intros i Hi. apply list_lookup_insert_ne. lia.
Qed.

Lemma bwd_rel_write s A σ al x :
  bwd_rel s A σ → aloc_ok cidx al →
  bwd_rel (write_loc (place_of cidx al) x s) A (awrite al x σ).
Proof.
  intros [Hm Hslot Halias Hadj] Hok.
  destruct (write_loc_logs (place_of cidx al) x s)
    as (_ & Hp & _ & _ & Hj & Hv & _).
  split; rewrite ?Hp, ?Hj, ?Hv; try done. by apply mem_rel_write.
Qed.

Lemma bwd_rel_scratch s A σ i x :
  bwd_rel s A σ → i ∉ cidx →
  bwd_rel (set_values (λ vs, <[i:=x]> vs) s) A σ.
Proof.
  intros [Hm Hslot Halias Hadj] Hi. split; try done.
  by apply mem_rel_scratch.
Qed.

Lemma bwd_rel_set_adv s A σ i al j x :
  bwd_rel s A σ → c_p c ≤ i →
  places s !! i = Some (place_of cidx al) → aloc_ok cidx al →
  adj s !! i = Some j →
  bwd_rel (set_adv (λ a, <[j:=x]> a) s) (upd A al x) σ.
Proof.
  intros [Hm Hslot Halias Hadj] Hi Hpl Hok Hj.
  destruct (Hslot i Hi (lookup_lt_Some _ _ _ Hpl)) as (j0 & Hj0 & Hb).
  assert (j0 = j) as -> by congruence.
  split; simpl.
  - by eapply mem_rel_same.
  - intros i' Hi' Hlt. rewrite length_insert. by apply Hslot.
  - done.
  - intros i' al' j' Hi' Hpl' Hok' Hj'. unfold upd. case_decide as Heq.
    + subst al'.
      assert (j' = j) as ->
        by (by apply (Halias i' i _ _ j' j Hi' Hi Hpl' Hpl Hj' Hj)).
      apply list_lookup_insert_eq. lia.
    + rewrite list_lookup_insert_ne; [by eapply Hadj|].
      intros <-. apply Heq.
      apply (place_of_inj cidx); [apply (mr_nodup _ _ _ Hm)|done|done|].
      by apply (Halias i' i _ _ j j Hi' Hi Hpl' Hpl Hj' Hj).
Qed.

(** *** Adjoint reads and writes *)

Lemma adjoint_sim Fail i al A s σ (Q : F → state → Prop) :
  bwd_rel s A σ → c_p c ≤ i →
  places s !! i = Some (place_of cidx al) → aloc_ok cidx al →
  Q (A al) s → wpf Fail (adjoint i) Q s.
Proof.
  intros Hr Hi Hpl Hok HQ.
  destruct (br_slot _ _ _ Hr i Hi (lookup_lt_Some _ _ _ Hpl))
    as (j & Hj & Hb).
  pose proof (br_adj _ _ _ Hr i al j Hi Hpl Hok Hj) as Hv.
  unfold adjoint. wp_step. wp_step; [|congruence].
  wp_step; [|congruence]. by simplify_eq.
Qed.

Lemma set_adjoint_sim Fail i al x A s σ (Q : unit → state → Prop) :
  bwd_rel s A σ → c_p c ≤ i →
  places s !! i = Some (place_of cidx al) → aloc_ok cidx al →
  (∀ s', bwd_rel s' (upd A al x) σ → (∀ vb, bstep vb s s') → Q tt s') →
  wpf Fail (set_adjoint i x) Q s.
Proof.
  intros Hr Hi Hpl Hok HQ.
  destruct (br_slot _ _ _ Hr i Hi (lookup_lt_Some _ _ _ Hpl))
    as (j & Hj & Hb).
  unfold set_adjoint. wp_step. wp_step; [|congruence]. simplify_eq.
  wp_step. wp_step; [|lia]. wp_step.
  apply HQ; [by eapply bwd_rel_set_adv|].
  intros vb. apply bstep_adv. lia.
Qed.

Lemma add_adjoint_sim Fail i al x A s σ (Q : unit → state → Prop) :
  bwd_rel s A σ → c_p c ≤ i →
  places s !! i = Some (place_of cidx al) → aloc_ok cidx al →
  (∀ s', bwd_rel s' (acc A al x) σ → (∀ vb, bstep vb s s') → Q tt s') →
  wpf Fail (add_adjoint i x) Q s.
Proof.
  intros Hr Hi Hpl Hok HQ. unfold add_adjoint. wp_step.
  eapply adjoint_sim; [done..|]. by eapply set_adjoint_sim.
Qed.

Lemma sub_adjoint_sim Fail i al x A s σ (Q : unit → state → Prop) :
  bwd_rel s A σ → c_p c ≤ i →
  places s !! i = Some (place_of cidx al) → aloc_ok cidx al →
  (∀ s', bwd_rel s' (dec A al x) σ → (∀ vb, bstep vb s s') → Q tt s') →
  wpf Fail (sub_adjoint i x) Q s.
Proof.
  intros Hr Hi Hpl Hok HQ. unfold sub_adjoint. wp_step.
  eapply adjoint_sim; [done..|]. by eapply set_adjoint_sim.
Qed.

(** *** Loops and reads *)

Lemma wpf_for_each_seq Fail d k (body : nat → M unit)
    (I : nat → state → Prop) s :
  I k s →
  (∀ i s', k ≤ i → i < k + d → I i s' →
           wpf Fail (body i) (λ _, I (S i)) s') →
  wpf Fail (for_each (seq k d) body) (λ _, I (k + d)) s.
Proof.
  revert k s. induction d as [|d IH]; intros k s HI Hbody; simpl.
  - wp_step. by rewrite Nat.add_0_r.
  - wp_step. eapply wp_mono; [apply Hbody; [done|lia|done]|].
    intros ? s' HI'. replace (k + S d) with (S k + d) by lia.
    apply IH; [done|]. intros i s'' Hi Hi'. apply Hbody; lia.
Qed.

Lemma wpf_for_upto Fail n (body : nat → M unit) (I : nat → state → Prop) s :
  I 0 s →
  (∀ i s', i < n → I i s' → wpf Fail (body i) (λ _, I (S i)) s') →
  wpf Fail (for_upto n body) (λ _, I n) s.
Proof.
  intros HI Hbody. apply (wpf_for_each_seq Fail n 0 body I); [done|].
  intros i s' _ Hi. by apply Hbody.
Qed.

Lemma place_value_sim Fail i al s σ (Q : F → state → Prop) :
  mem_rel cidx s σ →
  places s !! i = Some (place_of cidx al) → aloc_ok cidx al →
  (∀ x, aread al σ = Some x → Q x s) → (aread al σ = None → Fail) →
  wpf Fail (place_value i) Q s.
Proof.
  intros Hm Hpl Hok HQ HF. unfold place_value, place.
  wp_step. wp_step; [|congruence]. simplify_eq.
  apply wpf_deref; rewrite (read_rel cidx s σ) by done; auto.
Qed.

(** *** Arithmetic records *)

Lemma arith_sim Fail r o res args A s σ (Q : unit → state → Prop) :
  bwd_rel s A σ → rec_rel c s cidx r (AArith o res args) →
  (∀ A' s', aback (AArith o res args) A σ = Some (A', σ) →
            bwd_rel s' A' σ → (∀ vb, bstep vb s s') → Q tt s') →
  (aback (AArith o res args) A σ = None → Fail) →
  wpf Fail (backward_record r) Q s.
Proof.
  intros Hr (Htyp & Hop & Hlen & Hc & Hw) HQ HF.
  unfold backward_record. rewrite Htyp, Hop.
  destruct (Hw 0 res eq_refl) as [Hp0 Hok0]. rewrite Nat.add_0_r in Hp0.
  wp_step. eapply (adjoint_sim _ _ res); [done|lia|done|done|].
  unfold aback in HQ, HF. unfold arity in Hlen.
  destruct (decide (o = OpNeg)) as [->|Hneg].
  { destruct args as [|x [|? ?]]; try done. simpl in HQ.
    destruct (Hw 1 x eq_refl) as [Hp1 Hok1].
    eapply (sub_adjoint_sim _ _ x); [done|lia|done|done|].
    intros s1 Hr1 Hs1. by eapply (HQ _ s1). }
  destruct args as [|x [|y [|? ?]]]; try done. simpl in HQ, HF.
  destruct (Hw 1 x eq_refl) as [Hp1 Hok1].
  destruct (Hw 2 y eq_refl) as [Hp2 Hok2].
  assert (∀ s1, (∀ vb, bstep vb s s1) → places s1 = places s) as Hpl.
  { intros s1 Hs1. apply (bs_places 0 _ _ (Hs1 0)). }
  destruct (decide (o = OpAdd)) as [->|Hadd].
  { wp_step. eapply (add_adjoint_sim _ _ x); [done|lia|done|done|].
    intros s1 Hr1 Hs1.
    eapply (add_adjoint_sim _ _ y); [done|lia|by rewrite Hpl|done|].
    intros s2 Hr2 Hs2. eapply (HQ _ s2); [done|done|].
    intros vb. by eapply bstep_trans. }
  destruct (decide (o = OpSub)) as [->|Hsub].
  { wp_step. eapply (add_adjoint_sim _ _ x); [done|lia|done|done|].
    intros s1 Hr1 Hs1.
    eapply (sub_adjoint_sim _ _ y); [done|lia|by rewrite Hpl|done|].
    intros s2 Hr2 Hs2. eapply (HQ _ s2); [done|done|].
    intros vb. by eapply bstep_trans. }
  destruct (decide (o = OpMul)) as [->|Hmul].
  { wp_step.
    eapply (place_value_sim _ _ y); [apply (br_mem _ _ _ Hr)|done|done| |].
    2:{ intros Hn. apply HF. by rewrite Hn. }
    intros yv Hy. wp_step.
    eapply (place_value_sim _ _ x); [apply (br_mem _ _ _ Hr)|done|done| |].
    2:{ intros Hn. apply HF. rewrite Hy. simpl. by rewrite Hn. }
    intros xv Hx. rewrite Hy, Hx in HQ. simpl in HQ.
    wp_step. eapply (add_adjoint_sim _ _ x); [done|lia|done|done|].
    intros s1 Hr1 Hs1.
    eapply (add_adjoint_sim _ _ y); [done|lia|by rewrite Hpl|done|].
    intros s2 Hr2 Hs2. eapply (HQ _ s2); [done|done|].
    intros vb. by eapply bstep_trans. }
  destruct (decide (o = OpDiv)) as [->|Hdiv].
  { wp_step.
    eapply (place_value_sim _ _ y); [apply (br_mem _ _ _ Hr)|done|done| |].
    2:{ intros Hn. apply HF. by rewrite Hn. }
    intros yv Hy. wp_step.
    eapply (place_value_sim _ _ res); [apply (br_mem _ _ _ Hr)|done|done| |].
    2:{ intros Hn. apply HF. rewrite Hy. simpl. by rewrite Hn. }
    intros zv Hz. rewrite Hy, Hz in HQ. simpl in HQ.
    wp_step. eapply (add_adjoint_sim _ _ x); [done|lia|done|done|].
    intros s1 Hr1 Hs1.
    eapply (add_adjoint_sim _ _ y); [done|lia|by rewrite Hpl|done|].
    intros s2 Hr2 Hs2. eapply (HQ _ s2); [done|done|].
    intros vb. by eapply bstep_trans. }
  wp_step. by apply HF.
Qed.

(** *** Elemental records *)

Lemma saved_at_take s (v0 : nat) (xs : list F) :
  saved_at s cidx v0 xs → take (length xs) (drop v0 (values s)) = xs.
Proof.
  intros Hs. apply list_eq. intros i.
  destruct (decide (i < length xs)) as [Hi|Hi].
  - rewrite lookup_take_lt, lookup_drop by done.
    destruct (lookup_lt_is_Some_2 xs i Hi) as [x Hx].
    rewrite Hx. by apply Hs.
  - rewrite lookup_take_ge by lia. symmetry. apply lookup_ge_None. lia.
Qed.

Lemma acc_all_snoc A (ws : list (aloc * F)) al x :
  acc_all A (ws ++ [(al, x)]) = acc (acc_all A ws) al x.
Proof. unfold acc_all. by rewrite foldl_app. Qed.

Lemma elem_sim Fail r g res args saved A s σ (Q : unit → state → Prop) :
  bwd_rel s A σ → rec_rel c s cidx r (AElem g res args saved) →
  v r + length saved ≤ length (values s) →
  (∀ A' s', aback (AElem g res args saved) A σ = Some (A', σ) →
            bwd_rel s' A' σ → (∀ vb, bstep vb s s') → Q tt s') →
  (aback (AElem g res args saved) A σ = None → Fail) →
  wpf Fail (backward_record r) Q s.
Proof.
  intros Hr (Htyp & Hop & He & Hlen & [Hc Hw] & Hs) Hv HQ HF.
  unfold backward_record. rewrite Htyp.
  destruct (Hw 0 res eq_refl) as [Hp0 Hok0]. rewrite Nat.add_0_r in Hp0.
  wp_step. eapply (adjoint_sim _ _ res); [done|lia|done|done|].
  wp_step. wp_step; [|done]. do 2 wp_step; [|congruence].
  rewrite He in *. simplify_eq. simpl e_n. simpl e_g. wp_step.
  unfold aback in HQ, HF.
  eapply (place_value_sim _ _ res); [apply (br_mem _ _ _ Hr)|done|done| |].
  2:{ intros Hn. apply HF. by rewrite Hn. }
  intros z Hz. rewrite Hz in HQ, HF. simpl in HQ, HF.
  wp_step. wp_step; [|lia]. do 3 wp_step.
  rewrite <- Hlen, (saved_at_take s (v r) saved) by done. wp_step.
  2:{ apply HF. match goal with Hn : _ = None |- _ => by rewrite Hn end. }
  rename a into d.
  match goal with Hd : g z saved = Some d |- _ =>
    rewrite Hd in HQ, HF; simpl in HQ, HF end.
  set (ws := zip args ((λ di, fmul (A res) di) <$> d)) in *.
  eapply wp_mono.
  { apply (wpf_for_upto Fail (length saved) _
             (λ i s', i ≤ length d ∧ bwd_rel s' (acc_all A (take i ws)) σ ∧
                      ∀ vb, bstep vb s s')).
    - split; [lia|]. split; [done|]. intros vb. apply bstep_refl.
    - intros i s1 Hi (Hid & Hr1 & Hs1). wp_step. wp_step.
      2:{ apply HF. rewrite decide_False; [done|].
          match goal with Hn : d !! i = None |- _ =>
            apply lookup_ge_None in Hn end. lia. }
      rename a into di.
      match goal with Hd : d !! i = Some di |- _ => rename Hd into Hdi end.
      destruct (lookup_lt_is_Some_2 args i) as [al Hal]; [lia|].
      destruct (Hw (S i) al Hal) as [Hpi Hoki].
      eapply (add_adjoint_sim _ _ al); [done|lia| |done|].
      { rewrite (bs_places 0 _ _ (Hs1 0)).
        by replace (p r + 1 + i) with (p r + S i) by lia. }
      intros s2 Hr2 Hs2. split; [by apply lookup_lt_Some in Hdi|]. split.
      + rewrite (take_S_r _ _ (al, fmul (A res) di)).
        * by rewrite acc_all_snoc.
        * subst ws. rewrite lookup_zip_with, Hal. simpl.
          by rewrite list_lookup_fmap, Hdi.
      + intros vb. by eapply bstep_trans. }
  intros [] s' (Hid & Hr' & Hs'). simpl in Hid.
  rewrite decide_True in HQ by lia.
  rewrite take_ge in Hr'.
  - by eapply HQ.
  - subst ws. rewrite length_zip_with, length_fmap. lia.
Qed.

(** *** Assignment records *)

Lemma all_valid_Forall (ls : list aloc) σ :
  all_valid ls σ = true ↔ Forall (λ l, is_Some (aread l σ)) ls.
Proof.
  unfold all_valid. rewrite forallb_forall, Forall_forall.
  split; intros Hl l Hin.
  - apply list_elem_of_In in Hin. specialize (Hl l Hin).
    by apply bool_decide_eq_true in Hl.
  - apply list_elem_of_In in Hin. specialize (Hl l Hin).
    by apply bool_decide_eq_true.
Qed.

Lemma is_Some_read_write_all_inv ws l s :
  is_Some (read_loc l (write_all ws s)) → is_Some (read_loc l s).
Proof.
  destruct (write_all_logs ws s) as (_ & _ & _ & _ & _ & _ & _ & Hv & Hh).
  destruct l as [i|i]; simpl; rewrite !lookup_lt_is_Some; lia.
Qed.

Lemma all_valid_false (ls : list aloc) σ i l :
  ls !! i = Some l → aread l σ = None → all_valid ls σ = false.
Proof.
  intros Hl Hn. destruct (all_valid ls σ) eqn:Hv; [|done].
  apply all_valid_Forall in Hv. rewrite Forall_forall in Hv.
  destruct (Hv l) as [x Hx]; [by eapply list_elem_of_lookup_2|congruence].
Qed.

Lemma bwd_rel_write_all s A σ (ws : list (aloc * F)) :
  bwd_rel s A σ → Forall (λ w, aloc_ok cidx w.1) ws →
  bwd_rel (write_all (prod_map (place_of cidx) id <$> ws) s) A
    (awrite_all ws σ).
Proof.
  intros Hr Hws. induction ws as [|[l x] ws IH] using rev_ind; [done|].
  apply Forall_app in Hws as [Hws Hl]. rewrite Forall_singleton in Hl.
  rewrite fmap_app. simpl. rewrite write_all_snoc, awrite_all_snoc.
  apply bwd_rel_write; [by apply IH|done].
Qed.

Lemma bstep_write_all vb s σ (ws : list (aloc * F)) :
  mem_rel cidx s σ → Forall (λ w, aloc_ok cidx w.1) ws →
  bstep vb s (write_all (prod_map (place_of cidx) id <$> ws) s).
Proof.
  intros Hm Hws. induction ws as [|[l x] ws IH] using rev_ind;
    [apply bstep_refl|].
  apply Forall_app in Hws as [Hws Hl]. rewrite Forall_singleton in Hl.
  rewrite fmap_app. simpl. rewrite write_all_snoc.
  eapply bstep_trans; [by apply IH|].
  eapply bstep_write; [by apply mem_rel_write_all|done].
Qed.

Lemma values_write_all_other s (ws : list (aloc * F)) j :
  Forall (λ w, aloc_ok cidx w.1) ws → j ∉ cidx →
  values (write_all (prod_map (place_of cidx) id <$> ws) s) !! j
  = values s !! j.
Proof.
  intros Hws Hj. induction ws as [|[l x] ws IH] using rev_ind; [done|].
  apply Forall_app in Hws as [Hws Hl]. rewrite Forall_singleton in Hl.
  rewrite fmap_app. simpl. rewrite write_all_snoc.
  rewrite <- IH by done. destruct l as [k|k]; simpl; [|done].
  apply list_lookup_insert_ne. intros <-. apply Hj. simpl in Hl.
  apply lookup_lt_is_Some in Hl as [i Hi].
  rewrite (list_lookup_total_correct _ _ _ Hi).
  by eapply list_elem_of_lookup_2.
Qed.

Lemma Forall_zip_ok (ts : list aloc) (xs : list F) :
  (∀ i al, ts !! i = Some al → aloc_ok cidx al) →
  Forall (λ w, aloc_ok cidx w.1) (zip ts xs).
Proof.
  intros Hts. apply Forall_forall. intros [l x] Hin.
  apply list_elem_of_lookup in Hin as [i Hi].
  rewrite lookup_zip_with in Hi.
  destruct (ts !! i) as [al|] eqn:Hal; [|done]. simpl in Hi.
  destruct (xs !! i); simplify_eq/=. by eapply Hts.
Qed.

(** The first loop: the targets get their saved values back. *)
Lemma restore_sim Fail (pr vr : nat) ts saved A s σ
    (Q : unit → state → Prop) :
  bwd_rel s A σ →
  (∀ i al, ts !! i = Some al →
     places s !! (pr + i) = Some (place_of cidx al) ∧ aloc_ok cidx al) →
  saved_at s cidx vr saved → length saved = length ts →
  (∀ s', all_valid ts σ = true →
         bwd_rel s' A (awrite_all (zip ts saved) σ) →
         (∀ vb, bstep vb s s') →
         (∀ j, j ∉ cidx → values s' !! j = values s !! j) → Q tt s') →
  (all_valid ts σ = false → Fail) →
  wpf Fail (for_upto (length ts) (λ i,
              let* t := place (pr + i) in
              let* x := value_at (vr + i) in
              store t x)) Q s.
Proof.
  intros Hr Hts Hsv Hlen HQ HF.
  pose proof (br_mem _ _ _ Hr) as Hm.
  assert (∀ xs : list F, Forall (λ w, aloc_ok cidx w.1) (zip ts xs)) as Hok.
  { intros xs. apply Forall_zip_ok. intros i al Hal. by apply (Hts i). }
  assert (∀ i, Forall (λ w : aloc * F, aloc_ok cidx w.1)
                 (take i (zip ts saved))) as Hoki.
  { intros i. apply Forall_take, Hok. }
  eapply wp_mono.
  { apply (wpf_for_upto Fail (length ts) _
             (λ i s', s' = write_all (prod_map (place_of cidx) id
                                        <$> take i (zip ts saved)) s ∧
                      Forall (λ l, is_Some (aread l σ)) (take i ts))).
    - split; [by rewrite take_0|]. rewrite take_0. constructor.
    - intros i s1 Hi [-> Hv].
      destruct (lookup_lt_is_Some_2 ts i Hi) as [al Hal].
      destruct (lookup_lt_is_Some_2 saved i) as [x Hx]; [lia|].
      destruct (Hts i al Hal) as [Hpl Hokl].
      destruct (Hsv i x Hx) as [Hval Hnc].
      set (ws := prod_map (place_of cidx) id <$> take i (zip ts saved)).
      destruct (write_all_logs ws s) as (_ & Hp & _).
      unfold place, value_at.
      do 2 wp_step; [|congruence]. rewrite Hp, Hpl in *. simplify_eq.
      do 2 wp_step.
      2:{ subst ws.
          match goal with Hn : _ !! _ = None |- _ =>
            rewrite values_write_all_other in Hn by done end. congruence. }
      match goal with Hn : _ !! _ = Some _ |- _ =>
        subst ws; rewrite values_write_all_other in Hn by done end.
      simplify_eq.
      apply wpf_store.
      + intros Hsome. split.
        * rewrite (take_S_r _ _ (al, x)).
          -- rewrite fmap_app. simpl. by rewrite write_all_snoc.
          -- by rewrite lookup_zip_with, Hal; simpl; rewrite Hx.
        * rewrite (take_S_r _ _ al) by done. apply Forall_app.
          split; [done|]. apply Forall_singleton.
          rewrite <- (read_rel cidx s σ) by done.
          by eapply is_Some_read_write_all_inv.
      + intros Hn. apply HF. apply (all_valid_false ts σ i al); [done|].
        destruct (aread al σ) as [y|] eqn:Hy; [|done]. exfalso.
        rewrite <- (read_rel cidx s σ) in Hy by done.
        assert (is_Some (read_loc (place_of cidx al)
                  (write_all (prod_map (place_of cidx) id
                                <$> take i (zip ts saved)) s))) as [z Hz]
          by (by apply is_Some_read_write_all).
        congruence. }
  intros [] s' [-> Hv]. cbv beta in Hv.
  rewrite take_ge in Hv by done.
  rewrite take_ge by (rewrite length_zip_with; lia).
  apply HQ.
  - by apply all_valid_Forall.
  - by apply bwd_rel_write_all.
  - intros vb. by eapply bstep_write_all.
  - intros j Hj. by apply values_write_all_other.
Qed.

Lemma bstep_values s s' j :
  (∀ vb, bstep vb s s') → j ∉ cidx → values s' !! j = values s !! j.
Proof.
  intros Hs Hj. destruct (decide (j < length (values s))) as [Hlt|Hge].
  - by apply (ag_values _ _ _ _ _ _ (bs_agrees _ _ _ (Hs (S j)))); [lia|..].
  - rewrite (lookup_ge_None_2 (values s)) by lia.
    apply lookup_ge_None_2. rewrite (bs_values _ _ _ (Hs 0)). lia.
Qed.

Lemma clear_all_snoc A (ts : list aloc) t :
  clear_all A (ts ++ [t]) = upd (clear_all A ts) t fzero.
Proof. unfold clear_all. by rewrite foldl_app. Qed.

(** The second loop: the adjoints of the targets go to the value store,
    over the saved values. *)
Lemma stash_sim Fail (pr vr : nat) ts A s σ (Q : unit → state → Prop) :
  bwd_rel s A σ → c_p c < pr →
  (∀ i al, ts !! i = Some al →
     places s !! (pr + i) = Some (place_of cidx al) ∧ aloc_ok cidx al) →
  (∀ i, i < length ts → vr + i ∉ cidx) →
  vr + length ts ≤ length (values s) →
  (∀ s', bwd_rel s' A σ → bstep vr s s' →
         (∀ i al, ts !! i = Some al → values s' !! (vr + i) = Some (A al)) →
         Q tt s') →
  wpf Fail (for_upto (length ts) (λ i,
              let* a := adjoint (pr + i) in
              modify (set_values (λ vs, <[vr + i := a]> vs)))) Q s.
Proof.
  intros Hr Hc Hts Hnc Hlen HQ.
  eapply wp_mono.
  { apply (wpf_for_upto Fail (length ts) _
             (λ i s', bwd_rel s' A σ ∧ bstep vr s s' ∧
                      ∀ j al, j < i → ts !! j = Some al →
                              values s' !! (vr + j) = Some (A al))).
    - split; [done|]. split; [apply bstep_refl|]. intros j al Hj. lia.
    - intros i s1 Hi (Hr1 & Hs1 & Hv1).
      destruct (lookup_lt_is_Some_2 ts i Hi) as [al Hal].
      destruct (Hts i al Hal) as [Hpl Hokl].
      wp_step. eapply (adjoint_sim _ _ al);
        [done|lia|by rewrite (bs_places _ _ _ Hs1)|done|].
      wp_step. split; [apply bwd_rel_scratch; [done|by apply Hnc]|]. split.
      + eapply bstep_trans; [done|]. apply bstep_scratch. lia.
      + intros j al' Hj Hal'. simpl.
        destruct (decide (j = i)) as [->|Hne].
        * simplify_eq. apply list_lookup_insert_eq.
          rewrite (bs_values _ _ _ Hs1). lia.
        * rewrite list_lookup_insert_ne by lia. apply Hv1; [lia|done]. }
  intros [] s' (Hr' & Hs' & Hv'). apply HQ; [done|done|].
  intros i al Hal. apply Hv'; [by eapply lookup_lt_Some|done].
Qed.

(** The third loop: the adjoints of the targets are cleared. *)
Lemma clear_sim Fail (pr : nat) ts A s σ (Q : unit → state → Prop) :
  bwd_rel s A σ → c_p c < pr →
  (∀ i al, ts !! i = Some al →
     places s !! (pr + i) = Some (place_of cidx al) ∧ aloc_ok cidx al) →
  (∀ s', bwd_rel s' (clear_all A ts) σ → (∀ vb, bstep vb s s') → Q tt s') →
  wpf Fail (for_upto (length ts) (λ i, set_adjoint (pr + i) fzero)) Q s.
Proof.
  intros Hr Hc Hts HQ.
  eapply wp_mono.
  { apply (wpf_for_upto Fail (length ts) _
             (λ i s', bwd_rel s' (clear_all A (take i ts)) σ ∧
                      ∀ vb, bstep vb s s')).
    - split; [by rewrite take_0|]. intros vb. apply bstep_refl.
    - intros i s1 Hi (Hr1 & Hs1).
      destruct (lookup_lt_is_Some_2 ts i Hi) as [al Hal].
      destruct (Hts i al Hal) as [Hpl Hokl].
      eapply (set_adjoint_sim _ _ al);
        [done|lia|by rewrite (bs_places _ _ _ (Hs1 0))|done|].
      intros s2 Hr2 Hs2. split.
      + by rewrite (take_S_r _ _ al), clear_all_snoc.
      + intros vb. by eapply bstep_trans. }
  intros [] s' (Hr' & Hs'). rewrite take_ge in Hr' by done. by apply HQ.
Qed.

(** The fourth loop: the stashed adjoints are added to the adjoints of the
    sources. *)
Lemma spread_sim Fail (pr vr : nat) ts ss (A0 A : adjoints) s σ
    (Q : unit → state → Prop) :
  bwd_rel s A σ → c_p c < pr →
  (∀ i al, ss !! i = Some al →
     places s !! (pr + i) = Some (place_of cidx al) ∧ aloc_ok cidx al) →
  length ss = length ts →
  (∀ i al, ts !! i = Some al → values s !! (vr + i) = Some (A0 al)) →
  (∀ i, i < length ts → vr + i ∉ cidx) →
  (∀ s', bwd_rel s' (acc_all A (zip ss (A0 <$> ts))) σ →
         (∀ vb, bstep vb s s') → Q tt s') →
  wpf Fail (for_upto (length ts) (λ i,
              let* a := value_at (vr + i) in
              add_adjoint (pr + i) a)) Q s.
Proof.
  intros Hr Hc Hss Hlen Hv Hnc HQ.
  set (ws := zip ss (A0 <$> ts)).
  eapply wp_mono.
  { apply (wpf_for_upto Fail (length ts) _
             (λ i s', bwd_rel s' (acc_all A (take i ws)) σ ∧
                      ∀ vb, bstep vb s s')).
    - split; [by rewrite take_0|]. intros vb. apply bstep_refl.
    - intros i s1 Hi (Hr1 & Hs1).
      destruct (lookup_lt_is_Some_2 ts i Hi) as [t Ht].
      destruct (lookup_lt_is_Some_2 ss i) as [al Hal]; [lia|].
      destruct (Hss i al Hal) as [Hpl Hokl].
      unfold value_at. do 2 wp_step.
      2:{ match goal with Hn : _ !! _ = None |- _ =>
            rewrite (bstep_values s s1) in Hn by auto;
            rewrite (Hv i t Ht) in Hn end. done. }
      match goal with Hn : _ !! _ = Some _ |- _ =>
        rewrite (bstep_values s s1) in Hn by auto;
        rewrite (Hv i t Ht) in Hn end.
      simplify_eq.
      eapply (add_adjoint_sim _ _ al);
        [done|lia|by rewrite (bs_places _ _ _ (Hs1 0))|done|].
      intros s2 Hr2 Hs2. split.
      + rewrite (take_S_r _ _ (al, A0 t)); [by rewrite acc_all_snoc|].
        subst ws. rewrite lookup_zip_with, Hal. simpl.
        by rewrite list_lookup_fmap, Ht.
      + intros vb. by eapply bstep_trans. }
  intros [] s' (Hr' & Hs').
  rewrite take_ge in Hr'; [by apply HQ|].
  subst ws. rewrite length_zip_with, length_fmap. lia.
Qed.

Lemma assign_sim Fail r ts ss saved A s σ (Q : unit → state → Prop) :
  bwd_rel s A σ → rec_rel c s cidx r (AAssign ts ss saved) →
  v r + length saved ≤ length (values s) →
  (∀ A' σ' s', aback (AAssign ts ss saved) A σ = Some (A', σ') →
               bwd_rel s' A' σ' → bstep (v r) s s' → Q tt s') →
  (aback (AAssign ts ss saved) A σ = None → Fail) →
  wpf Fail (backward_record r) Q s.
Proof.
  intros Hr (Htyp & Hop & Hlss & Hlsv & [Hc Hw] & Hsv) Hv HQ HF.
  pose proof (br_mem _ _ _ Hr) as Hm.
  unfold backward_record. rewrite Htyp.
  assert (∀ i al, ts !! i = Some al →
            places s !! (p r + i) = Some (place_of cidx al) ∧
            aloc_ok cidx al) as Hts.
  { intros i al Hal. apply Hw. by apply lookup_app_l_Some. }
  assert (∀ i al, ss !! i = Some al →
            places s !! (p r + length ts + i) = Some (place_of cidx al) ∧
            aloc_ok cidx al) as Hss.
  { intros i al Hal.
    replace (p r + length ts + i) with (p r + (length ts + i)) by lia.
    apply Hw. rewrite lookup_app_r by lia.
    by replace (length ts + i - length ts) with i by lia. }
  assert (∀ i, i < length ts → v r + i ∉ cidx) as Hnc.
  { intros i Hi. destruct (lookup_lt_is_Some_2 saved i) as [x Hx]; [lia|].
    by destruct (Hsv i x Hx). }
  unfold aback in HQ, HF.
  destruct (decide (op r = 1%Z)) as [H1|H1].
  - assert (length ts = 1) as Hl1 by lia.
    destruct ts as [|t [|? ?]]; try done.
    destruct ss as [|sr [|? ?]]; try done.
    destruct saved as [|old [|? ?]]; try done.
    destruct (Hts 0 t eq_refl) as [Hpt Hokt].
    destruct (Hss 0 sr eq_refl) as [Hps Hoks].
    destruct (Hsv 0 old eq_refl) as [Hvo _].
    rewrite Nat.add_0_r in Hpt, Hps, Hvo. simpl in Hps.
    unfold place, value_at.
    do 2 wp_step; [|congruence]. do 2 wp_step; [|congruence].
    simplify_eq. wp_step.
    apply wpf_store.
    2:{ intros Hn. apply HF. rewrite (read_rel cidx s σ) in Hn by done.
        by rewrite (all_valid_false [t] σ 0 t). }
    intros Hsome. rewrite (read_rel cidx s σ) in Hsome by done.
    assert (all_valid [t] σ = true) as Hval
      by (by apply all_valid_Forall, Forall_singleton).
    rewrite Hval in HQ. cbn in HQ.
    pose proof (bwd_rel_write s A σ t old Hr Hokt) as Hr1.
    pose proof (bstep_write (v r) s σ t old Hm Hokt) as Hs1.
    set (s1 := write_loc _ _ s) in *.
    wp_step. eapply (adjoint_sim _ _ t);
      [done|lia|by rewrite (bs_places _ _ _ Hs1)|done|].
    wp_step. eapply (set_adjoint_sim _ _ t);
      [done|lia|by rewrite (bs_places _ _ _ Hs1)|done|].
    intros s2 Hr2 Hs2.
    eapply (add_adjoint_sim _ _ sr); [done|lia| |done|].
    { by rewrite (bs_places _ _ _ (Hs2 0)), (bs_places _ _ _ Hs1). }
    intros s3 Hr3 Hs3. eapply HQ; [done|done|].
    eapply bstep_trans; [done|]. by eapply bstep_trans.
  - wp_step. wp_step; [|lia]. rewrite Hop, Nat2Z.id. wp_step.
    eapply (restore_sim _ (p r) (v r) ts saved); [done..| |].
    2:{ intros Hn. apply HF. by rewrite Hn. }
    intros s1 Hval Hr1 Hs1 Hv1. rewrite Hval in HQ.
    pose proof (bs_places _ _ _ (Hs1 0)) as Hp1.
    pose proof (bs_values _ _ _ (Hs1 0)) as Hl1.
    wp_step. wp_step; [|lia]. wp_step.
    eapply (stash_sim _ (p r) (v r) ts); [done|done|by rewrite Hp1|done|lia|].
    intros s2 Hr2 Hs2 Hv2.
    pose proof (bs_places _ _ _ Hs2) as Hp2.
    wp_step.
    eapply (clear_sim _ (p r) ts); [done|done|by rewrite Hp2, Hp1|].
    intros s3 Hr3 Hs3.
    pose proof (bs_places _ _ _ (Hs3 0)) as Hp3.
    eapply (spread_sim _ (p r + length ts) (v r) ts ss A);
      [done|lia|by rewrite Hp3, Hp2, Hp1|done| |done|].
    { intros i al Hal. rewrite (bstep_values s2 s3); [by apply Hv2|done|].
      apply Hnc. by eapply lookup_lt_Some. }
    intros s4 Hr4 Hs4. eapply HQ; [done|done|].
    eapply bstep_trans; [apply Hs1|].
    eapply bstep_trans; [apply Hs2|].
    eapply bstep_trans; [apply Hs3|apply Hs4].
Qed.

(** *** The walk *)

Lemma backward_record_sim Fail r a vb A s σ (Q : unit → state → Prop) :
  bwd_rel s A σ → rec_rel c s cidx r a → typ r ≠ typCall →
  vhi r a vb ≤ vb → vb ≤ length (values s) →
  (∀ A' σ' s', aback a A σ = Some (A', σ') → bwd_rel s' A' σ' →
               bstep (vlo r a vb) s s' → Q tt s') →
  (aback a A σ = None → Fail) →
  wpf Fail (backward_record r) Q s.
Proof.
  intros Hr Hrec Hcall Hhi Hvb HQ HF. destruct a as [|ts ss saved|o res args
                                                    |g res args saved].
  - destruct Hrec as [Htyp|Htyp]; [|done].
    unfold backward_record. rewrite Htyp. wp_step.
    eapply HQ; [done|done|apply bstep_refl].
  - simpl in Hhi. eapply assign_sim; [done|done|lia|done|done].
  - eapply arith_sim; [done|done| |done].
    intros A' s' Ha Hr' Hs'. by eapply HQ.
  - simpl in Hhi. eapply elem_sim; [done|done|lia| |done].
    intros A' s' Ha Hr' Hs'. by eapply HQ.
Qed.

Lemma awalk_snoc (t : list arec) a A σ :
  awalk (t ++ [a]) A σ
  = match aback a A σ with
    | Some (A', σ') => awalk t A' σ'
    | None => None
    end.
Proof.
  revert A σ. induction t as [|r t IH]; intros A σ; simpl.
  - by destruct (aback a A σ) as [[A' σ']|].
  - rewrite IH. by destruct (aback a A σ) as [[A' σ']|].
Qed.

Lemma visit_sim s0 vb rs tr (bot : nat) :
  trace_rel c s0 cidx vb rs tr →
  ∀ s A σ,
    agrees c vb cidx cidx s0 s → vb ≤ length (values s) →
    bwd_rel s A σ →
    (∀ i r, rs !! i = Some r →
            records s !! (bot + i) = Some r ∧ typ r ≠ typCall) →
    wpf (awalk tr A σ = None) (visit (reverse (seq bot (length rs))))
      (λ _ s', ∃ A' σ', awalk tr A σ = Some (A', σ') ∧
                        bwd_rel s' A' σ' ∧ bstep 0 s s') s.
Proof.
  induction 1 as [vb|vb rs tr r a Htr IH Hrec Hlo Hhi];
    intros s A σ Hag Hvb Hr Hrs.
  - simpl. unfold visit. simpl. wp_step.
    exists A, σ. split; [done|]. split; [done|apply bstep_refl].
  - rewrite length_app. simpl. rewrite Nat.add_1_r, seq_S, reverse_snoc.
    unfold visit. cbn [for_each]. wp_step.
    destruct (Hrs (length rs) r) as [Hrl Hcall];
      [by rewrite list_lookup_middle|].
    do 2 wp_step; [|congruence]. simplify_eq.
    rewrite awalk_snoc.
    eapply (backward_record_sim _ r a vb); [done| |done|done|done| |].
    { by eapply rec_rel_stable. }
    2:{ intros Hn. by rewrite Hn. }
    intros A1 σ1 s1 Ha Hr1 Hs1. rewrite Ha.
    eapply wp_mono.
    + apply (IH s1 A1 σ1); [| |done|].
      * eapply agrees_trans; [|apply (bs_agrees _ _ _ Hs1)].
        eapply agrees_le; [exact Hag|lia].
      * rewrite (bs_values _ _ _ Hs1). lia.
      * intros i r' Hr'. rewrite (bs_records _ _ _ Hs1).
        apply Hrs. by apply lookup_app_l_Some.
    + intros [] s2 (A2 & σ2 & Hw & Hr2 & Hs2). exists A2, σ2.
      do 2 (split; [done|]).
      eapply bstep_trans; [|done]. eapply bstep_le; [done|lia].
Qed.

Lemma walk_sim s0 rs tr A s σ :
  trace_rel c s0 cidx (length (values s0)) rs tr →
  agrees c (length (values s0)) cidx cidx s0 s →
  length (values s0) ≤ length (values s) →
  bwd_rel s A σ → c_r c ≤ length (records s) →
  rs = drop (c_r c) (records s) →
  (∀ r, r ∈ rs → typ r ≠ typCall) →
  wpf (awalk tr A σ = None) (walk c)
    (λ _ s', ∃ A' σ', awalk tr A σ = Some (A', σ') ∧
                      bwd_rel s' A' σ' ∧ bstep 0 s s') s.
Proof.
  intros Htr Hag Hvb Hr Hle -> Hcall. unfold walk.
  do 2 wp_step. rewrite decide_True by done.
  replace (length (records s) - c_r c)
    with (length (drop (c_r c) (records s))) by (rewrite length_drop; lia).
  eapply visit_sim; [done..|].
  intros i r Hi. split.
  - by rewrite lookup_drop in Hi.
  - apply Hcall. by eapply list_elem_of_lookup_2.
Qed.

Lemma bwd_rel_low s A σ j x :
  bwd_rel s A σ → j < base → bwd_rel (set_adv (λ a, <[j:=x]> a) s) A σ.
Proof.
  intros [Hm Hslot Halias Hadj] Hj. split; simpl.
  - by eapply mem_rel_same.
  - intros i Hi Hlt. rewrite length_insert. by apply Hslot.
  - done.
  - intros i al j' Hi Hpl Hok Hj'.
    destruct (Hslot i Hi (lookup_lt_Some _ _ _ Hpl)) as (j0 & Hj0 & Hb).
    assert (j0 = j') as -> by congruence.
    rewrite list_lookup_insert_ne by lia. by eapply Hadj.
Qed.

Lemma agrees_same vb s s' :
  places s' = places s → values s' = values s →
  elementals s' = elementals s → agrees c vb cidx cidx s s'.
Proof.
  intros Hp Hv He. split; rewrite ?Hp, ?Hv, ?He; try done.
  exists []. split; [by rewrite app_nil_r|done].
Qed.

(** The adjoints of the parameters, in order. *)
Lemma collect_sim Fail (b : nat) A s σ idx :
  bwd_rel s A σ →
  (∀ i, i ∈ idx → places s !! (c_p c + i + 1) = Some (LExt (b + i))) →
  wpf Fail (collect c idx)
    (λ g s', s' = s ∧ g = (λ i, A (AExt (b + i))) <$> idx) s.
Proof.
  intros Hr. induction idx as [|i idx IH]; intros Hidx; simpl.
  - by wp_step.
  - wp_step. eapply (adjoint_sim _ _ (AExt (b + i)));
      [done|lia|apply Hidx; left|done|].
    wp_step. eapply wp_mono.
    + apply IH. intros j Hj. apply Hidx. by right.
    + intros g s' [-> ->]. by wp_step.
Qed.

End Backward.

(** ** Differentiation as a whole *)

(** Whether the seed of [backward], written to [adv[adj[0]]], reaches the
    result slot of a frame opened on [s]: at top level it does; in a nested
    frame only if nothing was ever differentiated before. *)
Definition seeded {F} (s : @state F) : bool :=
  bool_decide (length (places s) = 0 ∨
               (length (adj s) = 0 ∧ length (adv s) = 0)).

(** In a nested frame [adj[0]] is a slot of the adjoint buffer. *)
Definition tape_ok {F} (s : @state F) : Prop :=
  length (places s) = 0 ∨ ∀ j, adj s !! 0 = Some j → j < length (adv s).

Section Refinement.
Context {F : Type} `{Float64 F}.
Variables (s0 : @state F) (b n : nat).

Implicit Types (s : @state F) (σ : @astate F) (cidx : list nat).

Local Abbreviation c := (frame_of n s0).
Local Abbreviation wpf Fail := (wp (λ _ _, Fail)).

Definition after_Setup : @state F :=
  set_places (λ ps, ps ++ LVal (length (values s0)) :: slice_places b n)
    (set_values (λ vs, vs ++ [fzero])
       (set_cstack (λ cs, cs ++ [c]) s0)).

Lemma Setup_after : Setup (slice_places b n) s0 = Ok tt after_Setup.
Proof.
  rewrite Setup_eq. unfold after_Setup, slice_places.
  by rewrite length_fmap, length_seq.
Qed.

Lemma Setup_fwd :
  fwd_rel s0 b n [length (values s0)] after_Setup (astart (heap s0)).
Proof.
  unfold after_Setup. split; simpl; try done.
  - split; simpl; [done| |apply NoDup_singleton].
    constructor; [|constructor]. by rewrite list_lookup_middle.
  - rewrite drop_all. constructor.
  - by rewrite list_lookup_middle.
  - lia.
  - intros i Hi. rewrite lookup_app_r by lia.
    replace (length (places s0) + 1 + i - length (places s0)) with (S i)
      by lia.
    simpl. unfold slice_places. rewrite list_lookup_fmap.
    by rewrite lookup_seq_lt by done.
Qed.

Lemma set_adjoint_eq i j (x : F) s :
  adj s !! i = Some j → j < length (adv s) →
  set_adjoint i x s = Ok tt (set_adv (λ a, <[j:=x]> a) s).
Proof.
  intros Hj Hlt. unfold set_adjoint, bind, index, demand, guard, modify.
  rewrite Hj. by rewrite decide_True.
Qed.

Lemma backward_sim cidx s σ :
  fwd_rel s0 b n cidx s σ → tape_ok s0 →
  (∀ r, r ∈ drop (c_r c) (records s) → typ r ≠ typCall) →
  let A1 : adjoints := if seeded s0 then upd (λ _, fzero) (result σ) fone
                       else λ _, fzero in
  wpf (awalk (trace σ) A1 σ = None) backward
    (λ _ s', ∃ A' σ', awalk (trace σ) A1 σ = Some (A', σ') ∧
       bwd_rel c cidx (length (adv s0)) s' A' σ' ∧
       records s' = records s ∧ places s' = places s ∧
       length (values s') = length (values s) ∧
       elementals s' = elementals s ∧ cstack s' = cstack s) s.
Proof.
  intros Hr Hok Hcall A1.
  pose proof (fwd_rel_p _ _ _ _ _ _ Hr) as Hcp.
  unfold backward. wp_step.
  eapply wpf_top_frame; [by eapply fwd_rel_top|].
  wp_step. apply index_adjoints_indexed; [lia|]. intros s2 Hix Hsl.
  rewrite (fr_adv _ _ _ _ _ _ Hr) in Hix.
  assert (bwd_rel c cidx (length (adv s0)) s2 (λ _, fzero) σ) as Hr2.
  { destruct Hix as [Hlen [q Hadv] Hlow Hfirst Hslot Halias]. split.
    - eapply mem_rel_same; [apply (fr_mem _ _ _ _ _ _ Hr)|apply Hsl..].
    - done.
    - done.
    - intros i al j Hi Hpl Hokl Hj.
      destruct (Hslot i Hi (lookup_lt_Some _ _ _ Hpl)) as (j' & Hj' & Hb).
      assert (j' = j) as -> by congruence.
      rewrite Hadv in Hb |- *. rewrite length_app, length_replicate in Hb.
      rewrite lookup_app_r by lia. apply lookup_replicate. split; [done|lia]. }
  assert (∃ s3, bwd_rel c cidx (length (adv s0)) s3 A1 σ ∧
                same_logs s2 s3 ∧
                seed_result s2 = Ok tt s3) as (s3 & Hr3 & Hsl3 & Hseed).
  { pose proof Hix as [Hlen [q Hadv] Hlow Hfirst Hslot Halias].
    assert (places s2 = places s) as Hp2 by apply Hsl.
    assert (length (adv s0) ≤ length (adv s2)) as Hadvlen
      by (rewrite Hadv, length_app; lia).
    destruct (decide (c_p c = 0)) as [Hz|Hnz].
    - assert (seeded s0 = true) as Hsd.
      { apply bool_decide_eq_true. left. exact Hz. }
      destruct (Hslot 0) as (j & Hj & Hb); [lia|rewrite Hp2; lia|].
      exists (set_adv (λ a, <[j:=fone]> a) s2). split; [|split].
      + subst A1. rewrite Hsd.
        eapply (bwd_rel_set_adv c cidx _ s2 _ σ 0 (result σ) j);
          [done|lia| |apply (fr_result_ok _ _ _ _ _ _ Hr)|done].
        rewrite Hp2. rewrite <- Hz at 1. apply (fr_result _ _ _ _ _ _ Hr).
      + by split.
      + apply set_adjoint_eq; [done|lia].
    - assert (seeded s0 = if decide (length (adj s0) = 0)
                          then bool_decide (length (adv s0) = 0)
                          else false) as Hsd.
      { unfold seeded. simpl in Hnz. case_decide as Ha.
        - apply bool_decide_ext. split; [intros [?|[_ ?]]; [lia|done]|].
          intros ?. by right.
        - apply bool_decide_eq_false. intros [?|[? _]]; lia. }
      assert (adj s2 !! 0
              = (adj s0 ++ replicate (length (places s) - length (adj s0)) 0)
                  !! 0) as Hj0.
      { rewrite Hlow by lia. unfold adj_extended.
        by rewrite (fr_adj _ _ _ _ _ _ Hr). }
      destruct Hok as [Hz|Hok]; [simpl in Hnz; lia|].
      destruct (adj s0) as [|j0 adj0] eqn:Hadj0.
      + simpl in Hj0, Hsd. rewrite Nat.sub_0_r in Hj0.
        destruct (length (places s)) as [|m] eqn:Hm; [lia|]. simpl in Hj0.
        exists (set_adv (λ a, <[0:=fone]> a) s2).
        destruct (decide (length (adv s0) = 0)) as [Hv0|Hv0].
        * rewrite bool_decide_eq_true_2 in Hsd by done.
          rewrite Hv0 in Hfirst.
          destruct (Hslot (c_p c)) as (j & Hj & Hb); [lia|rewrite Hp2; lia|].
          rewrite Hfirst in Hj by (rewrite Hp2; lia). simplify_eq.
          split; [|split].
          -- subst A1. rewrite Hsd.
             eapply (bwd_rel_set_adv c cidx _ s2 _ σ (c_p c) (result σ) 0);
               [done|lia| |apply (fr_result_ok _ _ _ _ _ _ Hr)|].
             ++ rewrite Hp2. apply (fr_result _ _ _ _ _ _ Hr).
             ++ apply Hfirst. rewrite Hp2. lia.
          -- by split.
          -- apply set_adjoint_eq; [done|lia].
        * rewrite bool_decide_eq_false_2 in Hsd by done.
          split; [|split].
          -- subst A1. rewrite Hsd. apply bwd_rel_low; [done|lia].
          -- by split.
          -- apply set_adjoint_eq; [done|lia].
      + simpl in Hj0, Hsd. specialize (Hok j0 eq_refl).
        exists (set_adv (λ a, <[j0:=fone]> a) s2). split; [|split].
        * subst A1. rewrite Hsd. apply bwd_rel_low; [done|lia].
        * by split.
        * apply set_adjoint_eq; [done|lia]. }
  wp_step. unfold wp at 1. rewrite Hseed.
  pose proof (same_logs_trans _ _ _ Hsl Hsl3) as Hsl'.
  eapply wp_mono.
  - eapply (walk_sim c cidx (length (adv s0)) s
              (drop (c_r c) (records s)) (trace σ) A1 s3 σ).
    + apply (fr_trace _ _ _ _ _ _ Hr).
    + apply agrees_same; apply Hsl'.
    + by rewrite (sl_values _ _ Hsl').
    + done.
    + rewrite (sl_records _ _ Hsl'). apply (fr_records _ _ _ _ _ _ Hr).
    + by rewrite (sl_records _ _ Hsl').
    + done.
  - intros [] s4 (A' & σ' & Hw & Hr4 & Hs4). exists A', σ'.
    do 2 (split; [done|]).
    rewrite (bs_records _ _ _ _ _ _ Hs4), (bs_places _ _ _ _ _ _ Hs4),
      (bs_values _ _ _ _ _ _ Hs4), (bs_elementals _ _ _ _ _ _ Hs4),
      (bs_cstack _ _ _ _ _ _ Hs4).
    by destruct Hsl' as [-> -> -> -> -> _ _].
Qed.

Lemma Gradient_sim cidx s σ :
  fwd_rel s0 b n cidx s σ → tape_ok s0 → grows after_Setup s →
  wpf (agradient (seeded s0) b n σ = None) Gradient
    (λ g s', agradient (seeded s0) b n σ = Some (g, heap s')) s.
Proof.
  intros Hr Hok Hg. unfold Gradient. wp_step.
  eapply wp_wand; [apply (backward_sim cidx s σ); [done|done|]| |].
  { intros r Hin. apply list_elem_of_lookup in Hin as [i Hi].
    rewrite lookup_drop in Hi.
    apply (grows_no_call _ _ Hg (c_r c + i) r); [simpl; lia|done]. }
  2:{ intros e s' Hn. unfold agradient. by rewrite Hn. }
  intros [] s4 (A' & σ' & Hw & Hr4 & Hrec & Hpl & Hvl & Hel & Hcs).
  assert (last (cstack s4) = Some c) as Htop
    by (rewrite Hcs; by eapply fwd_rel_top).
  wp_step. unfold partials. wp_step.
  eapply wpf_top_frame; [done|].
  eapply wp_mono.
  { apply (collect_sim c cidx (length (adv s0)) _ b A' s4 σ'); [done|].
    intros i Hi. apply elem_of_seq in Hi. rewrite Hpl.
    replace (c_p c + i + 1) with (c_p c + 1 + i) by lia.
    apply (fr_params _ _ _ _ _ _ Hr). simpl in Hi. lia. }
  intros g s' [-> ->].
  pose proof (fr_records _ _ _ _ _ _ Hr) as Hlr.
  pose proof (fwd_rel_p _ _ _ _ _ _ Hr) as Hlp.
  pose proof (grows_values _ _ Hg) as Hlv.
  pose proof (grows_elementals _ _ Hg) as Hle.
  unfold after_Setup in Hlv, Hle. simpl in Hlv, Hle.
  rewrite length_app in Hlv. simpl in Hlv.
  wp_step. unfold Pop. wp_step.
  eapply wpf_top_frame; [done|].
  wp_step. wp_step; [|rewrite Hrec in *; lia]. do 2 wp_step.
  wp_step. wp_step; [|simpl in *; rewrite Hpl in *; lia]. do 2 wp_step.
  wp_step. wp_step; [|simpl in *; lia]. do 2 wp_step.
  wp_step. wp_step; [|simpl in *; rewrite Hel in *; lia]. do 2 wp_step.
  do 2 wp_step. simpl.
  unfold agradient. fold (seeded s0). rewrite Hw. simpl.
  rewrite (mr_heap _ _ _ (br_mem _ _ _ _ _ _ Hr4)).
  f_equal. f_equal. rewrite <- list_fmap_compose.
  replace (seq b n) with (seq (b + 0) n) by (by rewrite Nat.add_0_r).
  by rewrite <- (fmap_add_seq b 0 n), <- list_fmap_compose.
Qed.

(** [Setup(x); f(x); Gradient()] on the tape returns what the machine
    returns, and leaves the memory outside the tape as the machine leaves
    it; it panics only where the machine has no result. *)
Lemma differentiate_refines P :
  tape_ok s0 →
  wpf (adifferentiate (seeded s0) (registry s0) b n P (heap s0) = None)
    (differentiate b n P)
    (λ g s', adifferentiate (seeded s0) (registry s0) b n P (heap s0)
             = Some (g, heap s')) s0.
Proof.
  intros Hok. unfold differentiate. wp_step. unfold wp at 1.
  rewrite Setup_after. wp_step.
  eapply wp_wand.
  - apply wp_and; [by apply run_grows|].
    apply (run_sim s0 b n P [length (values s0)] after_Setup
             (astart (heap s0)) [] []); [apply Setup_fwd|].
    split; [done|constructor].
  - intros [] s [Hg (cidx & σ & Hrun & Hr & _)].
    unfold adifferentiate. rewrite Hrun. simpl.
    by apply (Gradient_sim cidx).
  - intros e s Hn. simpl in Hn. unfold adifferentiate. by rewrite Hn.
Qed.

End Refinement.

(** * Further properties of the recorder *)

(** ** The registry of elementals *)


(** ** Arithmetic *)

(** [Arithmetic] with an opcode that is none of [OpNeg] ... [OpDiv] panics
    with "bad opcode", and only after it has registered the operation: the
    state of the panic has the result cell, the places of the result and of
    the operands, and the record. *)
Theorem Arithmetic_bad_opcode {F} `{Float64 F} (o : Z) px
    (s : state (F:=F)) :
  (o < OpNeg ∨ OpDiv < o)%Z →
  ∃ s', Arithmetic o px s = Panicked (BadOpcode o) s' ∧
        values s' = values s ++ [fzero] ∧
        places s' = places s ++ LVal (length (values s)) :: px ∧
        records s' = records s ++
          [{| typ := typArithmetic; op := o; p := length (places s);
              v := 0 |}] ∧
        elementals s' = elementals s ∧ cstack s' = cstack s ∧
        heap s' = heap s.
Proof.
  unfold OpNeg, OpDiv. intros Ho. eexists. split.
  - unfold Arithmetic, bind, Value, modify, gets. simpl.
    unfold OpNeg, OpAdd, OpSub, OpMul, OpDiv.
    repeat (rewrite decide_False by lia). reflexivity.
  - simpl. rewrite length_app. simpl.
    replace (length (values s) + 1 - 1) with (length (values s)) by lia.
    by rewrite <- app_assoc.
Qed.

Lemma Arithmetic_bad_opcode_witness :
  (7 < OpNeg ∨ OpDiv < 7)%Z ∧
  ∃ s', Arithmetic (F:=float) 7 [LExt 0] (init_tape [] [2%float])
          = Panicked (BadOpcode 7) s' ∧
        values s' = values (init_tape [] [2%float]) ++ [fzero] ∧
        places s' = places (init_tape [] [2%float]) ++
          LVal (length (values (init_tape (F:=float) [] [2%float])))
          :: [LExt 0] ∧
        records s' = records (init_tape [] [2%float]) ++
          [{| typ := typArithmetic; op := 7;
              p := length (places (init_tape (F:=float) [] [2%float]));
              v := 0 |}] ∧
        elementals s' = elementals (init_tape (F:=float) [] [2%float]) ∧
        cstack s' = cstack (init_tape (F:=float) [] [2%float]) ∧
        heap s' = heap (init_tape (F:=float) [] [2%float]).
Proof.
  split; [right; reflexivity|].
  apply (Arithmetic_bad_opcode (F:=float)). right. reflexivity.
Defined.

(** [Arithmetic], when it returns: the result is a new cell at the end of
    the value store, it holds the value of the operation on the operands,
    read after the cell was made; no cell that was there before is written,
    inside or outside the tape; the places of the result and of all the
    operands and one record are appended. *)
Theorem Arithmetic_result {F} `{Float64 F} (o : Z) px (s s' : state (F:=F))
    l :
  Arithmetic o px s = Ok l s' →
  l = LVal (length (values s)) ∧
  ∃ y, arith_value
         (λ l, read_loc l (set_values (λ vs, vs ++ [fzero]) s)) o px
       = Some y ∧
       values s' = values s ++ [y] ∧ heap s' = heap s ∧
       places s' = places s ++ l :: px ∧
       records s' = records s ++
         [{| typ := typArithmetic; op := o; p := length (places s);
             v := 0 |}] ∧
       elementals s' = elementals s ∧ cstack s' = cstack s ∧
       adj s' = adj s ∧ adv s' = adv s.
Proof.
  intros Hrun.
  assert (wp (λ _ _, True) (Arithmetic o px)
    (λ l s', l = LVal (length (values s)) ∧
       ∃ y, arith_value
              (λ l, read_loc l (set_values (λ vs, vs ++ [fzero]) s)) o px
            = Some y ∧
            values s' = values s ++ [y] ∧ heap s' = heap s ∧
            places s' = places s ++ l :: px ∧
            records s' = records s ++
              [{| typ := typArithmetic; op := o; p := length (places s);
                  v := 0 |}] ∧
            elementals s' = elementals s ∧ cstack s' = cstack s ∧
            adj s' = adj s ∧ adv s' = adv s) s) as Hwp.
  { apply wpf_Arithmetic; [|done].
    intros y Hy. split; [done|]. exists y. split; [done|]. simpl.
    split; [|done].
    rewrite insert_app_r_alt by lia. by rewrite Nat.sub_diag. }
  exact (wp_Ok _ _ _ _ _ _ Hwp Hrun).
Qed.

Lemma Arithmetic_result_witness :
  Arithmetic (F:=float) OpMul [LExt 0; LExt 0] (init_tape [] [3%float])
  = Ok (LVal 0)
      {| records := [{| typ := typDummy; op := 0; p := 0; v := 0 |};
                     {| typ := typArithmetic; op := OpMul; p := 0; v := 0 |}];
         places := [LVal 0; LExt 0; LExt 0]; values := [9%float];
         elementals := []; cstack := []; adj := []; adv := [];
         registry := []; heap := [3%float] |} ∧
  LVal 0 = LVal (length (values (init_tape (F:=float) [] [3%float]))) ∧
  ∃ y, arith_value
         (λ l, read_loc l (set_values (λ vs, vs ++ [fzero])
                             (init_tape (F:=float) [] [3%float])))
         OpMul [LExt 0; LExt 0] = Some y ∧
       [9%float] = values (init_tape [] [3%float]) ++ [y] ∧
       [3%float] = heap (init_tape [] [3%float]) ∧
       [LVal 0; LExt 0; LExt 0]
       = places (init_tape (F:=float) [] [3%float]) ++
         LVal 0 :: [LExt 0; LExt 0] ∧
       [{| typ := typDummy; op := 0; p := 0; v := 0 |};
        {| typ := typArithmetic; op := OpMul; p := 0; v := 0 |}]
       = records (init_tape (F:=float) [] [3%float]) ++
         [{| typ := typArithmetic; op := OpMul;
             p := length (places (init_tape (F:=float) [] [3%float]));
             v := 0 |}] ∧
       @nil (elemental (F:=float))
       = elementals (init_tape (F:=float) [] [3%float]) ∧
       @nil counters = cstack (init_tape (F:=float) [] [3%float]) ∧
       @nil nat = adj (init_tape (F:=float) [] [3%float]) ∧
       @nil float = adv (init_tape (F:=float) [] [3%float]).
Proof.
  assert (Arithmetic (F:=float) OpMul [LExt 0; LExt 0]
            (init_tape [] [3%float])
          = Ok (LVal 0)
              {| records := [{| typ := typDummy; op := 0; p := 0; v := 0 |};
                             {| typ := typArithmetic; op := OpMul; p := 0;
                                v := 0 |}];
                 places := [LVal 0; LExt 0; LExt 0]; values := [9%float];
                 elementals := []; cstack := []; adj := []; adv := [];
                 registry := []; heap := [3%float] |}) as Hrun
    by (vm_compute; reflexivity).
  split; [exact Hrun|].
  exact (Arithmetic_result (F:=float) _ _ _ _ _ Hrun).
Defined.

(** ** Gradient *)

Lemma collect_length {F} `{Float64 F} c idx (s : state (F:=F)) :
  wp any_panic (collect c idx) (λ g s', s' = s ∧ length g = length idx) s.
Proof.
  induction idx as [|i idx IH]; simpl.
  - by wp_step.
  - wp_step. apply wp_adjoint; [done|]. intros j x _ _. wp_step.
    eapply wp_mono; [apply IH|]. intros g s' [-> Hg]. wp_step.
    split; [done|]. simpl. by rewrite Hg.
Qed.

(** [Setup(x); f(x); Gradient()], when it returns, returns one partial
    derivative for every element of [x], whatever [f] recorded and whatever
    frames were open before. *)
Theorem Gradient_length {F} `{Float64 F} (b n : nat) (P : prog)
    (s s' : state (F:=F)) g :
  differentiate b n P s = Ok g s' → length g = n.
Proof.
  intros Hrun.
  assert (wp any_panic (differentiate b n P) (λ g _, length g = n) s)
    as Hwp.
  { apply Setup_run_open; [done|].
    intros s2 (Hc & Hcs & Hr & Hp & Hv & He & Hadj & Hadv & Hno).
    unfold Gradient. wp_step.
    eapply wp_mono;
      [by apply (backward_shape any_panic) with (c := frame_of n s)|].
    intros ? s3 [[Hr3 Hp3 Hv3 He3 Hcs3 Hreg3 Hadj3 Hadv3] Hlt].
    wp_step. unfold partials. wp_step. apply wp_top_frame; [done|].
    intros c Hc3. rewrite Hcs3, Hc in Hc3. inversion Hc3; subst c.
    eapply wp_mono; [apply collect_length|].
    intros g' s4 [-> Hg]. wp_step.
    apply (wp_Pop any_panic) with (c := frame_of n s);
      [done|congruence|].
    intros _ _ _ _. wp_step. simpl in Hg. by rewrite length_seq in Hg. }
  exact (wp_Ok _ _ _ _ _ _ Hwp Hrun).
Qed.

Lemma Gradient_length_witness :
  differentiate (F:=float) 0 2
    (IArithmetic OpMul [Ext 0; Ext 1] (IReturn (Res 0) Done))
    (init_tape [] [3%float; 5%float])
  = Ok [5%float; 3%float]
      {| records := [{| typ := typDummy; op := 0; p := 0; v := 0 |}];
         places := []; values := []; elementals := []; cstack := [];
         adj := [0; 1; 2; 0; 1; 2];
         adv := [1%float; 5%float; 3%float];
         registry := []; heap := [3%float; 5%float] |} ∧
  length [5%float; 3%float] = 2.
Proof.
  assert (differentiate (F:=float) 0 2
            (IArithmetic OpMul [Ext 0; Ext 1] (IReturn (Res 0) Done))
            (init_tape [] [3%float; 5%float])
          = Ok [5%float; 3%float]
              {| records := [{| typ := typDummy; op := 0; p := 0; v := 0 |}];
                 places := []; values := []; elementals := []; cstack := [];
                 adj := [0; 1; 2; 0; 1; 2];
                 adv := [1%float; 5%float; 3%float];
                 registry := []; heap := [3%float; 5%float] |}) as Hrun
    by (vm_compute; reflexivity).
  split; [exact Hrun|].
  exact (Gradient_length (F:=float) _ _ _ _ _ _ Hrun).
Defined.

(** With no frame open, that is before any [Setup] or after the last frame
    was popped, [Gradient], [Pop] and [Return] panic on the index of the top
    frame, and leave the tape as it is. *)
Theorem no_frame_panics {F} `{Float64 F} (s : state (F:=F)) px :
  cstack s = [] →
  Gradient s = Panicked RuntimeError s ∧
  Pop s = Panicked RuntimeError s ∧
  Return px s = Panicked RuntimeError s.
Proof.
  intros Hc.
  unfold Gradient, backward, Pop, Return, bind, top_frame, index, demand.
  by rewrite Hc.
Qed.

Lemma no_frame_panics_witness :
  cstack (init_tape (F:=float) [] [3%float]) = [] ∧
  Gradient (init_tape (F:=float) [] [3%float])
    = Panicked RuntimeError (init_tape [] [3%float]) ∧
  Pop (init_tape (F:=float) [] [3%float])
    = Panicked RuntimeError (init_tape [] [3%float]) ∧
  Return (LExt 0) (init_tape (F:=float) [] [3%float])
    = Panicked RuntimeError (init_tape [] [3%float]).
Proof.
  split; [reflexivity|].
  apply (no_frame_panics (F:=float)). reflexivity.
Defined.

(** ** What the walk gives back

    The walk undoes the assignments of the forward pass: the machine's
    memory after the walk is the memory before the forward pass, with the
    cells the forward pass made behind it. *)

Section Restore.
Context {F : Type} `{Float64 F}.

Implicit Types (σ : @astate F) (A : @adjoints F) (l : aloc).

(** [σb] has the memory of [σ], and maybe more cells. *)
Definition extends σb σ : Prop :=
  length (aheap σb) = length (aheap σ) ∧
  ∀ l v, aread l σ = Some v → aread l σb = Some v.

Lemma extends_refl σ : extends σ σ.
Proof. by split. Qed.

Lemma extends_trans σ1 σ2 σ3 :
  extends σ1 σ2 → extends σ2 σ3 → extends σ1 σ3.
Proof. intros [Hl1 H1] [Hl2 H2]. split; [congruence|auto]. Qed.

Lemma extends_heap σb h :
  extends σb (astart h) → aheap σb = h.
Proof.
  intros [Hl Hr]. simpl in Hl. apply list_eq. intros i.
  destruct (h !! i) as [x|] eqn:Hx.
  - by apply (Hr (AExt i) x).
  - apply lookup_ge_None in Hx. apply lookup_ge_None. lia.
Qed.

Lemma aread_awrite_ne l l' x σ :
  l ≠ l' → aread l (awrite l' x σ) = aread l σ.
Proof.
  intros Hne. destruct l as [i|i], l' as [j|j]; simpl; try done;
    apply list_lookup_insert_ne; congruence.
Qed.

Lemma aread_awrite_eq l x σ :
  is_Some (aread l σ) → aread l (awrite l x σ) = Some x.
Proof.
  intros Hs. destruct l as [i|i]; simpl in *;
    apply list_lookup_insert_eq; by apply lookup_lt_is_Some.
Qed.

Lemma aread_awrite_is_Some l l' x σ :
  is_Some (aread l σ) ↔ is_Some (aread l (awrite l' x σ)).
Proof.
  destruct l as [i|i], l' as [j|j]; simpl; try done;
    rewrite !lookup_lt_is_Some; by rewrite length_insert.
Qed.

Lemma aread_awrite_all_is_Some (W : list (aloc * F)) l σ :
  is_Some (aread l σ) ↔ is_Some (aread l (awrite_all W σ)).
Proof.
  induction W as [|[l' x] W IH] using rev_ind; [done|].
  rewrite awrite_all_snoc. by rewrite <- aread_awrite_is_Some.
Qed.

Lemma aread_awrite_all_notin (W : list (aloc * F)) l σ :
  (∀ w, w ∈ W → w.1 ≠ l) → aread l (awrite_all W σ) = aread l σ.
Proof.
  induction W as [|[l' x] W IH] using rev_ind; intros HW; [done|].
  rewrite awrite_all_snoc, aread_awrite_ne.
  - apply IH. intros w Hw. apply HW. apply elem_of_app. by left.
  - intros ->. apply (HW (l', x)); [|done]. apply elem_of_app. right.
    by apply list_elem_of_singleton.
Qed.

Lemma aread_awrite_all_in (W : list (aloc * F)) l v σ :
  is_Some (aread l σ) → (∃ w, w ∈ W ∧ w.1 = l) →
  (∀ w, w ∈ W → w.1 = l → w.2 = v) →
  aread l (awrite_all W σ) = Some v.
Proof.
  intros Hs. induction W as [|[l' x] W IH] using rev_ind; intros Hex Hall.
  - destruct Hex as (w & Hw & _). by apply elem_of_nil in Hw.
  - rewrite awrite_all_snoc. destruct (decide (l' = l)) as [->|Hne].
    + rewrite aread_awrite_eq by (by apply aread_awrite_all_is_Some).
      f_equal. apply (Hall (l, x)); [|done]. apply elem_of_app. right.
      by apply list_elem_of_singleton.
    + rewrite aread_awrite_ne by done. apply IH.
      * destruct Hex as (w & Hw & Hwl). exists w. split; [|done].
        apply elem_of_app in Hw as [Hw|Hw]; [done|].
        apply list_elem_of_singleton in Hw. subst w. simpl in Hwl.
        congruence.
      * intros w Hw. apply Hall. apply elem_of_app. by left.
Qed.

(** The walk over [t] from a memory that extends [σ'] ends in a memory
    that extends [σ]. *)
Definition restores σ (t : list arec) σ' : Prop :=
  ∀ A σb A' σb', extends σb σ' → awalk t A σb = Some (A', σb') →
                 extends σb' σ.

Lemma awalk_app (t1 t2 : list arec) A σ :
  awalk (t1 ++ t2) A σ
  = match awalk t2 A σ with
    | Some (A', σ') => awalk t1 A' σ'
    | None => None
    end.
Proof.
  revert A σ. induction t1 as [|r t1 IH]; intros A σ; simpl.
  - by destruct (awalk t2 A σ) as [[A' σ']|].
  - rewrite IH. by destruct (awalk t2 A σ) as [[A' σ']|].
Qed.

Lemma restores_nil σ σ' : extends σ' σ → restores σ [] σ'.
Proof.
  intros He A σb A' σb' Hb Hw. simpl in Hw. inversion Hw; subst.
  by eapply extends_trans.
Qed.

Lemma restores_app σ σ1 σ2 t1 t2 :
  restores σ t1 σ1 → restores σ1 t2 σ2 → restores σ (t1 ++ t2) σ2.
Proof.
  intros H1 H2 A σb A' σb' Hb Hw. rewrite awalk_app in Hw.
  destruct (awalk t2 A σb) as [[A1 σb1]|] eqn:Hw2; [|done].
  eapply H1; [|done]. by eapply H2.
Qed.

Lemma restores_weaken σ σ1 σ2 t :
  extends σ1 σ → restores σ1 t σ2 → restores σ t σ2.
Proof.
  intros He Hr A σb A' σb' Hb Hw.
  eapply extends_trans; [|done]. by eapply Hr.
Qed.

(** A record that the walk reads but that writes no memory. *)
Lemma restores_keep σ σ' (r : arec) :
  extends σ' σ →
  (∀ A σb A' σb', aback r A σb = Some (A', σb') → σb' = σb) →
  restores σ [r] σ'.
Proof.
  intros He Hk A σb A' σb' Hb Hw. simpl in Hw.
  apply Hk in Hw. subst. by eapply extends_trans.
Qed.

Lemma aback_keep_arith o res args A σb A' σb' :
  aback (AArith o res args) A σb = Some (A', σb') → σb' = σb.
Proof.
  unfold aback. intros Hb.
  repeat case_decide; simplify_option_eq; done.
Qed.

Lemma aback_keep_elem g res args saved A σb A' σb' :
  aback (AElem g res args saved) A σb = Some (A', σb') → σb' = σb.
Proof.
  unfold aback. intros Hb.
  repeat case_decide; simplify_option_eq; done.
Qed.

Lemma aread_emit l r σ : aread l (emit r σ) = aread l σ.
Proof. by destruct l. Qed.

Lemma restores_assign σ ts ss olds news :
  mapM (λ l, aread l σ) ts = Some olds →
  restores σ [AAssign ts ss olds]
    (emit (AAssign ts ss olds) (awrite_all (zip ts news) σ)).
Proof.
  intros Holds A σb A' σb' [Hlen Hext] Hw. simpl in Hw.
  destruct (all_valid ts σb); [|done]. inversion Hw; subst A' σb'. clear Hw.
  apply mapM_Some in Holds.
  split.
  { destruct (awrite_all_fields (zip ts olds) σb) as (_ & _ & _ & ->).
    rewrite Hlen. simpl.
    by destruct (awrite_all_fields (zip ts news) σ) as (_ & _ & _ & ->). }
  intros l v Hl.
  assert (is_Some (aread l σb)) as Hsb.
  { assert (is_Some (aread l (awrite_all (zip ts news) σ))) as [y Hy]
      by (by apply aread_awrite_all_is_Some).
    exists y. apply Hext. by rewrite aread_emit. }
  destruct (decide (l ∈ ts)) as [Hin|Hnin].
  - apply aread_awrite_all_in; [done| |].
    + apply list_elem_of_lookup in Hin as [i Hi].
      destruct (Forall2_lookup_l _ _ _ _ _ Holds Hi) as (x & Hx & _).
      exists (l, x). split; [|done].
      apply list_elem_of_lookup. exists i.
      by rewrite lookup_zip_with, Hi; simpl; rewrite Hx.
    + intros [l' x] Hw' Hl'. simpl in *. subst l'.
      apply list_elem_of_lookup in Hw' as [i Hi].
      rewrite lookup_zip_with in Hi.
      destruct (ts !! i) as [t|] eqn:Ht; [|done]. simpl in Hi.
      destruct (olds !! i) as [x'|] eqn:Hx'; [|done]. simpl in Hi.
      inversion Hi; subst t x'.
      pose proof (Forall2_lookup_lr _ _ _ _ _ _ Holds Ht Hx') as Hrd.
      simpl in Hrd. congruence.
  - rewrite aread_awrite_all_notin.
    + apply Hext. rewrite aread_emit, aread_awrite_all_notin; [done|].
      intros [l' x] Hw' <-. apply Hnin. simpl.
      apply list_elem_of_lookup in Hw' as [i Hi].
      rewrite lookup_zip_with in Hi.
      destruct (ts !! i) as [t|] eqn:Ht; [|done]. simpl in Hi.
      destruct (news !! i); [|done]. simpl in Hi. inversion Hi; subst.
      by eapply list_elem_of_lookup_2.
    + intros [l' x] Hw' <-. apply Hnin. simpl.
      apply list_elem_of_lookup in Hw' as [i Hi].
      rewrite lookup_zip_with in Hi.
      destruct (ts !! i) as [t|] eqn:Ht; [|done]. simpl in Hi.
      destruct (olds !! i); [|done]. simpl in Hi. inversion Hi; subst.
      by eapply list_elem_of_lookup_2.
Qed.

Lemma a_passign_restores σ σ' ts ss :
  a_passign ts ss σ = Some σ' →
  ∃ r, trace σ' = trace σ ++ [r] ∧ restores σ [r] σ'.
Proof.
  unfold a_passign. intros Hp.
  destruct (mapM (λ l, aread l σ) ts) as [olds|] eqn:Holds; [|done].
  simpl in Hp.
  destruct (mapM (λ l, aread l σ) ss) as [news|] eqn:Hnews; [|done].
  simpl in Hp. inversion Hp; subst σ'. eexists. split.
  - simpl. by destruct (awrite_all_fields (zip ts news) σ) as (-> & _).
  - by apply restores_assign.
Qed.

Lemma extends_aalloc x σ : extends (aalloc x σ) σ.
Proof.
  split; [done|]. intros [k|i] v; simpl; [|done].
  apply lookup_app_l_Some.
Qed.

Lemma extends_aalloc_n n σ : extends (aalloc_n n σ) σ.
Proof.
  split; [done|]. intros [k|i] v; simpl; [|done].
  apply lookup_app_l_Some.
Qed.

Lemma extends_emit r σ' σ : extends σ' σ → extends (emit r σ') σ.
Proof. intros [Hl He]. by split. Qed.

Lemma extends_set_result l σ : extends (set_result l σ) σ.
Proof. by split. Qed.

(** The result cell of an operation: a new cell, written once. *)
Lemma extends_result y σ :
  extends (awrite (ACell (length (cells σ))) y (aalloc fzero σ)) σ.
Proof.
  split; [done|]. intros l v Hl. rewrite aread_awrite_ne.
  - by apply extends_aalloc.
  - intros ->. simpl in Hl. apply lookup_lt_Some in Hl. lia.
Qed.

Lemma arun_restores reg P env σ σ' :
  arun reg P env σ = Some σ' →
  ∃ t, trace σ' = trace σ ++ t ∧ restores σ t σ'.
Proof.
  revert env σ σ'.
  induction P as [|x k IH|o px k IH|p px k IH|ppx k IH|f px k IH|px k IH
                 |args varargs body IHbody k IH];
    intros env σ σ' Hrun; simpl in Hrun.
  - inversion Hrun; subst. exists []. split; [by rewrite app_nil_r|].
    apply restores_nil, extends_refl.
  - apply IH in Hrun as (t & Ht & Hr). exists t. split; [done|].
    eapply restores_weaken; [apply extends_aalloc|done].
  - destruct (mapM (aresolve env) px) as [px'|]; [|done]. simpl in Hrun.
    destruct (arith_value _ o px') as [y|]; [|done]. simpl in Hrun.
    apply IH in Hrun as (t & Ht & Hr). simpl in Ht.
    exists ([AArith o (ACell (length (cells σ))) (take (arity o) px')] ++ t).
    split; [by rewrite Ht, app_assoc|].
    eapply restores_app; [|done].
    apply restores_keep; [apply extends_emit, extends_result|].
    apply aback_keep_arith.
  - destruct (aresolve env p) as [t0|]; [|done]. simpl in Hrun.
    destruct (aresolve env px) as [s0|]; [|done]. simpl in Hrun.
    destruct (aread t0 σ) as [old|] eqn:Hold; [|done]. simpl in Hrun.
    destruct (aread s0 σ) as [y|]; [|done]. simpl in Hrun.
    apply IH in Hrun as (t & Ht & Hr). simpl in Ht.
    exists ([AAssign [t0] [s0] [old]] ++ t).
    split.
    { rewrite Ht. destruct (awrite_fields t0 y σ) as (-> & _).
      by rewrite app_assoc. }
    eapply restores_app; [|done].
    apply (restores_assign σ [t0] [s0] [old] [y]).
    cbn [mapM]. by rewrite Hold.
  - destruct (mapM (aresolve env) ppx.*1) as [ts|]; [|done]. simpl in Hrun.
    destruct (mapM (aresolve env) ppx.*2) as [ss|]; [|done]. simpl in Hrun.
    destruct (a_passign ts ss σ) as [σ1|] eqn:Hp; [|done]. simpl in Hrun.
    apply a_passign_restores in Hp as (r & Hr1 & Hrs1).
    apply IH in Hrun as (t & Ht & Hr).
    exists ([r] ++ t). split; [by rewrite Ht, Hr1, app_assoc|].
    by eapply restores_app.
  - destruct (mapM (aresolve env) px) as [px'|]; [|done]. simpl in Hrun.
    destruct (lookup_gradient (fkey f) reg) as [g|]; [|done]. simpl in Hrun.
    destruct (mapM _ px') as [xs|]; [|done]. simpl in Hrun.
    destruct (apply_fimpl (fcode f) xs) as [y|]; [|done]. simpl in Hrun.
    apply IH in Hrun as (t & Ht & Hr). simpl in Ht.
    exists ([AElem g (ACell (length (cells σ))) px' xs] ++ t).
    split; [by rewrite Ht, app_assoc|].
    eapply restores_app; [|done].
    apply restores_keep; [apply extends_emit, extends_result|].
    apply aback_keep_elem.
  - destruct (aresolve env px) as [l|]; [|done]. simpl in Hrun.
    destruct (aread l σ); [|done]. simpl in Hrun.
    apply IH in Hrun as (t & Ht & Hr). exists t. split; [done|].
    eapply restores_weaken; [apply extends_set_result|done].
  - destruct (mapM (aresolve env) args.*2) as [actuals|]; [|done].
    simpl in Hrun.
    destruct (mapM (aresolve env) varargs) as [vs|]; [|done]. simpl in Hrun.
    destruct (a_variadic vs σ) as [σ1|] eqn:Hv; [|done]. simpl in Hrun.
    destruct (mapM (aresolve env) args.*1) as [formals|]; [|done].
    simpl in Hrun.
    destruct (a_passign formals actuals (emit ADummy σ1)) as [σ2|] eqn:Hp;
      [|done]. simpl in Hrun.
    destruct (arun reg body _ σ2) as [σ3|] eqn:Hb; [|done]. simpl in Hrun.
    assert (∃ t1, trace σ1 = trace σ ++ t1 ∧ restores σ t1 σ1)
      as (t1 & Ht1 & Hr1).
    { unfold a_variadic in Hv. destruct vs as [|v vs].
      - inversion Hv; subst. exists []. split; [by rewrite app_nil_r|].
        apply restores_nil, extends_refl.
      - apply a_passign_restores in Hv as (r & Hr1 & Hrs1).
        exists [r]. split; [done|].
        eapply restores_weaken; [apply extends_aalloc_n|done]. }
    apply a_passign_restores in Hp as (r2 & Ht2 & Hr2). simpl in Ht2.
    apply IHbody in Hb as (t3 & Ht3 & Hr3).
    apply IH in Hrun as (t4 & Ht4 & Hr4).
    exists (t1 ++ [ADummy] ++ [r2] ++ t3 ++ t4). split.
    { rewrite Ht4, Ht3, Ht2, Ht1. by rewrite <- !app_assoc. }
    eapply restores_app; [done|].
    eapply restores_app; [|eapply restores_app;
                            [done|by eapply restores_app]].
    apply restores_keep; [apply extends_emit, extends_refl|].
    intros A σb A' σb' Hk. simpl in Hk. by inversion Hk.
Qed.

End Restore.

Lemma adifferentiate_heap {F} `{Float64 F} sd reg (b n : nat) (P : prog)
    (h h' : list F) g :
  adifferentiate sd reg b n P h = Some (g, h') → h' = h.
Proof.
  unfold adifferentiate, agradient. intros Hd.
  destruct (arun reg P [] (astart h)) as [σ|] eqn:Hrun; [|done].
  simpl in Hd.
  destruct (awalk (trace σ) _ σ) as [[A σ']|] eqn:Hw; [|done].
  simpl in Hd. inversion Hd; subst g h'. clear Hd.
  apply arun_restores in Hrun as (t & Ht & Hr). simpl in Ht. subst t.
  apply extends_heap. eapply Hr; [apply extends_refl|done].
Qed.

(** [differentiate] and the machine, for a run that returns. *)
Lemma differentiate_Ok {F} `{Float64 F} (b n : nat) (P : prog)
    (s s' : state (F:=F)) g :
  tape_ok s → differentiate b n P s = Ok g s' →
  adifferentiate (seeded s) (registry s) b n P (heap s) = Some (g, heap s').
Proof.
  intros Hok Hrun.
  exact (wp_Ok _ _ _ _ _ _ (differentiate_refines s b n P Hok) Hrun).
Qed.

Lemma differentiate_Some {F} `{Float64 F} (b n : nat) (P : prog)
    (s : state (F:=F)) g h :
  tape_ok s →
  adifferentiate (seeded s) (registry s) b n P (heap s) = Some (g, h) →
  ∃ s', differentiate b n P s = Ok g s' ∧ heap s' = h.
Proof.
  intros Hok Hd. pose proof (differentiate_refines s b n P Hok) as Hwp.
  unfold wp in Hwp. destruct (differentiate b n P s) as [g' s'|e s'].
  - rewrite Hd in Hwp. inversion Hwp; subst. by exists s'.
  - congruence.
Qed.

(** ** Memory after [Gradient]

    Outside the tape the forward pass writes through assignments only, and
    the walk writes the saved values back.  When [Setup(x); f(x);
    Gradient()] returns, every cell outside the tape, the elements of [x]
    among them, holds the value it had before [Setup], whatever [f]
    assigned. *)
Theorem Gradient_restores_memory {F} `{Float64 F} (b n : nat) (P : prog)
    (s s' : state (F:=F)) g :
  tape_ok s → differentiate b n P s = Ok g s' → heap s' = heap s.
Proof.
  intros Hok Hrun. apply (differentiate_Ok b n P s s' g Hok) in Hrun.
  by apply adifferentiate_heap in Hrun.
Qed.

Lemma Gradient_restores_memory_witness :
  tape_ok (init_tape (F:=float) [] [3%float; 5%float]) ∧
  differentiate (F:=float) 0 2
    (IAssignment (Ext 0) (Ext 1)
       (IArithmetic OpMul [Ext 0; Ext 1] (IReturn (Res 0) Done)))
    (init_tape [] [3%float; 5%float])
  = Ok [0%float; 10%float]
      {| records := [{| typ := typDummy; op := 0; p := 0; v := 0 |}];
         places := []; values := []; elementals := []; cstack := [];
         adj := [0; 1; 2; 1; 2; 0; 1; 2];
         adv := [1%float; 0%float; 10%float];
         registry := []; heap := [3%float; 5%float] |} ∧
  [3%float; 5%float] = heap (init_tape [] [3%float; 5%float]).
Proof.
  assert (tape_ok (init_tape (F:=float) [] [3%float; 5%float])) as Hok
    by (left; reflexivity).
  assert (differentiate (F:=float) 0 2
            (IAssignment (Ext 0) (Ext 1)
               (IArithmetic OpMul [Ext 0; Ext 1] (IReturn (Res 0) Done)))
            (init_tape [] [3%float; 5%float])
          = Ok [0%float; 10%float]
              {| records := [{| typ := typDummy; op := 0; p := 0; v := 0 |}];
                 places := []; values := []; elementals := []; cstack := [];
                 adj := [0; 1; 2; 1; 2; 0; 1; 2];
                 adv := [1%float; 0%float; 10%float];
                 registry := []; heap := [3%float; 5%float] |}) as Hrun
    by (vm_compute; reflexivity).
  split; [exact Hok|]. split; [exact Hrun|].
  exact (Gradient_restores_memory (F:=float) _ _ _ _ _ _ Hok Hrun).
Defined.

(** ** Single assignments *)

(** [Assignment(t, s)] and [ParallelAssignment(t, s)] on the same tape:
    both return when [t] and [s] can be read, both leave the value of [s] in
    [t], the same record of arity 1, the same two places and the same memory
    outside the tape; the parallel form saves one value more, the value of
    the source, behind the saved value of the target. *)
Theorem Assignment_single_ParallelAssignment {F} `{Float64 F} (t sr : loc)
    (s : state (F:=F)) x y :
  read_loc t s = Some x → read_loc sr s = Some y →
  ∃ s1 s2,
    Assignment t sr s = Ok tt s1 ∧
    ParallelAssignment [t; sr] s = Ok tt s2 ∧
    read_loc t s1 = Some y ∧ read_loc t s2 = Some y ∧
    records s1 = records s ++
      [{| typ := typAssignment; op := 1; p := length (places s);
          v := length (values s) |}] ∧
    records s2 = records s1 ∧
    places s1 = places s ++ [t; sr] ∧ places s2 = places s1 ∧
    heap s2 = heap s1 ∧
    values s1 !! length (values s) = Some x ∧
    values s2 = values s1 ++ [y].
Proof.
  intros Hx Hy.
  pose proof (read_loc_Some_wf _ _ _ Hx) as Hwt.
  pose proof (read_loc_Some_wf _ _ _ Hy) as Hws.
  destruct (wp_False_Ok (Assignment t sr)
    (λ _ s1, s1 = write_loc t y
       (set_records (λ rs, rs ++ [assign_record 1 s])
          (set_values (λ vs, vs ++ [x])
             (set_places (λ ps, ps ++ [t; sr]) s)))) s)
    as ([] & s1 & Hrun1 & ->).
  { apply wpf_Assignment; [done| |by intros [?|?]; congruence].
    intros x' y' Hx' Hy'. by simplify_eq. }
  destruct (wp_False_Ok (ParallelAssignment ([t] ++ [sr]))
    (λ _ s2, s2 = write_all (zip [t] [y])
       (set_records (λ rs, rs ++ [assign_record 1 s])
          (set_values (λ vs, vs ++ ([x] ++ [y]))
             (set_places (λ ps, ps ++ ([t] ++ [sr])) s)))) s)
    as ([] & s2 & Hrun2 & ->).
  { apply wpf_ParallelAssignment; [done|by repeat constructor| |].
    - intros olds news Holds Hnews. unfold read_all in *.
      cbn [mapM] in Holds, Hnews. rewrite Hx in Holds. rewrite Hy in Hnews.
      inversion Holds; inversion Hnews; subst olds news. done.
    - unfold read_all. cbn [mapM]. rewrite Hx, Hy. simpl.
      by intros [?|?]. }
  eexists _, _. split; [exact Hrun1|]. split; [exact Hrun2|].
  unfold write_all. simpl foldl.
  destruct t as [i|i]; simpl in *.
  - assert (i < length (values s)) as Hi by (by eapply lookup_lt_Some).
    rewrite !list_lookup_insert_eq by (rewrite !length_app; simpl; lia).
    do 7 (split; [done|]). split.
    + rewrite list_lookup_insert_ne by lia. by rewrite list_lookup_middle.
    + rewrite !insert_app_l by done.
      by rewrite <- app_assoc.
  - apply lookup_lt_Some in Hx as Hi.
    rewrite !list_lookup_insert_eq by done.
    do 7 (split; [done|]). split.
    + by rewrite list_lookup_middle.
    + by rewrite <- app_assoc.
Qed.

Lemma Assignment_single_ParallelAssignment_witness :
  read_loc (LExt 0) (init_tape (F:=float) [] [3%float; 5%float])
    = Some 3%float ∧
  read_loc (LExt 1) (init_tape (F:=float) [] [3%float; 5%float])
    = Some 5%float ∧
  ∃ s1 s2,
    Assignment (LExt 0) (LExt 1) (init_tape (F:=float) [] [3%float; 5%float])
      = Ok tt s1 ∧
    ParallelAssignment [LExt 0; LExt 1]
      (init_tape (F:=float) [] [3%float; 5%float]) = Ok tt s2 ∧
    read_loc (LExt 0) s1 = Some 5%float ∧
    read_loc (LExt 0) s2 = Some 5%float ∧
    records s1 = records (init_tape (F:=float) [] [3%float; 5%float]) ++
      [{| typ := typAssignment; op := 1;
          p := length (places (init_tape (F:=float) [] [3%float; 5%float]));
          v := length (values (init_tape (F:=float) [] [3%float; 5%float]))
       |}] ∧
    records s2 = records s1 ∧
    places s1 = places (init_tape (F:=float) [] [3%float; 5%float])
                ++ [LExt 0; LExt 1] ∧
    places s2 = places s1 ∧ heap s2 = heap s1 ∧
    values s1
      !! length (values (init_tape (F:=float) [] [3%float; 5%float]))
      = Some 3%float ∧
    values s2 = values s1 ++ [5%float].
Proof.
  split; [reflexivity|]. split; [reflexivity|].
  apply (Assignment_single_ParallelAssignment (F:=float)); reflexivity.
Defined.

(** [as_parallel P P']: [P'] is [P] with one [Assignment(t, s)], anywhere in
    the sequence or in the body of a call, written as
    [ParallelAssignment(t, s)]. *)
Inductive as_parallel {F} : prog (F:=F) → prog (F:=F) → Prop :=
  | ap_here t s k :
      as_parallel (IAssignment t s k) (IParallelAssignment [(t, s)] k)
  | ap_Value x k k' :
      as_parallel k k' → as_parallel (IValue x k) (IValue x k')
  | ap_Arithmetic o px k k' :
      as_parallel k k' →
      as_parallel (IArithmetic o px k) (IArithmetic o px k')
  | ap_Assignment p px k k' :
      as_parallel k k' →
      as_parallel (IAssignment p px k) (IAssignment p px k')
  | ap_ParallelAssignment ppx k k' :
      as_parallel k k' →
      as_parallel (IParallelAssignment ppx k) (IParallelAssignment ppx k')
  | ap_Elemental f px k k' :
      as_parallel k k' →
      as_parallel (IElemental f px k) (IElemental f px k')
  | ap_Return px k k' :
      as_parallel k k' → as_parallel (IReturn px k) (IReturn px k')
  | ap_Call_body args vs body body' k :
      as_parallel body body' →
      as_parallel (ICall args vs body k) (ICall args vs body' k)
  | ap_Call args vs body k k' :
      as_parallel k k' →
      as_parallel (ICall args vs body k) (ICall args vs body k').

Lemma arun_as_parallel {F} `{Float64 F} reg (P P' : prog (F:=F)) :
  as_parallel P P' → ∀ env σ, arun reg P env σ = arun reg P' env σ.
Proof.
  induction 1 as [t s k|x k k' _ IH|o px k k' _ IH|p px k k' _ IH
                 |ppx k k' _ IH|f px k k' _ IH|px k k' _ IH
                 |args vs body body' k _ IH|args vs body k k' _ IH];
    intros env σ; simpl.
  - destruct (aresolve env t) as [t'|]; [|done]. simpl.
    destruct (aresolve env s) as [s'|]; [|done]. simpl.
    unfold a_passign. cbn [mapM].
    destruct (aread t' σ) as [old|]; [|done]. simpl.
    by destruct (aread s' σ) as [y|].
  - apply IH.
  - destruct (mapM _ px); [|done]. simpl.
    destruct (arith_value _ _ _); [|done]. simpl. apply IH.
  - destruct (aresolve env p); [|done]. simpl.
    destruct (aresolve env px); [|done]. simpl.
    destruct (aread _ σ); [|done]. simpl.
    destruct (aread _ σ); [|done]. simpl. apply IH.
  - destruct (mapM _ ppx.*1); [|done]. simpl.
    destruct (mapM _ ppx.*2); [|done]. simpl.
    destruct (a_passign _ _ σ); [|done]. simpl. apply IH.
  - destruct (mapM _ px); [|done]. simpl.
    destruct (lookup_gradient _ _); [|done]. simpl.
    destruct (mapM _ _); [|done]. simpl.
    destruct (apply_fimpl _ _); [|done]. simpl. apply IH.
  - destruct (aresolve env px); [|done]. simpl.
    destruct (aread _ σ); [|done]. simpl. apply IH.
  - destruct (mapM _ args.*2); [|done]. simpl.
    destruct (mapM _ vs); [|done]. simpl.
    destruct (a_variadic _ σ); [|done]. simpl.
    destruct (mapM _ args.*1); [|done]. simpl.
    destruct (a_passign _ _ _); [|done]. simpl.
    by rewrite IH.
  - destruct (mapM _ args.*2); [|done]. simpl.
    destruct (mapM _ vs); [|done]. simpl.
    destruct (a_variadic _ σ); [|done]. simpl.
    destruct (mapM _ args.*1); [|done]. simpl.
    destruct (a_passign _ _ _); [|done]. simpl.
    destruct (arun reg body _ _); [|done]. simpl. apply IH.
Qed.

(** Two sequences on which the machine agrees are differentiated alike by
    the tape. *)
Lemma differentiate_agree {F} `{Float64 F} (b n : nat) (P P' : prog)
    (s : state (F:=F)) :
  tape_ok s →
  adifferentiate (seeded s) (registry s) b n P (heap s)
  = adifferentiate (seeded s) (registry s) b n P' (heap s) →
  match differentiate b n P s with
  | Ok g s1 => ∃ s2, differentiate b n P' s = Ok g s2 ∧ heap s2 = heap s1
  | Panicked _ _ => ∃ e s2, differentiate b n P' s = Panicked e s2
  end.
Proof.
  intros Hok Heq.
  destruct (differentiate b n P s) as [g s1|e s1] eqn:Hrun.
  - apply differentiate_Ok in Hrun; [|done]. rewrite Heq in Hrun.
    by apply differentiate_Some in Hrun.
  - pose proof (wp_Panicked _ _ _ _ _ _
                  (differentiate_refines s b n P Hok) Hrun) as Hn.
    simpl in Hn. rewrite Heq in Hn.
    destruct (differentiate b n P' s) as [g s2|e' s2] eqn:Hrun'; [|by eauto].
    apply differentiate_Ok in Hrun'; [|done]. congruence.
Qed.



(** ** Operands that are the same cell *)

Section ExactGradients.
Context {F : Type} `{Float64 F}.
Variable (finv : F → F).
Hypothesis Hexact : exact_arithmetic finv.

Local Lemma exact_theory :
  field_theory fzero fone fadd fmul fsub fneg fdiv finv (@eq F).
Proof. exact Hexact. Qed.

Add Field exact_field : exact_theory.

(** [f(x) = x[0] op x[0]], returned. *)
Definition same_operand (o : Z) (b : nat) : prog (F:=F) :=
  IArithmetic o [Ext b; Ext b] (IReturn (Res 0) Done).

Lemma same_operand_machine (o : Z) (b : nat) (x y : F) (h : list F) reg :
  h !! b = Some x →
  arith_value (λ l : aloc, match l with ACell _ => None | AExt i => h !! i end)
    o [AExt b; AExt b] = Some y →
  arun reg (same_operand o b) [] (astart h)
  = Some {| cells := [fzero; y]; aheap := h;
            trace := [AArith o (ACell 1) (take (arity o) [AExt b; AExt b])];
            result := ACell 1 |}.
Proof.
  intros Hx Hy. unfold same_operand. simpl.
  assert (arith_value (λ l, aread l (aalloc fzero (astart h))) o
            [AExt b; AExt b] = Some y) as ->.
  { rewrite <- Hy. unfold arith_value. by repeat case_decide. }
  reflexivity.
Qed.

Lemma same_operand_adifferentiate (b : nat) (x : F) (h : list F) reg :
  h !! b = Some x →
  adifferentiate true reg b 1 (same_operand OpMul b) h
    = Some ([fadd x x], h) ∧
  adifferentiate true reg b 1 (same_operand OpAdd b) h
    = Some ([fadd fone fone], h) ∧
  adifferentiate true reg b 1 (same_operand OpSub b) h
    = Some ([fzero], h) ∧
  (x ≠ fzero →
   adifferentiate true reg b 1 (same_operand OpDiv b) h
     = Some ([fzero], h)).
Proof.
  intros Hx. unfold adifferentiate. repeat split; [| | |intros Hnz].
  - rewrite (same_operand_machine OpMul b x (fmul x x) h reg Hx)
      by (unfold arith_value; simpl; by rewrite Hx).
    unfold agradient. simpl. rewrite Hx. simpl. unfold acc, upd. simpl.
    rewrite !decide_True by done. do 3 f_equal. ring.
  - rewrite (same_operand_machine OpAdd b x (fadd x x) h reg Hx)
      by (unfold arith_value; simpl; by rewrite Hx).
    unfold agradient. simpl. unfold acc, upd. simpl.
    rewrite !decide_True by done. do 3 f_equal. ring.
  - rewrite (same_operand_machine OpSub b x (fsub x x) h reg Hx)
      by (unfold arith_value; simpl; by rewrite Hx).
    unfold agradient. simpl. unfold acc, dec, upd. simpl.
    rewrite !decide_True by done. do 3 f_equal. ring.
  - rewrite (same_operand_machine OpDiv b x (fdiv x x) h reg Hx)
      by (unfold arith_value; simpl; by rewrite Hx).
    unfold agradient. simpl. rewrite Hx. simpl. unfold acc, upd. simpl.
    rewrite !decide_True by done. do 3 f_equal. by field.
Qed.

End ExactGradients.



(** ** Assignments of a cell to itself *)

Section Retrace.
Context {F : Type} `{Float64 F}.

Implicit Types (σ : @astate F) (A : @adjoints F) (l : aloc).

(** [σ] with another trace. *)
Definition with_trace (T : list arec) σ : astate :=
  {| cells := cells σ; aheap := aheap σ; trace := T; result := result σ |}.

Lemma with_trace_id σ : with_trace (trace σ) σ = σ.
Proof. by destruct σ. Qed.

Lemma with_trace_twice T T' σ :
  with_trace T (with_trace T' σ) = with_trace T σ.
Proof. done. Qed.

Lemma awrite_with_trace l x T σ :
  awrite l x (with_trace T σ) = with_trace T (awrite l x σ).
Proof. by destruct l. Qed.

Lemma awrite_all_with_trace (W : list (aloc * F)) T σ :
  awrite_all W (with_trace T σ) = with_trace T (awrite_all W σ).
Proof.
  induction W as [|[l x] W IH] using rev_ind; [done|].
  by rewrite !awrite_all_snoc, IH, awrite_with_trace.
Qed.

Lemma a_passign_with_trace ts ss T σ σ' :
  a_passign ts ss σ = Some σ' →
  ∃ r, trace σ' = trace σ ++ [r] ∧
       a_passign ts ss (with_trace T σ) = Some (with_trace (T ++ [r]) σ').
Proof.
  unfold a_passign.
  change (λ l, aread l (with_trace T σ)) with (λ l, aread l σ).
  intros Hp.
  destruct (mapM (λ l, aread l σ) ts) as [olds|]; [|done]. simpl in *.
  destruct (mapM (λ l, aread l σ) ss) as [news|]; [|done]. simpl in *.
  inversion Hp; subst σ'. eexists. split.
  - simpl. by destruct (awrite_all_fields (zip ts news) σ) as (-> & _).
  - by rewrite awrite_all_with_trace.
Qed.

Lemma a_variadic_with_trace vs T σ σ' :
  a_variadic vs σ = Some σ' →
  ∃ δ, trace σ' = trace σ ++ δ ∧
       a_variadic vs (with_trace T σ) = Some (with_trace (T ++ δ) σ').
Proof.
  unfold a_variadic. destruct vs as [|v vs].
  - intros [= <-]. exists []. by rewrite !app_nil_r.
  - intros Hp.
    apply (a_passign_with_trace _ _ T) in Hp as (r & Hr & Hp).
    exists [r]. split; [done|]. exact Hp.
Qed.

Lemma arun_with_trace reg P env σ σ' T :
  arun reg P env σ = Some σ' →
  ∃ δ, trace σ' = trace σ ++ δ ∧
       arun reg P env (with_trace T σ) = Some (with_trace (T ++ δ) σ').
Proof.
  revert env σ σ' T.
  induction P as [|x k IH|o px k IH|p px k IH|ppx k IH|f px k IH|px k IH
                 |args varargs body IHbody k IH];
    intros env σ σ' T Hrun; simpl in Hrun |- *.
  - inversion Hrun; subst. exists []. by rewrite !app_nil_r.
  - apply (IH _ _ _ T) in Hrun as (δ & Hδ & Hrun). by exists δ.
  - destruct (mapM (aresolve env) px) as [px'|]; [|done]. simpl in *.
    change (λ l, aread l (aalloc fzero (with_trace T σ)))
      with (λ l, aread l (aalloc fzero σ)).
    destruct (arith_value _ o px') as [y|]; [|done]. simpl in *.
    apply (IH _ _ _ (T ++ [AArith o (ACell (length (cells σ)))
                             (take (arity o) px')]))
      in Hrun as (δ & Hδ & Hrun).
    simpl in Hδ. eexists (_ :: δ). split.
    + rewrite Hδ. by rewrite <- app_assoc.
    + rewrite <- app_assoc in Hrun. exact Hrun.
  - destruct (aresolve env p) as [t0|]; [|done]. simpl in *.
    destruct (aresolve env px) as [s0|]; [|done]. simpl in *.
    change (aread t0 (with_trace T σ)) with (aread t0 σ).
    change (aread s0 (with_trace T σ)) with (aread s0 σ).
    destruct (aread t0 σ) as [old|]; [|done]. simpl in *.
    destruct (aread s0 σ) as [y|]; [|done]. simpl in *.
    apply (IH _ _ _ (T ++ [AAssign [t0] [s0] [old]]))
      in Hrun as (δ & Hδ & Hrun).
    simpl in Hδ. destruct (awrite_fields t0 y σ) as (Htr & _).
    rewrite Htr in Hδ. eexists (_ :: δ). split.
    + rewrite Hδ. by rewrite <- app_assoc.
    + rewrite <- app_assoc in Hrun. rewrite awrite_with_trace. exact Hrun.
  - destruct (mapM (aresolve env) ppx.*1) as [ts|]; [|done]. simpl in *.
    destruct (mapM (aresolve env) ppx.*2) as [ss|]; [|done]. simpl in *.
    destruct (a_passign ts ss σ) as [σ1|] eqn:Hp; [|done]. simpl in *.
    apply (a_passign_with_trace _ _ T) in Hp as (r & Hr & ->). simpl.
    apply (IH _ _ _ (T ++ [r])) in Hrun as (δ & Hδ & Hrun).
    exists (r :: δ). split.
    + rewrite Hδ, Hr. by rewrite <- app_assoc.
    + rewrite <- app_assoc in Hrun. exact Hrun.
  - destruct (mapM (aresolve env) px) as [px'|]; [|done]. simpl in *.
    destruct (lookup_gradient (fkey f) reg) as [g|]; [|done]. simpl in *.
    change (λ l, aread l (aalloc fzero (with_trace T σ)))
      with (λ l, aread l (aalloc fzero σ)).
    destruct (mapM _ px') as [xs|]; [|done]. simpl in *.
    destruct (apply_fimpl (fcode f) xs) as [y|]; [|done]. simpl in *.
    apply (IH _ _ _ (T ++ [AElem g (ACell (length (cells σ))) px' xs]))
      in Hrun as (δ & Hδ & Hrun).
    simpl in Hδ. eexists (_ :: δ). split.
    + rewrite Hδ. by rewrite <- app_assoc.
    + rewrite <- app_assoc in Hrun. exact Hrun.
  - destruct (aresolve env px) as [l|]; [|done]. simpl in *.
    change (aread l (with_trace T σ)) with (aread l σ).
    destruct (aread l σ); [|done]. simpl in *.
    apply (IH _ _ _ T) in Hrun as (δ & Hδ & Hrun). by exists δ.
  - destruct (mapM (aresolve env) args.*2) as [actuals|]; [|done].
    simpl in *.
    destruct (mapM (aresolve env) varargs) as [vs|]; [|done]. simpl in *.
    destruct (a_variadic vs σ) as [σ1|] eqn:Hv; [|done]. simpl in *.
    apply (a_variadic_with_trace _ T) in Hv as (δ1 & Hδ1 & ->). simpl.
    destruct (mapM (aresolve env) args.*1) as [formals|]; [|done].
    simpl in *.
    destruct (a_passign formals actuals (emit ADummy σ1)) as [σ2|] eqn:Hp;
      [|done]. simpl in *.
    apply (a_passign_with_trace _ _ ((T ++ δ1) ++ [ADummy]))
      in Hp as (r2 & Hr2 & Hp).
    change (emit ADummy (with_trace (T ++ δ1) σ1))
      with (with_trace ((T ++ δ1) ++ [ADummy]) (emit ADummy σ1)).
    rewrite Hp. simpl.
    change (a_vararg vs (with_trace T σ)) with (a_vararg vs σ).
    destruct (arun reg body _ σ2) as [σ3|] eqn:Hb; [|done]. simpl in *.
    apply (IHbody _ _ _ (((T ++ δ1) ++ [ADummy]) ++ [r2]))
      in Hb as (δ3 & Hδ3 & ->). simpl.
    apply (IH _ _ _ ((((T ++ δ1) ++ [ADummy]) ++ [r2]) ++ δ3))
      in Hrun as (δ4 & Hδ4 & Hrun).
    exists (δ1 ++ [ADummy] ++ [r2] ++ δ3 ++ δ4). split.
    + rewrite Hδ4, Hδ3, Hr2. simpl. rewrite Hδ1.
      by rewrite <- !app_assoc.
    + rewrite <- !app_assoc in Hrun. rewrite <- !app_assoc. exact Hrun.
Qed.

Lemma aback_with_trace (r : arec) A T σ :
  aback r A (with_trace T σ)
  = (λ p, (p.1, with_trace T p.2)) <$> aback r A σ.
Proof.
  destruct r as [|ts ss saved|o res args|g res args saved]; simpl.
  - done.
  - change (all_valid ts (with_trace T σ)) with (all_valid ts σ).
    destruct (all_valid ts σ); [|done]. simpl.
    by rewrite awrite_all_with_trace.
  - repeat case_decide; try done;
      destruct (args !! 0) as [x|]; simpl; try done;
      destruct (args !! 1) as [y|]; simpl; try done;
      change (aread y (with_trace T σ)) with (aread y σ);
      destruct (aread y σ); simpl; try done.
    + change (aread x (with_trace T σ)) with (aread x σ).
      by destruct (aread x σ).
    + change (aread res (with_trace T σ)) with (aread res σ).
      by destruct (aread res σ).
  - change (aread res (with_trace T σ)) with (aread res σ).
    destruct (aread res σ) as [z|]; [|done]. simpl.
    destruct (g z saved) as [d|]; [|done]. simpl.
    by case_decide.
Qed.

Lemma awalk_with_trace (t : list arec) A T σ :
  awalk t A (with_trace T σ)
  = (λ p, (p.1, with_trace T p.2)) <$> awalk t A σ.
Proof.
  revert A σ. induction t as [|r t IH]; intros A σ; simpl; [done|].
  rewrite IH. destruct (awalk t A σ) as [[A' σ']|]; [|done]. simpl.
  by rewrite aback_with_trace.
Qed.

Lemma awrite_same l x σ : aread l σ = Some x → awrite l x σ = σ.
Proof.
  destruct l as [k|i], σ as [cs h tr res]; simpl; intros Hx;
    by rewrite list_insert_id.
Qed.

(** Adjoints that agree at every location. *)
Definition adj_eq (A1 A2 : @adjoints F) : Prop := ∀ l, A1 l = A2 l.

Definition res_eq (r1 r2 : option (@adjoints F * @astate F)) : Prop :=
  match r1, r2 with
  | Some (A1, σ1), Some (A2, σ2) => adj_eq A1 A2 ∧ σ1 = σ2
  | None, None => True
  | _, _ => False
  end.

Lemma upd_ext A1 A2 l x : adj_eq A1 A2 → adj_eq (upd A1 l x) (upd A2 l x).
Proof. intros HA l'. unfold upd. by case_decide. Qed.

Lemma acc_ext A1 A2 l x : adj_eq A1 A2 → adj_eq (acc A1 l x) (acc A2 l x).
Proof. intros HA l'. unfold acc, upd. rewrite (HA l). by case_decide. Qed.

Lemma dec_ext A1 A2 l x : adj_eq A1 A2 → adj_eq (dec A1 l x) (dec A2 l x).
Proof. intros HA l'. unfold dec, upd. rewrite (HA l). by case_decide. Qed.

Lemma acc_all_ext A1 A2 (W : list (aloc * F)) :
  adj_eq A1 A2 → adj_eq (acc_all A1 W) (acc_all A2 W).
Proof.
  intros HA. induction W as [|[l x] W IH] using rev_ind; [done|].
  rewrite !acc_all_snoc. by apply acc_ext.
Qed.

Lemma clear_all_ext A1 A2 (ls : list aloc) :
  adj_eq A1 A2 → adj_eq (clear_all A1 ls) (clear_all A2 ls).
Proof.
  intros HA. induction ls as [|l ls IH] using rev_ind; [done|].
  rewrite !clear_all_snoc. by apply upd_ext.
Qed.

Lemma aback_ext (r : arec) A1 A2 σ :
  adj_eq A1 A2 → res_eq (aback r A1 σ) (aback r A2 σ).
Proof.
  intros HA.
  destruct r as [|ts ss saved|o res args|g res args saved]; simpl.
  - done.
  - destruct (all_valid ts σ); [|done]. split; [|done].
    replace (A2 <$> ts) with (A1 <$> ts)
      by (apply list_fmap_ext; intros; apply HA).
    by apply acc_all_ext, clear_all_ext.
  - rewrite <- (HA res).
    repeat case_decide; try done;
      destruct (args !! 0) as [x|]; simpl; try done;
      try (split; [by apply dec_ext|done]);
      destruct (args !! 1) as [y|]; simpl; try done;
      try (split; [by apply acc_ext, acc_ext|done]);
      try (split; [by apply dec_ext, acc_ext|done]);
      destruct (aread y σ); simpl; try done.
    + destruct (aread x σ); simpl; [|done].
      split; [by apply acc_ext, acc_ext|done].
    + destruct (aread res σ); simpl; [|done].
      split; [by apply acc_ext, acc_ext|done].
  - rewrite <- (HA res).
    destruct (aread res σ) as [z|]; [|done]. simpl.
    destruct (g z saved) as [d|]; [|done]. simpl.
    case_decide; [|done]. split; [by apply acc_all_ext|done].
Qed.

Lemma awalk_ext (t : list arec) A1 A2 σ :
  adj_eq A1 A2 → res_eq (awalk t A1 σ) (awalk t A2 σ).
Proof.
  intros HA. induction t as [|r t IH]; simpl; [done|].
  destruct (awalk t A1 σ) as [[A1' σ1]|], (awalk t A2 σ) as [[A2' σ2]|];
    simpl in *; try done.
  destruct IH as [HA' ->]. by apply aback_ext.
Qed.

(** From a memory that extends [σ'], the walk over [δ2] gives what the walk
    over [δ1] gives. *)
Definition walk_equiv (δ1 δ2 : list arec) (σ' : @astate F) : Prop :=
  ∀ A σb A' σb', extends σb σ' → awalk δ1 A σb = Some (A', σb') →
    ∃ A'', awalk δ2 A σb = Some (A'', σb') ∧ adj_eq A'' A'.

Lemma walk_equiv_pre pre δ1 δ2 σ' :
  walk_equiv δ1 δ2 σ' → walk_equiv (pre ++ δ1) (pre ++ δ2) σ'.
Proof.
  intros He A σb A' σb' Hb Hw. rewrite awalk_app in Hw |- *.
  destruct (awalk δ1 A σb) as [[A1 σ1]|] eqn:Hw1; [|done].
  destruct (He A σb A1 σ1 Hb Hw1) as (A1' & -> & HA).
  pose proof (awalk_ext pre A1' A1 σ1 HA) as Hext. rewrite Hw in Hext.
  destruct (awalk pre A1' σ1) as [[A'' σ'']|]; [|done].
  destruct Hext as [HA' ->]. by exists A''.
Qed.

Lemma walk_equiv_post δ1 δ2 δk σm σ' :
  walk_equiv δ1 δ2 σm → restores σm δk σ' →
  walk_equiv (δ1 ++ δk) (δ2 ++ δk) σ'.
Proof.
  intros He Hr A σb A' σb' Hb Hw. rewrite awalk_app in Hw |- *.
  destruct (awalk δk A σb) as [[A1 σ1]|] eqn:Hwk; [|done].
  apply (He A1 σ1 A' σb'); [|done]. by eapply Hr.
Qed.

Lemma walk_equiv_here (t : aloc) (old : F) δ σa σ' :
  (∀ a : F, fadd fzero a = a) →
  aread t σa = Some old → restores σa δ σ' →
  walk_equiv ([AAssign [t] [t] [old]] ++ δ) δ σ'.
Proof.
  intros Hlaw Hold Hr A σb A' σb' Hb Hw. rewrite awalk_app in Hw.
  destruct (awalk δ A σb) as [[A1 σ1]|] eqn:Hw1; [|done].
  assert (aread t σ1 = Some old) as Ht1.
  { destruct (Hr A σb A1 σ1 Hb Hw1) as [_ He]. by apply He. }
  simpl in Hw. unfold all_valid in Hw. simpl in Hw.
  rewrite Ht1 in Hw. simpl in Hw.
  rewrite awrite_same in Hw by done. inversion Hw; subst A' σb'.
  exists A1. split; [done|]. intros l.
  unfold acc, upd. destruct (decide (l = t)) as [->|Hne]; [|done].
  rewrite decide_True by done. by rewrite Hlaw.
Qed.

End Retrace.

(** [self_assigned x P P']: [P] is [P'] with one more [Assignment(x, x)],
    anywhere in the sequence or in the body of a call. *)
Inductive self_assigned {F} (x : operand) : prog (F:=F) → prog (F:=F) → Prop :=
  | sa_here k : self_assigned x (IAssignment x x k) k
  | sa_Value v k k' :
      self_assigned x k k' → self_assigned x (IValue v k) (IValue v k')
  | sa_Arithmetic o px k k' :
      self_assigned x k k' →
      self_assigned x (IArithmetic o px k) (IArithmetic o px k')
  | sa_Assignment p px k k' :
      self_assigned x k k' →
      self_assigned x (IAssignment p px k) (IAssignment p px k')
  | sa_ParallelAssignment ppx k k' :
      self_assigned x k k' →
      self_assigned x (IParallelAssignment ppx k)
        (IParallelAssignment ppx k')
  | sa_Elemental f px k k' :
      self_assigned x k k' →
      self_assigned x (IElemental f px k) (IElemental f px k')
  | sa_Return px k k' :
      self_assigned x k k' → self_assigned x (IReturn px k) (IReturn px k')
  | sa_Call_body args vs body body' k :
      self_assigned x body body' →
      self_assigned x (ICall args vs body k) (ICall args vs body' k)
  | sa_Call args vs body k k' :
      self_assigned x k k' →
      self_assigned x (ICall args vs body k) (ICall args vs body k').

Section SelfAssigned.
Context {F : Type} `{Float64 F}.
Hypothesis zero_plus : ∀ a : F, fadd fzero a = a.

Implicit Types (σ : @astate F).

Local Ltac step_pre IH Hrun pre :=
  let δ1 := fresh "δ1" in let δ2 := fresh "δ2" in
  let H1 := fresh "H1" in let H2 := fresh "H2" in let He := fresh "He" in
  apply IH in Hrun as (δ1 & δ2 & H1 & H2 & He);
  exists (pre ++ δ1), (pre ++ δ2);
  split; [|split; [|by apply walk_equiv_pre]].

Lemma arun_self_assigned reg x (P P' : prog (F:=F)) :
  self_assigned x P P' →
  ∀ env σ σ', arun reg P env σ = Some σ' →
    ∃ δ1 δ2, trace σ' = trace σ ++ δ1 ∧
             arun reg P' env σ = Some (with_trace (trace σ ++ δ2) σ') ∧
             walk_equiv δ1 δ2 σ'.
Proof.
  induction 1 as [k|v k k' _ IH|o px k k' _ IH|p px k k' _ IH
                 |ppx k k' _ IH|f px k k' _ IH|px k k' _ IH
                 |args vs body body' k _ IH|args vs body k k' _ IH];
    intros env σ σ' Hrun; simpl in Hrun |- *.
  - destruct (aresolve env x) as [t|]; [|done]. simpl in Hrun.
    destruct (aread t σ) as [old|] eqn:Hold; [|done]. simpl in Hrun.
    rewrite awrite_same in Hrun by done.
    pose proof (arun_restores _ _ _ _ _ Hrun) as (δ & Hδ & Hr).
    apply (arun_with_trace _ _ _ _ _ (trace σ)) in Hrun as (δ' & Hδ' & Hrun).
    assert (δ' = δ) as -> by (by eapply app_inv_head; rewrite <- Hδ, <- Hδ').
    simpl in Hδ.
    change (with_trace (trace σ) (emit (AAssign [t] [t] [old]) σ))
      with (with_trace (trace σ) σ) in Hrun.
    rewrite with_trace_id in Hrun.
    exists ([AAssign [t] [t] [old]] ++ δ), δ.
    split; [by rewrite Hδ, <- app_assoc|]. split; [done|].
    eapply (walk_equiv_here t old δ (emit (AAssign [t] [t] [old]) σ));
      [done|by rewrite aread_emit|done].
  - apply IH in Hrun as (δ1 & δ2 & H1 & H2 & He). by exists δ1, δ2.
  - destruct (mapM (aresolve env) px) as [px'|]; [|done]. simpl in *.
    destruct (arith_value _ o px') as [y|]; [|done]. simpl in *.
    step_pre IH Hrun ([AArith o (ACell (length (cells σ)))
                           (take (arity o) px')] : list (@arec F)).
    + rewrite H1. simpl. by rewrite <- app_assoc.
    + rewrite H2. simpl. by rewrite <- app_assoc.
  - destruct (aresolve env p) as [t0|]; [|done]. simpl in *.
    destruct (aresolve env px) as [s0|]; [|done]. simpl in *.
    destruct (aread t0 σ) as [old|]; [|done]. simpl in *.
    destruct (aread s0 σ) as [y|]; [|done]. simpl in *.
    destruct (awrite_fields t0 y σ) as (Htr & _).
    step_pre IH Hrun ([AAssign [t0] [s0] [old]] : list (@arec F)).
    + rewrite H1. simpl. by rewrite Htr, <- app_assoc.
    + rewrite H2. simpl. by rewrite Htr, <- app_assoc.
  - destruct (mapM (aresolve env) ppx.*1) as [ts|]; [|done]. simpl in *.
    destruct (mapM (aresolve env) ppx.*2) as [ss|]; [|done]. simpl in *.
    destruct (a_passign ts ss σ) as [σ1|] eqn:Hp; [|done]. simpl in *.
    apply a_passign_fields in Hp as [[r Hr] _].
    step_pre IH Hrun [r].
    + rewrite H1, Hr. by rewrite <- app_assoc.
    + rewrite H2, Hr. by rewrite <- app_assoc.
  - destruct (mapM (aresolve env) px) as [px'|]; [|done]. simpl in *.
    destruct (lookup_gradient (fkey f) reg) as [g|]; [|done]. simpl in *.
    destruct (mapM _ px') as [xs|]; [|done]. simpl in *.
    destruct (apply_fimpl (fcode f) xs) as [y|]; [|done]. simpl in *.
    step_pre IH Hrun
      ([AElem g (ACell (length (cells σ))) px' xs] : list (@arec F)).
    + rewrite H1. simpl. by rewrite <- app_assoc.
    + rewrite H2. simpl. by rewrite <- app_assoc.
  - destruct (aresolve env px) as [l|]; [|done]. simpl in *.
    destruct (aread l σ); [|done]. simpl in *.
    apply IH in Hrun as (δ1 & δ2 & H1 & H2 & He). by exists δ1, δ2.
  - destruct (mapM (aresolve env) args.*2) as [actuals|]; [|done].
    simpl in *.
    destruct (mapM (aresolve env) vs) as [vs'|]; [|done]. simpl in *.
    destruct (a_variadic vs' σ) as [σ1|] eqn:Hv; [|done]. simpl in *.
    destruct (mapM (aresolve env) args.*1) as [formals|]; [|done].
    simpl in *.
    destruct (a_passign formals actuals (emit ADummy σ1)) as [σ2|] eqn:Hp;
      [|done]. simpl in *.
    destruct (arun reg body _ σ2) as [σ3|] eqn:Hb; [|done]. simpl in *.
    apply (a_variadic_with_trace _ (trace σ)) in Hv as (pre1 & Hpre1 & _).
    apply a_passign_fields in Hp as [[r2 Hr2] _]. simpl in Hr2.
    apply IH in Hb as (δb1 & δb2 & Hb1 & -> & Heb). simpl.
    pose proof (arun_restores _ _ _ _ _ Hrun) as (δk & Hδk & Hrk).
    apply (arun_with_trace _ _ _ _ _ (trace σ2 ++ δb2))
      in Hrun as (δk' & Hδk' & Hrun).
    assert (δk' = δk) as ->
      by (by eapply app_inv_head; rewrite <- Hδk, <- Hδk').
    exists ((pre1 ++ [ADummy] ++ [r2]) ++ δb1 ++ δk),
           ((pre1 ++ [ADummy] ++ [r2]) ++ δb2 ++ δk).
    split; [|split].
    + rewrite Hδk, Hb1, Hr2, Hpre1. by rewrite <- !app_assoc.
    + rewrite Hrun. f_equal. f_equal. rewrite Hr2, Hpre1.
      by rewrite <- !app_assoc.
    + apply walk_equiv_pre. by eapply walk_equiv_post.
  - destruct (mapM (aresolve env) args.*2) as [actuals|]; [|done].
    simpl in *.
    destruct (mapM (aresolve env) vs) as [vs'|]; [|done]. simpl in *.
    destruct (a_variadic vs' σ) as [σ1|] eqn:Hv; [|done]. simpl in *.
    destruct (mapM (aresolve env) args.*1) as [formals|]; [|done].
    simpl in *.
    destruct (a_passign formals actuals (emit ADummy σ1)) as [σ2|] eqn:Hp;
      [|done]. simpl in *.
    destruct (arun reg body _ σ2) as [σ3|] eqn:Hb; [|done]. simpl in *.
    apply (a_variadic_with_trace _ (trace σ)) in Hv as (pre1 & Hpre1 & _).
    apply a_passign_fields in Hp as [[r2 Hr2] _]. simpl in Hr2.
    apply (arun_with_trace _ _ _ _ _ (trace σ2)) in Hb as (δb & Hδb & _).
    step_pre IH Hrun (pre1 ++ [ADummy] ++ [r2] ++ δb : list (@arec F)).
    + rewrite H1, Hδb, Hr2, Hpre1. by rewrite <- !app_assoc.
    + rewrite H2, Hδb, Hr2, Hpre1. by rewrite <- !app_assoc.
Qed.

Lemma adifferentiate_self_assigned sd reg (b n : nat) x (P P' : prog (F:=F))
    (h : list F) r :
  self_assigned x P P' →
  adifferentiate sd reg b n P h = Some r →
  adifferentiate sd reg b n P' h = Some r.
Proof.
  intros HP. unfold adifferentiate.
  destruct (arun reg P [] (astart h)) as [σ1|] eqn:Hrun; [|done]. simpl.
  apply (arun_self_assigned reg x P P' HP) in Hrun
    as (δ1 & δ2 & H1 & -> & He).
  simpl in H1. simpl. unfold agradient. rewrite H1.
  change (result (with_trace δ2 σ1)) with (result σ1).
  change (trace (with_trace δ2 σ1)) with δ2.
  set (A1 := if sd then _ else _).
  destruct (awalk δ1 A1 σ1) as [[A σ']|] eqn:Hw; [|done]. simpl.
  intros [= <-].
  destruct (He A1 σ1 A σ' (extends_refl σ1) Hw) as (A' & Hw' & HA).
  rewrite awalk_with_trace, Hw'. simpl. f_equal. f_equal.
  apply list_fmap_ext. intros i l _. apply HA.
Qed.

End SelfAssigned.



(** ** Using a tape again *)

(** [Setup(x); f(x); Gradient()] leaves the place log as long as it was and
    the registry as it was. *)
Lemma differentiate_frame {F} `{Float64 F} (b n : nat) (P : prog)
    (s s' : state (F:=F)) g :
  differentiate b n P s = Ok g s' →
  length (places s') = length (places s) ∧ registry s' = registry s.
Proof.
  intros Hrun.
  assert (∀ e (s : state (F:=F)), (∀ t, e ≠ BadType t) → any_panic e s)
    as HE by done.
  assert (wp any_panic (differentiate b n P)
    (λ _ s', length (places s') = length (places s) ∧
             registry s' = registry s) s) as Hwp.
  { unfold differentiate. wp_step. unfold wp at 1. rewrite Setup_eq.
    set (s1 := set_places _ _). wp_step.
    eapply wp_mono; [by apply run_grows|].
    intros ? s2 [Hr Hc Hp Hv He Hcs Hadj Hadv Hreg].
    assert (length (slice_places b n) = n) as Hn
      by (unfold slice_places; by rewrite length_fmap, length_seq).
    subst s1. simpl in *. rewrite Hn in *.
    apply prefix_length in Hr as Hlen.
    assert (last (cstack s2) = Some (frame_of n s)) as Hlast
      by (rewrite Hcs; by rewrite last_snoc).
    unfold Gradient. wp_step.
    eapply wp_mono;
      [by apply (backward_shape any_panic HE (frame_of n s))|].
    intros ? s3 [[Hr3 Hp3 Hv3 He3 Hcs3 Hreg3 Hadj3 Hadv3] _].
    wp_step. apply (partials_pure any_panic HE). intros g'. wp_step.
    apply (wp_Pop any_panic HE (frame_of n s)); [congruence|].
    simpl. intros ? Hple ? ?. wp_step. simpl.
    rewrite length_take. split; [lia|congruence]. }
  exact (wp_Ok _ _ _ _ _ _ Hwp Hrun).
Qed.



(** ** The rules of differentiation *)

Section Rules.
Context {F : Type} `{Float64 F}.
Variable (finv : F → F).
Hypothesis Hexact : exact_arithmetic finv.

Local Lemma rules_theory :
  field_theory fzero fone fadd fmul fsub fneg fdiv finv (@eq F).
Proof. exact Hexact. Qed.

Add Field rules_field : rules_theory.

(** [f(x) = -x[0]], returned. *)
Definition negation (b : nat) : prog (F:=F) :=
  IArithmetic OpNeg [Ext b] (IReturn (Res 0) Done).

(** [f(x) = x[0] op x[1]], returned. *)
Definition binary (o : Z) (b : nat) : prog (F:=F) :=
  IArithmetic o [Ext b; Ext (S b)] (IReturn (Res 0) Done).

(** [f(x) = e(x[0] * x[1])] for an elemental [e], returned. *)
Definition of_product (e : efun) (b : nat) : prog (F:=F) :=
  IArithmetic OpMul [Ext b; Ext (S b)]
    (IElemental e [Res 0] (IReturn (Res 1) Done)).

Local Ltac adjoint_cases :=
  unfold acc, dec, upd; simpl;
  repeat case_decide; simplify_eq; try lia.

Lemma negation_adifferentiate (b : nat) (x : F) (h : list F) reg :
  h !! b = Some x →
  adifferentiate true reg b 1 (negation b) h = Some ([fneg fone], h).
Proof.
  intros Hx. unfold adifferentiate, negation. simpl.
  unfold arith_value. simpl. rewrite Hx. simpl.
  unfold agradient. simpl. do 2 f_equal. adjoint_cases.
  f_equal. ring.
Qed.

Lemma binary_adifferentiate (b : nat) (x y : F) (h : list F) reg :
  h !! b = Some x → h !! S b = Some y →
  adifferentiate true reg b 2 (binary OpAdd b) h
    = Some ([fone; fone], h) ∧
  adifferentiate true reg b 2 (binary OpSub b) h
    = Some ([fone; fneg fone], h) ∧
  adifferentiate true reg b 2 (binary OpMul b) h
    = Some ([y; x], h) ∧
  (y ≠ fzero →
   adifferentiate true reg b 2 (binary OpDiv b) h
     = Some ([fdiv fone y; fneg (fdiv x (fmul y y))], h)).
Proof.
  intros Hx Hy. unfold adifferentiate, binary.
  repeat split; [| | |intros Hnz]; simpl; unfold arith_value; simpl;
    rewrite Hx, Hy; simpl; unfold agradient; simpl; rewrite ?Hx, ?Hy; simpl; do 2 f_equal.
  - adjoint_cases. f_equal; [ring|f_equal; ring].
  - adjoint_cases. f_equal; [ring|f_equal; ring].
  - adjoint_cases. f_equal; [ring|f_equal; ring].
  - adjoint_cases. f_equal; [by field|f_equal; by field].
Qed.

Lemma of_product_adifferentiate (e : efun) g (b : nat) (x y z d : F)
    (h : list F) reg :
  lookup_gradient (fkey e) reg = Some g →
  h !! b = Some x → h !! S b = Some y →
  apply_fimpl (fcode e) [fmul x y] = Some z →
  g z [fmul x y] = Some [d] →
  adifferentiate true reg b 2 (of_product e b) h
    = Some ([fmul d y; fmul d x], h).
Proof.
  intros Hg Hx Hy Hz Hd. unfold adifferentiate, of_product.
  simpl. unfold arith_value. simpl. rewrite Hx, Hy. simpl.
  rewrite Hg. simpl. rewrite Hz. simpl.
  unfold agradient. simpl. rewrite Hd. simpl. rewrite ?Hx, ?Hy. simpl.
  do 2 f_equal. adjoint_cases. f_equal; [ring|f_equal; ring].
Qed.

End Rules.





(** ** The forward pass and the tape *)

(** A forward sequence, whatever it records and whatever functions it
    calls, only appends to the record log: the records that were there stay
    as they are, and no record added is a call marker when the sequence
    returns.  The place log, the value store and the elemental log do not
    get shorter; the counter stack, the adjoint index, the adjoint buffer
    and the registry are not touched.  When the sequence panics, it is not
    with "bad type". *)
Theorem forward_only_appends {F} `{Float64 F} (P : prog) (env : list loc)
    (s : state (F:=F)) :
  match run P env s with
  | Ok _ s' =>
      records s `prefix_of` records s' ∧
      (∀ i r, length (records s) ≤ i → records s' !! i = Some r →
              typ r ≠ typCall) ∧
      length (places s) ≤ length (places s') ∧
      length (values s) ≤ length (values s') ∧
      length (elementals s) ≤ length (elementals s') ∧
      cstack s' = cstack s ∧ adj s' = adj s ∧ adv s' = adv s ∧
      registry s' = registry s
  | Panicked e _ => ∀ t, e ≠ BadType t
  end.
Proof.
  pose proof (run_grows no_bad_type (λ e s H, H) P env s) as Hwp.
  unfold wp in Hwp. destruct (run P env s) as [[] s'|e s']; [|done].
  by destruct Hwp.
Qed.

(** ** [Called] *)

Lemma bind_ext {F} `{Float64 F} {A B} (m : M (F:=F) A) (k1 k2 : A → M B)
    (s : state (F:=F)) :
  (∀ a s', m s = Ok a s' → k1 a s' = k2 a s') →
  bind m k1 s = bind m k2 s.
Proof. unfold bind. destruct (m s); auto. Qed.

Lemma bind_ext_l {F} `{Float64 F} {A B} (m1 m2 : M (F:=F) A) (k : A → M B)
    (s : state (F:=F)) :
  m1 s = m2 s → bind m1 k s = bind m2 k s.
Proof. unfold bind. by intros ->. Qed.

(** [Called()] is true on entry to the function that [Call] calls: a
    closure that starts by asking [Called()] runs as if it had been told
    [true]. *)
Theorem Called_in_Call {F} `{Float64 F} (f : bool → float_slice → M unit)
    (narg : nat) (px : list loc) (s : state (F:=F)) :
  Call (λ vararg, let* b := Called in f b vararg) narg px s
  = Call (λ vararg, f true vararg) narg px s.
Proof.
  unfold Call.
  apply bind_ext. intros vararg s1 _.
  apply bind_ext. intros [] s2 _.
  apply bind_ext. intros [] s3 _.
  apply bind_ext. intros icall s4 _.
  apply bind_ext. intros [] s5 Hs5.
  apply bind_ext_l.
  unfold modify in Hs5. injection Hs5 as <-.
  unfold bind, Called, index, demand. simpl. by rewrite last_snoc.
Qed.

(** Outside [Call], [Called()] stays false: if it is false before a forward
    sequence, it is false when the sequence returns, whatever calls the
    sequence made. *)
Theorem Called_false_after_run {F} `{Float64 F} (P : prog) (env : list loc)
    (s s' : state (F:=F)) :
  Called s = Ok false s → run P env s = Ok tt s' →
  Called s' = Ok false s'.
Proof.
  intros Hc Hrun.
  pose proof (run_grows no_bad_type (λ e s H, H) P env s) as Hwp.
  unfold wp in Hwp. rewrite Hrun in Hwp.
  destruct Hwp as [[more Hr] Hno _ _ _ _ _ _ _].
  unfold Called, index, demand in *.
  destruct (last (records s)) as [r|] eqn:Hlast; [|done].
  simpl in Hc. injection Hc as Hc. apply bool_decide_eq_false in Hc.
  destruct (last (records s')) as [r'|] eqn:Hlast'.
  - simpl. f_equal. apply bool_decide_eq_false.
    destruct more as [|r1 more _] using rev_ind.
    + rewrite app_nil_r in Hr. rewrite Hr in Hlast'. congruence.
    + rewrite Hr, app_assoc, last_snoc in Hlast'.
      injection Hlast' as <-.
      apply (Hno (length (records s ++ more))).
      * rewrite length_app. lia.
      * rewrite Hr, app_assoc. by rewrite lookup_app_r, Nat.sub_diag by lia.
  - rewrite Hr, last_None in Hlast'.
    apply app_eq_nil in Hlast' as [Hnil _]. by rewrite Hnil in Hlast.
Qed.

Lemma Called_false_after_run_witness :
  ∃ s s' : state (F:=float),
    s = {| records := [{| typ := typDummy; op := 0; p := 0; v := 0 |}];
               places := [LExt 0]; values := []; elementals := [];
               cstack := [{| c_n := 0; c_r := 1; c_p := 0; c_v := 0;
                             c_e := 0 |}];
               adj := []; adv := []; registry := [];
               heap := [3%float; 5%float] |} ∧
    Called s = Ok false s ∧
    run (ICall [(Ext 1, Ext 0)] []
           (IArithmetic OpMul [Ext 1; Ext 1] (IReturn (Res 0) Done)) Done)
      [] s = Ok tt s' ∧
    Called s' = Ok false s'.
Proof.
  assert (Called (F:=float)
            {| records := [{| typ := typDummy; op := 0; p := 0; v := 0 |}];
            places := [LExt 0]; values := []; elementals := [];
            cstack := [{| c_n := 0; c_r := 1; c_p := 0; c_v := 0;
                          c_e := 0 |}];
            adj := []; adv := []; registry := [];
            heap := [3%float; 5%float] |}
          = Ok false
            {| records := [{| typ := typDummy; op := 0; p := 0; v := 0 |}];
            places := [LExt 0]; values := []; elementals := [];
            cstack := [{| c_n := 0; c_r := 1; c_p := 0; c_v := 0;
                          c_e := 0 |}];
            adj := []; adv := []; registry := [];
            heap := [3%float; 5%float] |}) as Hc by reflexivity.
  assert (∃ s', run (F:=float)
           (ICall [(Ext 1, Ext 0)] []
              (IArithmetic OpMul [Ext 1; Ext 1] (IReturn (Res 0) Done)) Done)
           []
           {| records := [{| typ := typDummy; op := 0; p := 0; v := 0 |}];
            places := [LExt 0]; values := []; elementals := [];
            cstack := [{| c_n := 0; c_r := 1; c_p := 0; c_v := 0;
                          c_e := 0 |}];
            adj := []; adv := []; registry := [];
            heap := [3%float; 5%float] |}
         = Ok tt s') as [s' Hrun] by (eexists; vm_compute; reflexivity).
  eexists _, s'. split; [reflexivity|].
  split; [exact Hc|]. split; [exact Hrun|].
  exact (Called_false_after_run (F:=float) _ _ _ s' Hc Hrun).
Defined.

(** ** The tape and the machine *)


